(** * Adjoint Euler solver core of SU2 (solution_adjoint_mean.cpp)

    A shallow embedding of the parts of [CAdjEulerSolution] that the
    specification talks about: edge-wise residual assembly, the time
    integration drivers, the restart reader of the constructor, the inlet and
    outlet boundary states, the wall-sensitivity smoothing and the acoustic
    (FWH) Dirichlet boundary.

    Doubles are kept abstract behind the class [DoubleOps]: every arithmetic
    operation the C++ code performs on a [double] is one method of the class,
    and [std::min] / [std::max] are written out from their definition in
    terms of the C++ [<] operator ([flt]).  Calls to collaborators that live
    outside this file (the [CNumerics] flux routines, the linear solvers of
    [CSparseMatrix] and [CSysSolve]) are parameters of the model. *)

From Stdlib Require Import List Arith Lia ZArith Bool String Ascii.
From Stdlib Require Import QArith_base.
From Stdlib Require Qcanon.
From Stdlib Require Import Field.
Import ListNotations.
Open Scope nat_scope.

(** ** Doubles *)

Class DoubleOps (F : Type) := {
  f0 : F;                       (* 0.0 *)
  f1 : F;                       (* 1.0 *)
  fadd : F -> F -> F;
  fsub : F -> F -> F;
  fmul : F -> F -> F;
  fdiv : F -> F -> F;
  fopp : F -> F;
  fsqrt : F -> F;
  fabs : F -> F;
  fpow : F -> F -> F;           (* pow(a, b) *)
  flt : F -> F -> bool;         (* the C++ [<] on doubles *)
  fle : F -> F -> bool;         (* the C++ [<=] on doubles *)
  of_Q : Q -> F                 (* a literal constant such as 0.5 or 4.0 *)
}.

Section StdMinMax.
Context {F : Type} `{DoubleOps F}.

  (** [std::min(a, b)] is [(b < a) ? b : a]. *)
Definition std_min (a b : F) : F := if flt b a then b else a.

  (** [std::max(a, b)] is [(a < b) ? b : a]. *)
Definition std_max (a b : F) : F := if flt a b then b else a.
End StdMinMax.

(** Integer arithmetic used to run the model on small concrete inputs. *)
#[export] Instance Z_DoubleOps : DoubleOps Z := {
  f0 := 0%Z; f1 := 1%Z; fadd := Z.add; fsub := Z.sub; fmul := Z.mul;
  fdiv := Z.div; fopp := Z.opp; fsqrt := Z.sqrt; fabs := Z.abs; fpow := Z.pow;
  flt := Z.ltb; fle := Z.leb; of_Q := fun q => (Qnum q / Zpos (Qden q))%Z
}.

(** ** Edge-wise residual assembly ([Centered_Residual], [Upwind_Residual])

    The loops call two collaborators: [SubtractRes_Conv] / [SubtractRes_Visc]
    of the node variables and [SubtractBlock] / [AddBlock] of the sparse
    Jacobian.  The embedding records the sequence of these calls. *)

Module Assembly.

Section Assembly.
  (** [V]: an [nVar] residual vector; [B]: an [nVar x nVar] Jacobian block. *)
Context {V B : Type}.

Inductive AsmOp :=
  | SubtractRes_Conv (p : nat) (r : V)
  | AddRes_Conv (p : nat) (r : V)
  | SubtractRes_Visc (p : nat) (r : V)
  | AddRes_Visc (p : nat) (r : V)
  | SubtractBlock (i j : nat) (b : B)
  | AddBlock (i j : nat) (b : B).

Record AsmConfig := {
    implicit : bool;         (* Kind_TimeIntScheme_AdjFlow == EULER_IMPLICIT *)
    beta_rk_nonzero : bool;  (* Get_Beta_RKStep(iRKStep) != 0 *)
    upwind_2nd : bool;       (* Kind_Upwind is ROE_2ND or SW_2ND *)
    mesh0 : bool;            (* iMesh == MESH_0 *)
    discrete : bool          (* Kind_Adjoint == DISCRETE *)
  }.

  (** Output of the centered numerics [SetResidual(Res_Conv_i, Res_Visc_i,
      Res_Conv_j, Res_Visc_j, Jacobian_ii, Jacobian_ij, Jacobian_ji,
      Jacobian_jj)]. *)
Record CenteredOut := {
    Res_Conv_i : V; Res_Visc_i : V; Res_Conv_j : V; Res_Visc_j : V;
    cJ_ii : B; cJ_ij : B; cJ_ji : B; cJ_jj : B
  }.

  (** Output of the upwind numerics: continuous [SetResidual(Residual_i,
      Residual_j, Jacobian_ii, ..)] and discrete [SetResidual(Jacobian_i,
      Jacobian_j)]. *)
Record UpwindOut := {
    Residual_i : V; Residual_j : V;
    uJ_ii : B; uJ_ij : B; uJ_ji : B; uJ_jj : B;
    Jacobian_i : B; Jacobian_j : B
  }.

  (** Mesh edges: [edge_node iEdge = (GetNode(0), GetNode(1))]. *)
Variable nEdge : nat.
Variable edge_node : nat -> nat * nat.
  (** The numerics evaluated at edge [iEdge] (its inputs are the states set
      just before, which the loop does not modify). *)
Variable centered_numerics : nat -> CenteredOut.
Variable upwind_numerics : nat -> UpwindOut.

Definition centered_edge (cfg : AsmConfig) (iEdge : nat) : list AsmOp :=
    let dissipation := beta_rk_nonzero cfg || implicit cfg in
    let '(iPoint, jPoint) := edge_node iEdge in
    let o := centered_numerics iEdge in
    [SubtractRes_Conv iPoint (Res_Conv_i o); SubtractRes_Conv jPoint (Res_Conv_j o)]
    ++ (if dissipation
        then [SubtractRes_Visc iPoint (Res_Visc_i o); SubtractRes_Visc jPoint (Res_Visc_j o)]
        else [])
    ++ (if implicit cfg
        then [SubtractBlock iPoint iPoint (cJ_ii o); SubtractBlock iPoint jPoint (cJ_ij o);
              SubtractBlock jPoint iPoint (cJ_ji o); SubtractBlock jPoint jPoint (cJ_jj o)]
        else []).

Definition Centered_Residual (cfg : AsmConfig) : list AsmOp :=
    flat_map (centered_edge cfg) (seq 0 nEdge).

Definition upwind_edge (cfg : AsmConfig) (iEdge : nat) : list AsmOp :=
    let high_order_diss := upwind_2nd cfg && mesh0 cfg in
    let '(iPoint, jPoint) := edge_node iEdge in
    let o := upwind_numerics iEdge in
    if discrete cfg then
      (if negb high_order_diss then
         [AddBlock iPoint iPoint (Jacobian_i o); SubtractBlock iPoint jPoint (Jacobian_i o);
          AddBlock jPoint iPoint (Jacobian_j o); SubtractBlock jPoint jPoint (Jacobian_j o)]
       else [])
    else
      [SubtractRes_Conv iPoint (Residual_i o); SubtractRes_Conv jPoint (Residual_j o)]
      ++ (if implicit cfg && negb (discrete cfg)
          then [SubtractBlock iPoint iPoint (uJ_ii o); SubtractBlock iPoint jPoint (uJ_ij o);
                SubtractBlock jPoint iPoint (uJ_ji o); SubtractBlock jPoint jPoint (uJ_jj o)]
          else []).

Definition Upwind_Residual (cfg : AsmConfig) : list AsmOp :=
    flat_map (upwind_edge cfg) (seq 0 nEdge).

Definition is_add (op : AsmOp) : bool :=
    match op with AddRes_Conv _ _ | AddRes_Visc _ _ | AddBlock _ _ _ => true | _ => false end.

Definition is_res_add (op : AsmOp) : bool :=
    match op with AddRes_Conv _ _ | AddRes_Visc _ _ => true | _ => false end.

Definition is_res_op (op : AsmOp) : bool :=
    match op with
    | SubtractRes_Conv _ _ | AddRes_Conv _ _ | SubtractRes_Visc _ _ | AddRes_Visc _ _ => true
    | _ => false
    end.
End Assembly.

Arguments AsmOp : clear implicits.
Arguments CenteredOut : clear implicits.
Arguments UpwindOut : clear implicits.

End Assembly.

(** ** Node variables, the sparse Jacobian and the time-integration drivers *)

Module TimeInt.

(** [f] with index [k] overwritten by [v]: an assignment to one array cell. *)
Definition upd {A : Type} (f : nat -> A) (k : nat) (v : A) : nat -> A :=
  fun x => if Nat.eqb x k then v else f x.

(** [for (i = lo; i < lo + n; i++) st = body(i, st);] *)
Definition for_loop {S : Type} (lo n : nat) (body : nat -> S -> S) (st : S) : S :=
  fold_left (fun s i => body i s) (seq lo n) st.

(** Kinds of linear solver and preconditioner read from the configuration;
    the last constructor stands for any other value of the option. *)
Inductive Kind_Linear_Solver :=
| SYM_GAUSS_SEIDEL | LU_SGS | BCGSTAB | GMRES | OTHER_LINEAR_SOLVER.

Inductive Kind_Linear_Solver_Prec := JACOBI | LINELET | NO_PREC | OTHER_PREC.

Definition solver_eqb (a b : Kind_Linear_Solver) : bool :=
  match a, b with
  | SYM_GAUSS_SEIDEL, SYM_GAUSS_SEIDEL | LU_SGS, LU_SGS | BCGSTAB, BCGSTAB
  | GMRES, GMRES | OTHER_LINEAR_SOLVER, OTHER_LINEAR_SOLVER => true
  | _, _ => false
  end.

Inductive Preconditioner :=
| CJacobiPreconditioner | CLineletPreconditioner | CIdentityPreconditioner.

(** One call of a linear-solve routine; the boolean is the last argument of
    the call ([false] in [ImplicitEuler_Iteration], [true] in
    [Solve_LinearSystem]). *)
Inductive Strategy :=
| SGSSolution (flag : bool)
| LU_SGSIteration
| BCGSTAB_solve (p : Preconditioner) (flag : bool)
| FlexibleGMRES_solve (p : Preconditioner) (flag : bool).

(** The routine the configuration selects: the dispatch below is meant to
    call exactly this one. *)
Definition selected_strategy (kind : Kind_Linear_Solver) (prec : Kind_Linear_Solver_Prec)
    (flag : bool) : option Strategy :=
  let precond :=
    match prec with
    | JACOBI => Some CJacobiPreconditioner
    | LINELET => Some CLineletPreconditioner
    | NO_PREC => Some CIdentityPreconditioner
    | OTHER_PREC => None
    end in
  match kind with
  | SYM_GAUSS_SEIDEL => Some (SGSSolution flag)
  | LU_SGS => Some LU_SGSIteration
  | BCGSTAB => option_map (fun p => BCGSTAB_solve p flag) precond
  | GMRES => option_map (fun p => FlexibleGMRES_solve p flag) precond
  | OTHER_LINEAR_SOLVER => None
  end.

Section TimeInt.
Context {F : Type} `{DoubleOps F}.

  (** The per-node fields of [CAdjEulerVariable] used here, indexed by
      [iVar]. *)
Record NodeVar := {
    Solution : nat -> F;
    Solution_Old : nat -> F;
    ResConv : nat -> F;
    ResVisc : nat -> F;
    ResSour : nat -> F;
    Res_TruncError : nat -> F;
    Residual : nat -> F;           (* [GetResidual()], used by the RK driver *)
    ObjFuncSource : nat -> F;
    IntBoundary_Jump : nat -> F
  }.

Definition zero_vec : nat -> F := fun _ => f0.

Definition set_Solution (nv : NodeVar) (s : nat -> F) : NodeVar :=
    {| Solution := s; Solution_Old := Solution_Old nv; ResConv := ResConv nv;
       ResVisc := ResVisc nv; ResSour := ResSour nv; Res_TruncError := Res_TruncError nv;
       Residual := Residual nv; ObjFuncSource := ObjFuncSource nv;
       IntBoundary_Jump := IntBoundary_Jump nv |}.

Definition set_Solution_Old (nv : NodeVar) (s : nat -> F) : NodeVar :=
    {| Solution := Solution nv; Solution_Old := s; ResConv := ResConv nv;
       ResVisc := ResVisc nv; ResSour := ResSour nv; Res_TruncError := Res_TruncError nv;
       Residual := Residual nv; ObjFuncSource := ObjFuncSource nv;
       IntBoundary_Jump := IntBoundary_Jump nv |}.

Definition Set_ResConv_Zero (nv : NodeVar) : NodeVar :=
    {| Solution := Solution nv; Solution_Old := Solution_Old nv; ResConv := zero_vec;
       ResVisc := ResVisc nv; ResSour := ResSour nv; Res_TruncError := Res_TruncError nv;
       Residual := Residual nv; ObjFuncSource := ObjFuncSource nv;
       IntBoundary_Jump := IntBoundary_Jump nv |}.

Definition Set_ResVisc_Zero (nv : NodeVar) : NodeVar :=
    {| Solution := Solution nv; Solution_Old := Solution_Old nv; ResConv := ResConv nv;
       ResVisc := zero_vec; ResSour := ResSour nv; Res_TruncError := Res_TruncError nv;
       Residual := Residual nv; ObjFuncSource := ObjFuncSource nv;
       IntBoundary_Jump := IntBoundary_Jump nv |}.

Definition Set_ResSour_Zero (nv : NodeVar) : NodeVar :=
    {| Solution := Solution nv; Solution_Old := Solution_Old nv; ResConv := ResConv nv;
       ResVisc := ResVisc nv; ResSour := zero_vec; Res_TruncError := Res_TruncError nv;
       Residual := Residual nv; ObjFuncSource := ObjFuncSource nv;
       IntBoundary_Jump := IntBoundary_Jump nv |}.

Definition SetRes_TruncErrorZero (nv : NodeVar) : NodeVar :=
    {| Solution := Solution nv; Solution_Old := Solution_Old nv; ResConv := ResConv nv;
       ResVisc := ResVisc nv; ResSour := ResSour nv; Res_TruncError := zero_vec;
       Residual := Residual nv; ObjFuncSource := ObjFuncSource nv;
       IntBoundary_Jump := IntBoundary_Jump nv |}.

  (** [node[iPoint]->AddSolution(iVar, val)] *)
Definition AddSolution (nv : NodeVar) (iVar : nat) (val : F) : NodeVar :=
    set_Solution nv (upd (Solution nv) iVar (fadd (Solution nv iVar) val)).

  (** [node[iPoint]->SetSolution(iVar, val)] *)
Definition SetSolution_i (nv : NodeVar) (iVar : nat) (val : F) : NodeVar :=
    set_Solution nv (upd (Solution nv) iVar val).

Record Geometry := {
    nPoint : nat;
    nPointDomain : nat;            (* owned nodes are [0 .. nPointDomain-1] *)
    Volume : nat -> F;
    Domain : nat -> bool           (* [geometry->node[iPoint]->GetDomain()] *)
  }.

  (** The solver state: node variables, the scalar entries of the block
      Jacobian by total index ([iPoint*nVar+iVar]), and the [rhs] and [xsol]
      work arrays. *)
Record State := {
    node : nat -> NodeVar;
    Jacobian : nat -> nat -> F;
    rhs : nat -> F;
    xsol : nat -> F
  }.

Definition with_node (st : State) (p : nat) (nv : NodeVar) : State :=
    {| node := upd (node st) p nv; Jacobian := Jacobian st; rhs := rhs st; xsol := xsol st |}.
Definition with_Jacobian (st : State) (J : nat -> nat -> F) : State :=
    {| node := node st; Jacobian := J; rhs := rhs st; xsol := xsol st |}.
Definition with_rhs (st : State) (k : nat) (v : F) : State :=
    {| node := node st; Jacobian := Jacobian st; rhs := upd (rhs st) k v; xsol := xsol st |}.
Definition with_xsol_at (st : State) (k : nat) (v : F) : State :=
    {| node := node st; Jacobian := Jacobian st; rhs := rhs st; xsol := upd (xsol st) k v |}.
Definition with_xsol (st : State) (x : nat -> F) : State :=
    {| node := node st; Jacobian := Jacobian st; rhs := rhs st; xsol := x |}.

Variable nVar : nat.

  (** Modelled from the spec: [CSparseMatrix::AddVal2Diag] (not in the
      sources) adds [val] to every diagonal entry of the diagonal block of
      [iPoint] ("add Volume/dt to each diagonal block"). *)
Definition AddVal2Diag (J : nat -> nat -> F) (iPoint : nat) (val : F) : nat -> nat -> F :=
    fun r c =>
      if Nat.eqb r c && (iPoint * nVar <=? r) && (r <? iPoint * nVar + nVar)
      then fadd (J r c) val else J r c.

  (** Modelled from the spec: [CSparseMatrix::DeleteValsRowi] (not in the
      sources) replaces row [i] by the identity row ("deleting the
      corresponding Jacobian row", "includes 1 in the diagonal"). *)
Definition DeleteValsRowi (J : nat -> nat -> F) (i : nat) : nat -> nat -> F :=
    fun r c => if Nat.eqb r i then (if Nat.eqb c i then f1 else f0) else J r c.

  (** [CSparseMatrix::SetValZero] *)
Definition Jacobian_SetValZero : nat -> nat -> F := fun _ _ => f0.

  (** The linear-solve routines of [CSparseMatrix] and [CSysSolve]: each
      call maps the matrix, the right-hand side and the initial guess to the
      returned iterate. *)
Variable linear_solve : Strategy -> (nat -> nat -> F) -> (nat -> F) -> (nat -> F) -> (nat -> F).

  (** The dispatch block shared by [ImplicitEuler_Iteration] and
      [Solve_LinearSystem]: the calls made and the final [xsol]; [None] when a
      Krylov method is asked for with a preconditioner kind that leaves
      [precond == NULL] (null dereference). *)
Definition dispatch (kind : Kind_Linear_Solver) (prec : Kind_Linear_Solver_Prec)
      (flag : bool) (J : nat -> nat -> F) (b x : nat -> F)
      : option (list Strategy * (nat -> F)) :=
    let '(calls1, x1) :=
      if solver_eqb kind SYM_GAUSS_SEIDEL
      then ([SGSSolution flag], linear_solve (SGSSolution flag) J b x) else ([], x) in
    let '(calls2, x2) :=
      if solver_eqb kind LU_SGS
      then (calls1 ++ [LU_SGSIteration], linear_solve LU_SGSIteration J b x1)
      else (calls1, x1) in
    if solver_eqb kind BCGSTAB || solver_eqb kind GMRES then
      let precond :=
        match prec with
        | JACOBI => Some CJacobiPreconditioner
        | LINELET => Some CLineletPreconditioner
        | NO_PREC => Some CIdentityPreconditioner
        | OTHER_PREC => None
        end in
      match precond with
      | None => None
      | Some p =>
          if solver_eqb kind BCGSTAB then
            Some (calls2 ++ [BCGSTAB_solve p flag], linear_solve (BCGSTAB_solve p flag) J b x2)
          else if solver_eqb kind GMRES then
            Some (calls2 ++ [FlexibleGMRES_solve p flag],
                  linear_solve (FlexibleGMRES_solve p flag) J b x2)
          else Some (calls2, x2)
      end
    else Some (calls2, x2).

  (** [Res = ResConv + ResVisc + ResSour + Res_TruncError] *)
Definition total_res (nv : NodeVar) (iVar : nat) : F :=
    fadd (fadd (fadd (ResConv nv iVar) (ResVisc nv iVar)) (ResSour nv iVar))
         (Res_TruncError nv iVar).

  (** [CAdjEulerSolution::ImplicitEuler_Iteration], up to the final
      [SetSolution_MPI] halo exchange and the residual-norm bookkeeping.
      [Delta_Time] is the flow solver's local time step. Returns the calls to
      the linear solvers and the new state. *)
Definition ImplicitEuler_Iteration (geo : Geometry) (Delta_Time : nat -> F)
      (kind : Kind_Linear_Solver) (prec : Kind_Linear_Solver_Prec) (st : State)
      : option (list Strategy * State) :=
    let st1 :=
      for_loop 0 (nPointDomain geo) (fun iPoint s =>
        let nv := node s iPoint in
        let Delta := fdiv (Volume geo iPoint) (Delta_Time iPoint) in
        let s := with_Jacobian s (AddVal2Diag (Jacobian s) iPoint Delta) in
        for_loop 0 nVar (fun iVar s =>
          let total_index := iPoint * nVar + iVar in
          let s := with_rhs s total_index (fopp (total_res nv iVar)) in
          with_xsol_at s total_index f0) s) st in
    let st2 :=
      for_loop (nPointDomain geo) (nPoint geo - nPointDomain geo) (fun iPoint s =>
        for_loop 0 nVar (fun iVar s =>
          let total_index := iPoint * nVar + iVar in
          with_xsol_at (with_rhs s total_index f0) total_index f0) s) st1 in
    match dispatch kind prec false (Jacobian st2) (rhs st2) (xsol st2) with
    | None => None
    | Some (calls, x) =>
        let st3 := with_xsol st2 x in
        let st4 :=
          for_loop 0 (nPointDomain geo) (fun iPoint s =>
            for_loop 0 nVar (fun iVar s =>
              with_node s iPoint (AddSolution (node s iPoint) iVar (xsol s (iPoint * nVar + iVar)))) s)
            st3 in
        Some (calls, st4)
    end.

  (** [CAdjEulerSolution::Solve_LinearSystem] (discrete adjoint). *)
Definition Solve_LinearSystem (geo : Geometry)
      (kind : Kind_Linear_Solver) (prec : Kind_Linear_Solver_Prec) (st : State)
      : option (list Strategy * State) :=
    let st1 :=
      for_loop 0 (nPointDomain geo) (fun iPoint s =>
        let src := ObjFuncSource (node s iPoint) in
        for_loop 0 nVar (fun iVar s =>
          let total_index := iPoint * nVar + iVar in
          with_xsol_at (with_rhs s total_index (src iVar)) total_index f0) s) st in
    match dispatch kind prec true (Jacobian st1) (rhs st1) (xsol st1) with
    | None => None
    | Some (calls, x) =>
        let st2 := with_xsol st1 x in
        let st3 :=
          for_loop 0 (nPointDomain geo) (fun iPoint s =>
            for_loop 0 nVar (fun iVar s =>
              with_node s iPoint (SetSolution_i (node s iPoint) iVar (xsol s (iPoint * nVar + iVar)))) s)
            st2 in
        Some (calls, st3)
    end.

  (** [CAdjEulerSolution::ExplicitEuler_Iteration], up to [SetSolution_MPI]
      and the residual-norm bookkeeping. *)
Definition ExplicitEuler_Iteration (geo : Geometry) (Delta_Time : nat -> F) (st : State) : State :=
    for_loop 0 (nPointDomain geo) (fun iPoint s =>
      let Delta := fdiv (Delta_Time iPoint) (Volume geo iPoint) in
      let nv := node s iPoint in
      for_loop 0 nVar (fun iVar s =>
        let Res := total_res nv iVar in
        with_node s iPoint (AddSolution (node s iPoint) iVar (fmul (fopp Res) Delta))) s) st.

  (** [CAdjEulerSolution::ExplicitRK_Iteration], same scope. *)
Definition ExplicitRK_Iteration (geo : Geometry) (Delta_Time : nat -> F) (RK_AlphaCoeff : F)
      (st : State) : State :=
    for_loop 0 (nPointDomain geo) (fun iPoint s =>
      let Delta := fdiv (Delta_Time iPoint) (Volume geo iPoint) in
      let nv := node s iPoint in
      for_loop 0 nVar (fun iVar s =>
        let Res := fadd (Residual nv iVar) (Res_TruncError nv iVar) in
        with_node s iPoint
          (AddSolution (node s iPoint) iVar (fmul (fmul (fopp Res) Delta) RK_AlphaCoeff))) s) st.

  (** The residual initialisation of [CAdjEulerSolution::Preprocessing] and
      its final [Jacobian.SetValZero()]; the gradient, limiter and
      dissipation-sensor computations in between do not touch these fields.
      [beta_rk_nonzero] is [Get_Beta_RKStep(iRKStep) != 0]. *)
Definition Preprocessing (geo : Geometry) (implicit beta_rk_nonzero discrete : bool)
      (st : State) : State :=
    let st1 :=
      for_loop 0 (nPoint geo) (fun iPoint s =>
        let nv := Set_ResSour_Zero (Set_ResConv_Zero (node s iPoint)) in
        let nv := if beta_rk_nonzero || implicit then Set_ResVisc_Zero nv else nv in
        with_node s iPoint nv) st in
    if implicit || discrete then with_Jacobian st1 Jacobian_SetValZero else st1.

  (** [CAdjEulerSolution::BC_FWH]: the vertices of the marker are the node
      indices [vertex_nodes]. *)
Definition BC_FWH (vertex_nodes : list nat) (implicit : bool) (st : State) : State :=
    fold_left (fun s iPoint =>
      let jump := IntBoundary_Jump (node s iPoint) in
      let s := with_node s iPoint (set_Solution (node s iPoint) jump) in
      let s := with_node s iPoint (set_Solution_Old (node s iPoint) jump) in
      let s := with_node s iPoint (Set_ResConv_Zero (node s iPoint)) in
      let s := with_node s iPoint (Set_ResSour_Zero (node s iPoint)) in
      let s := with_node s iPoint (Set_ResVisc_Zero (node s iPoint)) in
      let s := with_node s iPoint (SetRes_TruncErrorZero (node s iPoint)) in
      if implicit then
        for_loop 0 nVar (fun iVar s =>
          with_Jacobian s (DeleteValsRowi (Jacobian s) (iPoint * nVar + iVar))) s
      else s) vertex_nodes st.
End TimeInt.

Arguments NodeVar F : clear implicits.
Arguments Geometry F : clear implicits.
Arguments State F : clear implicits.

End TimeInt.

(** ** [BC_Inlet], compressible branch under [TOTAL_CONDITIONS] *)

Module Inlet.

(** Writes to the cells 0..3 of an array. *)
Definition upd4 {A : Type} (U : nat -> A) (a b c d : A) : nat -> A :=
  fun k => match k with 0 => a | 1 => b | 2 => c | 3 => d | _ => U k end.

Section Inlet.
Context {F : Type} `{DoubleOps F}.

  Local Infix "+." := fadd (at level 50, left associativity).
  Local Infix "-." := fsub (at level 50, left associativity).
  Local Infix "*." := fmul (at level 40, left associativity).
  Local Infix "/." := fdiv (at level 40, left associativity).

  (** The intermediate values of one vertex: the quadratic's coefficients,
      the velocity magnitude before and after [max(0.0, .)], the capped Mach
      number and the exterior conservative state [U_inlet]. *)
Record InletOut := {
    aa : F; bb : F; cc : F; dd : F;
    Vel_Mag_root : F;     (* (-bb + dd)/(2.0*aa) *)
    Vel_Mag_floor : F;    (* max(0.0, Vel_Mag_root) *)
    Mach2_raw : F;        (* Velocity2/SoundSpeed2 *)
    Mach2 : F;            (* min(1.0, Mach2_raw) *)
    U_inlet : nat -> F
  }.

Variable nDim nVar : nat.
Variable Gamma Gamma_Minus_One Gas_Constant : F.

  (** [Riemann] before the loop adding [Velocity . UnitaryNormal]. *)
Definition dot (a b : nat -> F) (init : F) : F :=
    fold_left (fun acc iDim => acc +. a iDim *. b iDim) (seq 0 nDim) init.

  (** Inputs: the flow state [U_domain] at the vertex, the unit normal (already
      negated for the outward convention), the non-dimensional [P_Total] and
      [T_Total] and [Flow_Dir]. *)
Definition inlet_total_conditions (U_domain UnitaryNormal Flow_Dir : nat -> F)
      (P_Total T_Total : F) : InletOut :=
    let Density := U_domain 0 in
    let Velocity := fun iDim => U_domain (S iDim) /. Density in
    let Velocity2 := dot Velocity Velocity f0 in
    let Energy := U_domain (nVar - 1) /. Density in
    let Pressure := Gamma_Minus_One *. Density *. (Energy -. of_Q (1#2) *. Velocity2) in
    let H_Total := (Gamma *. Gas_Constant /. Gamma_Minus_One) *. T_Total in
    let SoundSpeed2 := Gamma *. Pressure /. Density in
    let Riemann := dot Velocity UnitaryNormal (of_Q 2 *. fsqrt SoundSpeed2 /. Gamma_Minus_One) in
    let SoundSpeed_Total2 :=
      Gamma_Minus_One *. (H_Total -. (Energy +. Pressure /. Density) +. of_Q (1#2) *. Velocity2)
      +. SoundSpeed2 in
    let alpha := dot UnitaryNormal Flow_Dir f0 in
    let aa := f1 +. of_Q (1#2) *. Gamma_Minus_One *. alpha *. alpha in
    let bb := fopp f1 *. Gamma_Minus_One *. alpha *. Riemann in
    let cc := of_Q (1#2) *. Gamma_Minus_One *. Riemann *. Riemann
              -. of_Q 2 *. SoundSpeed_Total2 /. Gamma_Minus_One in
    let dd := bb *. bb -. of_Q 4 *. aa *. cc in
    let dd := fsqrt (std_max f0 dd) in
    let Vel_Mag_root := (fopp bb +. dd) /. (of_Q 2 *. aa) in
    let Vel_Mag := std_max f0 Vel_Mag_root in
    let Velocity2 := Vel_Mag *. Vel_Mag in
    let SoundSpeed2 := SoundSpeed_Total2 -. of_Q (1#2) *. Gamma_Minus_One *. Velocity2 in
    let Mach2_raw := Velocity2 /. SoundSpeed2 in
    let Mach2 := std_min f1 Mach2_raw in
    let Velocity2' := Mach2 *. SoundSpeed2 in
    let Vel_Mag' := fsqrt Velocity2' in
    let SoundSpeed2' := SoundSpeed_Total2 -. of_Q (1#2) *. Gamma_Minus_One *. Velocity2' in
    let Velocity' := fun iDim => Vel_Mag' *. Flow_Dir iDim in
    let Temperature := SoundSpeed2' /. (Gamma *. Gas_Constant) in
    let Pressure' := P_Total *. fpow (Temperature /. T_Total) (Gamma /. Gamma_Minus_One) in
    let Density' := Pressure' /. (Gas_Constant *. Temperature) in
    let Energy' := Pressure' /. (Density' *. Gamma_Minus_One) +. of_Q (1#2) *. Velocity2' in
    let U0 := fun _ => f0 in
    let U1 := upd4 U0 (Density') (Velocity' 0 *. Density') (Velocity' 1 *. Density')
                  (Energy' *. Density') in
    let U_inlet :=
      if Nat.eqb nDim 3
      then fun k => if Nat.eqb k 3 then Velocity' 2 *. Density'
                    else if Nat.eqb k 4 then Energy' *. Density' else U1 k
      else U1 in
    {| aa := aa; bb := bb; cc := cc; dd := dd; Vel_Mag_root := Vel_Mag_root;
       Vel_Mag_floor := Vel_Mag; Mach2_raw := Mach2_raw; Mach2 := Mach2; U_inlet := U_inlet |}.
End Inlet.

End Inlet.

(** ** Restart of the adjoint solution in the constructor of
    [CAdjEulerSolution] *)

Module Restart.

Local Open Scope string_scope.

Inductive Kind_ObjFunc :=
| DRAG_COEFFICIENT | LIFT_COEFFICIENT | SIDEFORCE_COEFFICIENT | PRESSURE_COEFFICIENT
| MOMENT_X_COEFFICIENT | MOMENT_Y_COEFFICIENT | MOMENT_Z_COEFFICIENT | EFFICIENCY
| EQUIVALENT_AREA | NEARFIELD_PRESSURE | FORCE_X_COEFFICIENT | FORCE_Y_COEFFICIENT
| FORCE_Z_COEFFICIENT | THRUST_COEFFICIENT | TORQUE_COEFFICIENT | FIGURE_OF_MERIT
| FREESURFACE | NOISE.

Definition all_ObjFunc : list Kind_ObjFunc :=
  [DRAG_COEFFICIENT; LIFT_COEFFICIENT; SIDEFORCE_COEFFICIENT; PRESSURE_COEFFICIENT;
   MOMENT_X_COEFFICIENT; MOMENT_Y_COEFFICIENT; MOMENT_Z_COEFFICIENT; EFFICIENCY;
   EQUIVALENT_AREA; NEARFIELD_PRESSURE; FORCE_X_COEFFICIENT; FORCE_Y_COEFFICIENT;
   FORCE_Z_COEFFICIENT; THRUST_COEFFICIENT; TORQUE_COEFFICIENT; FIGURE_OF_MERIT;
   FREESURFACE; NOISE].

(** The [switch (config->GetKind_ObjFunc())] that sets [AdjExt]. *)
Definition AdjExt (k : Kind_ObjFunc) : string :=
  match k with
  | DRAG_COEFFICIENT => "_cd.dat"
  | LIFT_COEFFICIENT => "_cl.dat"
  | SIDEFORCE_COEFFICIENT => "_csf.dat"
  | PRESSURE_COEFFICIENT => "_cp.dat"
  | MOMENT_X_COEFFICIENT => "_cmx.dat"
  | MOMENT_Y_COEFFICIENT => "_cmy.dat"
  | MOMENT_Z_COEFFICIENT => "_cmz.dat"
  | EFFICIENCY => "_eff.dat"
  | EQUIVALENT_AREA => "_ea.dat"
  | NEARFIELD_PRESSURE => "_nfp.dat"
  | FORCE_X_COEFFICIENT => "_cfx.dat"
  | FORCE_Y_COEFFICIENT => "_cfy.dat"
  | FORCE_Z_COEFFICIENT => "_cfz.dat"
  | THRUST_COEFFICIENT => "_ct.dat"
  | TORQUE_COEFFICIENT => "_cq.dat"
  | FIGURE_OF_MERIT => "_merit.dat"
  | FREESURFACE => "_fs.dat"
  | NOISE => "_fwh.dat"
  end.

(** [filename.assign(mesh_filename); filename.erase(filename.end()-4,
    filename.end()); filename.append(AdjExt);]; a name shorter than 4
    characters makes the erase start before [begin()] ([None]). *)
Definition restart_filename (mesh_filename : string) (k : Kind_ObjFunc) : option string :=
  if Nat.ltb (String.length mesh_filename) 4 then None
  else Some (substring 0 (String.length mesh_filename - 4) mesh_filename ++ AdjExt k).

Definition no_file_messages : list string :=
  ["There is no adjoint restart file!!"; "Press any key to exit..."].

Section Restart.
Context {F : Type}.

  (** A restart-file line, as the numbers [istringstream >>] extracts from
      it in order: the point index, then the solution components. *)
Definition Line := list F.

  (** Result of the restart branch: [exit(code)] after printing [msgs]; the
      variables built for the nodes ([node[iPoint]], [None] when none was
      built); or an access outside an array. *)
Inductive RestartOutcome :=
  | Exit (msgs : list string) (code : nat)
  | Loaded (node : nat -> option (nat -> F))
  | Undefined.

Record RestartGeometry := {
    nPoint : nat;
    nPointDomain : nat;
    Global_nPointDomain : nat;
    GlobalIndex : nat -> nat
  }.

Variable nDim : nat.
Variable incompressible : bool.

  (** Number of components the [point_line >> index >> Solution[0] >> ...]
      statements read. *)
Definition nRead : nat :=
    if incompressible then (if Nat.eqb nDim 2 then 3 else if Nat.eqb nDim 3 then 4 else 0)
    else (if Nat.eqb nDim 2 then 4 else if Nat.eqb nDim 3 then 5 else 0).

  (** Extraction of [index] and then [nRead] components into [Solution]; a
      field past the end of the line fails and leaves [Solution[k]] as it
      was. *)
Definition read_line (line : Line) (Solution : nat -> F) : nat -> F :=
    fun k => if Nat.ltb k nRead then
               match nth_error line (S k) with Some v => v | None => Solution k end
             else Solution k.

  (** [Global2Local]: [-1] ([None]) everywhere, then
      [Global2Local[GlobalIndex(iPoint)] = iPoint] for the owned points. *)
Definition Global2Local (geo : RestartGeometry) : nat -> option nat :=
    fold_left (fun g iPoint =>
      fun k => if Nat.eqb k (GlobalIndex geo iPoint) then Some iPoint else g k)
      (seq 0 (nPointDomain geo)) (fun _ => None).

  (** The [while (getline(restart_file, text_line))] loop; [iPoint_Global]
      counts the lines read. *)
Fixpoint read_body (geo : RestartGeometry) (G2L : nat -> option nat) (iPoint_Global : nat)
      (body : list Line) (Solution : nat -> F) (node : nat -> option (nat -> F))
      : option ((nat -> F) * (nat -> option (nat -> F))) :=
    match body with
    | [] => Some (Solution, node)
    | line :: rest =>
        if Nat.leb (Global_nPointDomain geo) iPoint_Global then None
        else
          match G2L iPoint_Global with
          | Some iPoint_Local =>
              let Solution' := read_line line Solution in
              read_body geo G2L (S iPoint_Global) rest Solution'
                (fun p => if Nat.eqb p iPoint_Local then Some Solution' else node p)
          | None => read_body geo G2L (S iPoint_Global) rest Solution node
          end
    end.

  (** The restart branch: [open] is the file system, [Solution0] the content
      of the [Solution] member array before the reads. *)
Definition restart (open : string -> option (list Line)) (geo : RestartGeometry)
      (mesh_filename : string) (k : Kind_ObjFunc) (Solution0 : nat -> F) : RestartOutcome :=
    match restart_filename mesh_filename k with
    | None => Undefined
    | Some filename =>
        match open filename with
        | None => Exit no_file_messages 1
        | Some lines =>
            (* the first line is the header *)
            let body := tl lines in
            match read_body geo (Global2Local geo) 0 body Solution0 (fun _ => None) with
            | None => Undefined
            | Some (Solution, node) =>
                (* halo points get the last [Solution] *)
                Loaded (fun p => if Nat.leb (nPointDomain geo) p && Nat.ltb p (nPoint geo)
                                 then Some Solution else node p)
            end
        end
    end.
End Restart.

End Restart.

(** ** [Smooth_Sensitivity] on one Euler-wall marker

    This part is written over the canonical rationals [Qc] (exact
    arithmetic); [sqrt] and [pow] of the arch-length computation are left as
    parameters. *)

Module Smooth.

Import Qcanon.
Local Open Scope Qc_scope.

Definition updV (b : nat -> Qc) (i : nat) (v : Qc) : nat -> Qc :=
  fun x => if Nat.eqb x i then v else b x.

Definition updA (A : nat -> nat -> Qc) (i j : nat) (v : Qc) : nat -> nat -> Qc :=
  fun r c => if Nat.eqb r i && Nat.eqb c j then v else A r c.

Definition qc (q : Q) : Qc := Q2Qc q.

(** Modelled from the spec: [CSolution::Gauss_Elimination(A, b, n)] (not in
    the sources), "full Gaussian elimination": forward elimination without
    pivoting, then back substitution, the solution overwriting [b]. *)
Definition elim_step (n i j : nat) (Ab : (nat -> nat -> Qc) * (nat -> Qc))
    : (nat -> nat -> Qc) * (nat -> Qc) :=
  let '(A, b) := Ab in
  let weight := A i j / A j j in
  let A' := fold_left (fun A kk => updA A i kk (A i kk - weight * A j kk))
                      (seq j (n - j)) A in
  (A', updV b i (b i - weight * b j)).

Definition forward_elim (n : nat) (A : nat -> nat -> Qc) (b : nat -> Qc)
    : (nat -> nat -> Qc) * (nat -> Qc) :=
  fold_left (fun Ab i => fold_left (fun Ab j => elim_step n i j Ab) (seq 0 i) Ab)
            (seq 1 (n - 1)) (A, b).

Definition back_sum (n i : nat) (A : nat -> nat -> Qc) (b : nat -> Qc) : Qc :=
  fold_left (fun acc j => acc + A i j * b j) (seq (S i) (n - S i)) 0.

Definition back_subst (n : nat) (A : nat -> nat -> Qc) (b : nat -> Qc) : nat -> Qc :=
  fold_left (fun b i => updV b i ((b i - back_sum n i A b) / A i i)) (rev (seq 0 n)) b.

Definition Gauss_Elimination (A : nat -> nat -> Qc) (b : nat -> Qc) (n : nat) : nat -> Qc :=
  let '(A', b') := forward_elim n A b in back_subst n A' b'.

Section Smooth.
Variable sqrt : Qc -> Qc.
Variable pow : Qc -> Qc -> Qc.

  (** The marker: [nVertex] vertices with coordinates [Coord iVertex] and
      sensitivities [CSensitivity iVertex]. *)
Variable nVertex : nat.
Variable Coord : nat -> Qc * Qc.
Variable CSensitivity : nat -> Qc.

Fixpoint ArchLength (iVertex : nat) : Qc :=
    match iVertex with
    | O => 0
    | S i =>
        let '(x0, y0) := Coord i in
        let '(x1, y1) := Coord (S i) in
        ArchLength i + sqrt (pow (x1 - x0) (qc 2) + pow (y1 - y0) (qc 2))
    end.

Definition AL_last : Qc := ArchLength (nVertex - 1).

  (** The first vertex whose arch length exceeds [bound], else [0.0]. *)
Definition first_sens_above (bound : Qc) : Qc :=
    fold_right (fun iVertex acc =>
      if Qclt_le_dec bound (ArchLength iVertex) then CSensitivity iVertex else acc)
      0 (seq 0 nVertex).

Definition MinNegSens : Qc := first_sens_above (AL_last * qc (1#100)).
Definition MinPosSens : Qc := first_sens_above (AL_last * qc (99#100)).

  (** The sensitivities after the trailing-edge flattening: the right-hand
      side [b] of the diffusion system. *)
Definition smoothing_rhs (iVertex : nat) : Qc :=
    let s := if Qclt_le_dec (ArchLength iVertex) (AL_last * qc (1#100))
             then MinNegSens else CSensitivity iVertex in
    if Qclt_le_dec (AL_last * qc (99#100)) (ArchLength iVertex) then MinPosSens else s.

Definition epsilon : Qc := qc (5#100000).

  (** One pass of the mass-matrix loop; [BackDiff], [ForwDiff], [CentDiff]
      keep their values from the previous vertex when no branch applies. *)
Definition mass_row (st : (nat -> nat -> Qc) * (Qc * Qc * Qc)) (iVertex : nat)
      : (nat -> nat -> Qc) * (Qc * Qc * Qc) :=
    let '(A, (BD, FD, CD)) := st in
    let '(BD, FD, CD) :=
      if negb (Nat.eqb iVertex (nVertex - 1)) && negb (Nat.eqb iVertex 0)
      then (ArchLength iVertex - ArchLength (iVertex - 1), ArchLength (S iVertex) - ArchLength iVertex,
            ArchLength (S iVertex) - ArchLength (iVertex - 1))
      else (BD, FD, CD) in
    let '(BD, FD, CD) :=
      if Nat.eqb iVertex (nVertex - 1)
      then (ArchLength (nVertex - 1) - ArchLength (nVertex - 2), ArchLength 0 - ArchLength (nVertex - 1),
            ArchLength 0 - ArchLength (nVertex - 2))
      else (BD, FD, CD) in
    let '(BD, FD, CD) :=
      if Nat.eqb iVertex 0
      then (ArchLength 0 - ArchLength (nVertex - 1), ArchLength 1 - ArchLength 0, ArchLength 1 - ArchLength (nVertex - 1))
      else (BD, FD, CD) in
    let Coeff := epsilon * qc 2 / (BD * FD * CD) in
    let A := updA A iVertex iVertex (Coeff * CD) in
    let A := if negb (Nat.eqb iVertex 0) then updA A iVertex (iVertex - 1) (- Coeff * FD)
             else updA A iVertex (nVertex - 1) (- Coeff * FD) in
    let A := if negb (Nat.eqb iVertex (nVertex - 1)) then updA A iVertex (S iVertex) (- Coeff * BD)
             else updA A iVertex 0 (- Coeff * BD) in
    (A, (BD, FD, CD)).

Definition smoothing_matrix : nat -> nat -> Qc :=
    let '(A, _) := fold_left mass_row (seq 0 nVertex) (fun _ _ => 0, (0, 0, 0)) in
    fold_left (fun A iVertex => updA A iVertex iVertex (A iVertex iVertex + 1))
              (seq 0 nVertex) A.

  (** The Dirichlet pin at [iVertex = nVertex/2]; [None] when one of the
      three writes falls outside the [nVertex x nVertex] matrix. *)
Definition pin_midpoint (A : nat -> nat -> Qc) : option (nat -> nat -> Qc) :=
    let iVertex := Nat.div nVertex 2 in
    if Nat.ltb (S iVertex) nVertex && negb (Nat.eqb iVertex 0) then
      let A := updA A iVertex iVertex 1 in
      let A := updA A iVertex (S iVertex) 0 in
      Some (updA A iVertex (iVertex - 1) 0)
    else None.

  (** The new sensitivities of the marker. *)
Definition Smooth_Sensitivity_marker : option (nat -> Qc) :=
    match pin_midpoint smoothing_matrix with
    | None => None
    | Some A => Some (Gauss_Elimination A smoothing_rhs nVertex)
    end.
End Smooth.

End Smooth.

(** ** [BC_Outlet], incompressible level-set branch *)

Module Outlet.

Section Outlet.
Context {F : Type} `{DoubleOps F}.

  Local Infix "+." := fadd (at level 50, left associativity).
  Local Infix "-." := fsub (at level 50, left associativity).
  Local Infix "*." := fmul (at level 40, left associativity).
  Local Infix "/." := fdiv (at level 40, left associativity).

  (** The imposed pressure [U_outlet[0]] and [Density_Outlet] at one owned
      outlet vertex.  The local [double RatioDensity] is declared at the top
      of [BC_Outlet] and never assigned in its body; its indeterminate value
      is the argument [RatioDensity].  [Density_Outlet_prev] is the value
      [Density_Outlet] holds on entry to this vertex (indeterminate at the
      first vertex). *)
Definition outlet_levelset_state
      (Height FreeSurface_Zero epsilon Density_FreeStreamND PressFreeSurface Froude : F)
      (U_normal0 DensityInc_normal : F)
      (RatioDensity Density_Outlet_prev : F) : F * F :=
    let LevelSet := Height -. FreeSurface_Zero in
    let Density_Outlet :=
      if flt LevelSet (fopp epsilon) then Density_FreeStreamND else Density_Outlet_prev in
    let Density_Outlet :=
      if flt epsilon LevelSet then RatioDensity *. Density_FreeStreamND else Density_Outlet in
    let U_outlet0 :=
      PressFreeSurface +. Density_Outlet *. ((FreeSurface_Zero -. Height) /. (Froude *. Froude)) in
    if fle (fabs LevelSet) epsilon then (U_normal0, DensityInc_normal)
    else (U_outlet0, Density_Outlet).
End Outlet.

End Outlet.

(** ** MUSCL reconstruction of [Upwind_Residual] *)

Module Muscl.

Section Muscl.
Context {F : Type} `{DoubleOps F}.

  Local Infix "+." := fadd (at level 50, left associativity).
  Local Infix "-." := fsub (at level 50, left associativity).
  Local Infix "*." := fmul (at level 40, left associativity).

Variable nDim nVar : nat.
Variable Coord_i Coord_j : nat -> F.
  (** [Gradient[iVar][iDim]], [Limiter[iVar]] and [Psi[iVar]] of the two
      edge nodes. *)
Variable Gradient_i Gradient_j : nat -> nat -> F.
Variable Limiter_i Limiter_j : nat -> F.
Variable Psi_i Psi_j : nat -> F.

Definition Vector_i (iDim : nat) : F := of_Q (1#2) *. (Coord_j iDim -. Coord_i iDim).
Definition Vector_j (iDim : nat) : F := of_Q (1#2) *. (Coord_i iDim -. Coord_j iDim).

  (** [for (iDim = 0; iDim < nDim; iDim++) { Project_Grad_i += ..;
      Project_Grad_j += ..; }]: returns both sums and the value of the
      function-scope variable [iDim] when the loop exits. *)
Fixpoint proj_loop (fuel iDim iVar : nat) (PG_i PG_j : F) : F * F * nat :=
    match fuel with
    | O => (PG_i, PG_j, iDim)
    | S fuel' =>
        if Nat.ltb iDim nDim then
          proj_loop fuel' (S iDim) iVar (PG_i +. Vector_i iDim *. Gradient_i iVar iDim)
                    (PG_j +. Vector_j iDim *. Gradient_j iVar iDim)
        else (PG_i, PG_j, iDim)
    end.

  (** The body of the [iVar] loop: writes [Solution_i[iVar]] and
      [Solution_j[iVar]]. *)
Definition muscl_var (limiter : bool) (sol : (nat -> F) * (nat -> F)) (iVar : nat)
      : (nat -> F) * (nat -> F) :=
    let '(Solution_i, Solution_j) := sol in
    let '(Project_Grad_i, Project_Grad_j, iDim) := proj_loop nDim 0 iVar f0 f0 in
    if limiter then
      (TimeInt.upd Solution_i iVar (Psi_i iVar +. Project_Grad_i *. Limiter_i iDim),
       TimeInt.upd Solution_j iVar (Psi_j iVar +. Project_Grad_j *. Limiter_j iDim))
    else
      (TimeInt.upd Solution_i iVar (Psi_i iVar +. Project_Grad_i),
       TimeInt.upd Solution_j iVar (Psi_j iVar +. Project_Grad_j)).

  (** The reconstructed states passed to [SetAdjointVar(Solution_i,
      Solution_j)]; [sol0] is the previous content of the two member
      arrays. *)
Definition muscl_reconstruct (limiter : bool) (sol0 : (nat -> F) * (nat -> F))
      : (nat -> F) * (nat -> F) :=
    fold_left (muscl_var limiter) (seq 0 nVar) sol0.

  (** The projected gradient [sum_iDim Vector[iDim]*Gradient[iVar][iDim]]. *)
Definition Project_Grad (Vector : nat -> F) (Gradient : nat -> nat -> F) (iVar : nat) : F :=
    fold_left (fun acc iDim => acc +. Vector iDim *. Gradient iVar iDim) (seq 0 nDim) f0.
End Muscl.

End Muscl.

(** ** Viscous residual of [CAdjNSSolution] ([Viscous_Residual])

    The same trace of collaborator calls as for the convective residuals;
    the numerics output of an edge includes the hybrid RANS correction that
    the loop adds to [Residual_i] and [Residual_j] before using them. *)

Module ViscousNS.
Import Assembly.

Section ViscousNS.
Context {V B : Type}.

  (** [SetResidual(Residual_i, Residual_j, Jacobian_ii, Jacobian_ij,
      Jacobian_ji, Jacobian_jj)] of the viscous numerics. *)
Record ViscousOut := {
    vRes_i : V; vRes_j : V;
    vJ_ii : B; vJ_ij : B; vJ_ji : B; vJ_jj : B
  }.

Variable nEdge : nat.
Variable edge_node : nat -> nat * nat.
Variable viscous_numerics : nat -> ViscousOut.

Definition viscous_edge (implicit : bool) (iEdge : nat) : list (AsmOp V B) :=
    let '(iPoint, jPoint) := edge_node iEdge in
    let o := viscous_numerics iEdge in
    [SubtractRes_Visc iPoint (vRes_i o); AddRes_Visc jPoint (vRes_j o)]
    ++ (if implicit
        then [SubtractBlock iPoint iPoint (vJ_ii o); SubtractBlock iPoint jPoint (vJ_ij o);
              AddBlock jPoint iPoint (vJ_ji o); AddBlock jPoint jPoint (vJ_jj o)]
        else []).

  (** [CAdjNSSolution::Viscous_Residual]: [implicit] is
      [Kind_TimeIntScheme_AdjFlow == EULER_IMPLICIT], [beta_rk_nonzero] is
      [Get_Beta_RKStep(iRKStep) != 0]. *)
Definition Viscous_Residual (implicit beta_rk_nonzero : bool) : list (AsmOp V B) :=
    if beta_rk_nonzero || implicit
    then flat_map (viscous_edge implicit) (seq 0 nEdge)
    else [].
End ViscousNS.

Arguments ViscousOut : clear implicits.

End ViscousNS.

(** ** Dual time stepping ([SetResidual_DualTime]) *)

Module DualTime.
Import Assembly.

Inductive Unsteady_Simulation := DT_STEPPING_1ST | DT_STEPPING_2ND | OTHER_UNSTEADY.

Definition unsteady_eqb (a b : Unsteady_Simulation) : bool :=
  match a, b with
  | DT_STEPPING_1ST, DT_STEPPING_1ST | DT_STEPPING_2ND, DT_STEPPING_2ND
  | OTHER_UNSTEADY, OTHER_UNSTEADY => true
  | _, _ => false
  end.

Section DualTime.
Context {F : Type} `{DoubleOps F}.

  Local Infix "+." := fadd (at level 50, left associativity).
  Local Infix "-." := fsub (at level 50, left associativity).
  Local Infix "*." := fmul (at level 40, left associativity).
  Local Infix "/." := fdiv (at level 40, left associativity).

Variable nVar : nat.

  (** [Jacobian_i[iVar][jVar] = val] *)
Definition upd2 (A : nat -> nat -> F) (i j : nat) (v : F) : nat -> nat -> F :=
    fun r c => if Nat.eqb r i && Nat.eqb c j then v else A r c.

  (** What the loop reads at one point: the solutions at the time levels
      [n-1], [n] and [n+1] ([GetSolution_time_n1], [GetSolution_time_n],
      [GetSolution]) and the volumes at the same levels. *)
Record DTPoint := {
    U_time_nM1 : nat -> F; U_time_n : nat -> F; U_time_nP1 : nat -> F;
    Volume_nM1 : F; Volume_n : F; Volume_nP1 : F
  }.

  (** The [iVar] loop writing the member array [Residual]. *)
Definition dual_time_residual (unst : Unsteady_Simulation) (pt : DTPoint) (TimeStep : F)
      (Residual : nat -> F) : nat -> F :=
    TimeInt.for_loop 0 nVar (fun iVar R =>
      let R := if unsteady_eqb unst DT_STEPPING_1ST
               then TimeInt.upd R iVar
                      ((U_time_nP1 pt iVar *. Volume_nP1 pt -. U_time_n pt iVar *. Volume_n pt) /. TimeStep)
               else R in
      if unsteady_eqb unst DT_STEPPING_2ND
      then TimeInt.upd R iVar
             ((of_Q 3 *. U_time_nP1 pt iVar *. Volume_nP1 pt -. of_Q 4 *. U_time_n pt iVar *. Volume_n pt
               +. f1 *. U_time_nM1 pt iVar *. Volume_nM1 pt) /. (of_Q 2 *. TimeStep))
      else R) Residual.

  (** The [iVar] loop writing the member array [Jacobian_i]. *)
Definition dual_time_block (unst : Unsteady_Simulation) (pt : DTPoint) (TimeStep : F)
      (Jacobian_i : nat -> nat -> F) : nat -> nat -> F :=
    TimeInt.for_loop 0 nVar (fun iVar J =>
      let J := TimeInt.for_loop 0 nVar (fun jVar J => upd2 J iVar jVar f0) J in
      let J := if unsteady_eqb unst DT_STEPPING_1ST
               then upd2 J iVar iVar (Volume_nP1 pt /. TimeStep) else J in
      if unsteady_eqb unst DT_STEPPING_2ND
      then upd2 J iVar iVar ((Volume_nP1 pt *. of_Q 3) /. (of_Q 2 *. TimeStep))
      else J) Jacobian_i.

  (** [CAdjEulerSolution::SetResidual_DualTime]: the calls
      [node[iPoint]->AddRes_Conv(Residual)] and [Jacobian.AddBlock(iPoint,
      iPoint, Jacobian_i)] in order, and the final content of the member
      arrays [Residual] and [Jacobian_i] (whose entry values are [Res0] and
      [Ji0]). [implicit] is [Kind_TimeIntScheme_Flow == EULER_IMPLICIT];
      [FlowEq] and [AdjEq] compare [RunTime_EqSystem]. *)
Definition SetResidual_DualTime (nPointDomain : nat) (pt : nat -> DTPoint) (TimeStep : F)
      (unst : Unsteady_Simulation) (implicit incompressible FlowEq AdjEq : bool)
      (Res0 : nat -> F) (Ji0 : nat -> nat -> F)
      : list (AsmOp (nat -> F) (nat -> nat -> F)) * (nat -> F) * (nat -> nat -> F) :=
    TimeInt.for_loop 0 nPointDomain (fun iPoint acc =>
      let '(ops, Res, Ji) := acc in
      let Res := dual_time_residual unst (pt iPoint) TimeStep Res in
      let Res := if (incompressible && FlowEq) || (incompressible && AdjEq)
                 then TimeInt.upd Res 0 f0 else Res in
      let ops := ops ++ [AddRes_Conv iPoint Res] in
      if implicit then
        let Ji := dual_time_block unst (pt iPoint) TimeStep Ji in
        let Ji := if (incompressible && FlowEq) || (incompressible && AdjEq)
                  then upd2 Ji 0 0 f0 else Ji in
        (ops ++ [AddBlock iPoint iPoint Ji], Res, Ji)
      else (ops, Res, Ji)) ([], Res0, Ji0).
End DualTime.

Arguments DTPoint F : clear implicits.

End DualTime.

(** ** Projection of the objective onto the wall forces ([SetForceProj_Vector])

    The [NO_MPI] build: [C_d], [C_l], [C_t] and [C_q] are the flow solver's
    totals. [cos], [sin] and [PI_NUMBER] are parameters. *)

Module ForceProj.
Import Restart.

Definition not_2D_messages : list string :=
  ["This functional is not possible in 2D!!"; "Press any key to exit..."]%string.

Section ForceProj.
Context {F : Type} `{DoubleOps F}.

  Local Infix "+." := fadd (at level 50, left associativity).
  Local Infix "-." := fsub (at level 50, left associativity).
  Local Infix "*." := fmul (at level 40, left associativity).
  Local Infix "/." := fdiv (at level 40, left associativity).

Variables (cos sin : F -> F) (PI_NUMBER : F).
Variable nDim : nat.

  (** The configuration values the routine reads. *)
Record FPConfig := {
    AoA : F; AoS : F;
    RefAreaCoeff : F; RefLengthMoment : F; RefOriginMoment : nat -> F;
    Rotating_Frame : bool; RotAxisOrigin : nat -> F; RotRadius : F; OmegaMag : F;
    Density_FreeStreamND : F; Velocity_FreeStreamND : nat -> F;
    CteViscDrag : F; WeightCd : F
  }.

  (** The quantities computed before the marker loop. *)
Record FPCoeffs := {
    Alpha : F; Beta : F; C_p : F; invCD : F; CLCD2 : F; invCQ : F; CTRCQ2 : F;
    RefLength : F; x_origin : F; y_origin : F; z_origin : F; WDrag : F
  }.

Definition fp_coeffs (cfg : FPConfig) (C_d C_l C_t C_q : F) : FPCoeffs :=
    let Alpha := (AoA cfg *. PI_NUMBER) /. of_Q 180 in
    let Beta := (AoS cfg *. PI_NUMBER) /. of_Q 180 in
    let '(RefOriginMoment, RefLengthMoment, RefAreaCoeff, RefVel2, RefDensity) :=
      if Rotating_Frame cfg then
        let RLM := RotRadius cfg in
        (RotAxisOrigin cfg, RLM, PI_NUMBER *. RLM *. RLM,
         (OmegaMag cfg *. RLM) *. (OmegaMag cfg *. RLM), Density_FreeStreamND cfg)
      else
        (RefOriginMoment cfg, RefLengthMoment cfg, RefAreaCoeff cfg,
         fold_left (fun acc iDim => acc +. Velocity_FreeStreamND cfg iDim *. Velocity_FreeStreamND cfg iDim)
                   (seq 0 nDim) f0,
         Density_FreeStreamND cfg) in
    let C_d := C_d +. CteViscDrag cfg in
    let C_p := f1 /. (of_Q (1#2) *. RefDensity *. RefAreaCoeff *. RefVel2) in
    {| Alpha := Alpha; Beta := Beta; C_p := C_p; invCD := f1 /. C_d; CLCD2 := C_l /. (C_d *. C_d);
       invCQ := f1 /. C_q; CTRCQ2 := C_t /. (RefLengthMoment *. C_q *. C_q);
       RefLength := RefLengthMoment;
       x_origin := RefOriginMoment 0; y_origin := RefOriginMoment 1; z_origin := RefOriginMoment 2;
       WDrag := WeightCd cfg |}.

Definition set2 (buf : nat -> F) (a b : F) : nat -> F :=
    TimeInt.upd (TimeInt.upd buf 0 a) 1 b.
Definition set3 (buf : nat -> F) (a b c : F) : nat -> F :=
    TimeInt.upd (set2 buf a b) 2 c.

  (** [if (nDim == 2) { [0] = a2; [1] = b2; }
       if (nDim == 3) { [0] = a3; [1] = b3; [2] = c3; }] *)
Definition by_dim (buf : nat -> F) (a2 b2 a3 b3 c3 : F) : nat -> F :=
    let buf := if Nat.eqb nDim 2 then set2 buf a2 b2 else buf in
    if Nat.eqb nDim 3 then set3 buf a3 b3 c3 else buf.

  (** The same for a functional with no 2D version: [None] is the
      [exit(1)] of the 2D branch. *)
Definition only_3D (buf : nat -> F) (a3 b3 c3 : F) : option (nat -> F) :=
    if Nat.eqb nDim 2 then None
    else Some (if Nat.eqb nDim 3 then set3 buf a3 b3 c3 else buf).

  (** The [switch (config->GetKind_ObjFunc())] at one vertex: the new
      content of the buffer [ForceProj_Vector]. *)
Definition force_proj_case (k : Kind_ObjFunc) (c : FPCoeffs) (x y z : F) (Normal : nat -> F)
      (buf : nat -> F) : option (nat -> F) :=
    let Cp := C_p c in
    let cA := cos (Alpha c) in let sA := sin (Alpha c) in
    let cB := cos (Beta c) in let sB := sin (Beta c) in
    let L := RefLength c in
    let xo := x_origin c in let yo := y_origin c in let zo := z_origin c in
    match k with
    | DRAG_COEFFICIENT =>
        Some (by_dim buf (Cp *. cA) (Cp *. sA) (Cp *. cA *. cB) (Cp *. sB) (Cp *. sA *. cB))
    | LIFT_COEFFICIENT =>
        Some (by_dim buf (fopp Cp *. sA) (Cp *. cA) (fopp Cp *. sA) f0 (Cp *. cA))
    | SIDEFORCE_COEFFICIENT =>
        only_3D buf (fopp Cp *. sB *. cA) (Cp *. cB) (fopp Cp *. sB *. sA)
    | PRESSURE_COEFFICIENT =>
        let Area2 := fsqrt (Normal 0 *. Normal 0 +. Normal 1 *. Normal 1) in
        let Area3 := fsqrt (Normal 0 *. Normal 0 +. Normal 1 *. Normal 1 +. Normal 2 *. Normal 2) in
        Some (by_dim buf (fopp Cp *. Normal 0 /. Area2) (fopp Cp *. Normal 1 /. Area2)
                    (fopp Cp *. Normal 0 /. Area3) (fopp Cp *. Normal 1 /. Area3)
                    (fopp Cp *. Normal 2 /. Area3))
    | MOMENT_X_COEFFICIENT =>
        only_3D buf f0 (fopp Cp *. (z -. zo) /. L) (Cp *. (y -. yo) /. L)
    | MOMENT_Y_COEFFICIENT =>
        only_3D buf (fopp Cp *. (z -. zo) /. L) f0 (Cp *. (x -. xo) /. L)
    | MOMENT_Z_COEFFICIENT =>
        Some (by_dim buf (fopp Cp *. (y -. yo) /. L) (Cp *. (x -. xo) /. L)
                    (fopp Cp *. (y -. yo) /. L) (Cp *. (x -. xo) /. L) f0)
    | EFFICIENCY =>
        Some (by_dim buf (fopp Cp *. (invCD c *. sA +. CLCD2 c *. cA))
                    (Cp *. (invCD c *. cA -. CLCD2 c *. sA))
                    (fopp Cp *. (invCD c *. sA +. CLCD2 c *. cA *. cB))
                    (fopp Cp *. CLCD2 c *. sB)
                    (Cp *. (invCD c *. cA -. CLCD2 c *. sA *. cB)))
    | EQUIVALENT_AREA | NEARFIELD_PRESSURE =>
        let W := WDrag c in
        Some (by_dim buf (Cp *. cA *. W) (Cp *. sA *. W)
                    (Cp *. cA *. cB *. W) (Cp *. sB *. W) (Cp *. sA *. cB *. W))
    | FORCE_X_COEFFICIENT => Some (by_dim buf Cp f0 Cp f0 f0)
    | FORCE_Y_COEFFICIENT => Some (by_dim buf f0 Cp f0 Cp f0)
    | FORCE_Z_COEFFICIENT => only_3D buf f0 f0 Cp
    | THRUST_COEFFICIENT => only_3D buf f0 f0 Cp
    | TORQUE_COEFFICIENT =>
        Some (by_dim buf (Cp *. (y -. yo) /. L) (fopp Cp *. (x -. xo) /. L)
                    (Cp *. (y -. yo) /. L) (fopp Cp *. (x -. xo) /. L) f0)
    | FIGURE_OF_MERIT =>
        only_3D buf (fopp Cp *. invCQ c) (fopp Cp *. CTRCQ2 c *. (z -. zo)) (Cp *. CTRCQ2 c *. (y -. yo))
    | FREESURFACE | NOISE => Some (by_dim buf f0 f0 f0 f0 f0)
    end.

  (** A marker: its boundary kind is [SEND_RECEIVE] or not, its monitoring
      flag, and its vertices as (node, normal). *)
Record FPMarker := {
    Send_Receive : bool;
    Monitoring : bool;
    fp_vertex : list (nat * (nat -> F))
  }.

Inductive FPOutcome :=
  | FPExit (msgs : list string) (code : nat)
  | FPDone (ForceProj : nat -> nat -> F).

  (** One vertex: [x], [y] and (in 3D) [z] from the node coordinates, the
      switch, then [node[iPoint]->SetForceProj_Vector(ForceProj_Vector)],
      which copies the buffer. [z] keeps its value from the previous vertex
      (initially [0.0]) when [nDim != 3]. *)
Definition fp_vertex_step (k : Kind_ObjFunc) (c : FPCoeffs) (Coord : nat -> nat -> F)
      (acc : option ((nat -> F) * F * (nat -> nat -> F))) (v : nat * (nat -> F))
      : option ((nat -> F) * F * (nat -> nat -> F)) :=
    match acc with
    | None => None
    | Some (buf, z, FP) =>
        let '(iPoint, Normal) := v in
        let x := Coord iPoint 0 in
        let y := Coord iPoint 1 in
        let z := if Nat.eqb nDim 3 then Coord iPoint 2 else z in
        match force_proj_case k c x y z Normal buf with
        | None => None
        | Some buf => Some (buf, z, TimeInt.upd FP iPoint buf)
        end
    end.

  (** [CAdjEulerSolution::SetForceProj_Vector]: [buf0] is the content of
      the freshly allocated buffer, [FP0] the projection vectors stored in
      the nodes before the call. *)
Definition SetForceProj_Vector (k : Kind_ObjFunc) (cfg : FPConfig) (C_d C_l C_t C_q : F)
      (markers : list FPMarker) (Coord : nat -> nat -> F) (buf0 : nat -> F)
      (FP0 : nat -> nat -> F) : FPOutcome :=
    let c := fp_coeffs cfg C_d C_l C_t C_q in
    let res :=
      fold_left (fun acc m =>
        if negb (Send_Receive m) && Monitoring m
        then fold_left (fp_vertex_step k c Coord) (fp_vertex m) acc
        else acc) markers (Some (buf0, f0, FP0)) in
    match res with
    | None => FPExit not_2D_messages 1
    | Some (_, _, FP) => FPDone FP
    end.
End ForceProj.

Arguments FPConfig F : clear implicits.
Arguments FPMarker F : clear implicits.
Arguments FPOutcome F : clear implicits.

End ForceProj.

(** ** Near-field boundary ([BC_NearField_Boundary], [NO_MPI] build) *)

Module NearField.

Section NearField.
Context {F : Type} `{DoubleOps F}.

  Local Infix "+." := fadd (at level 50, left associativity).
  Local Infix "-." := fsub (at level 50, left associativity).
  Local Infix "*." := fmul (at level 40, left associativity).

Variable nDim : nat.

  (** The pair of adjoint states that the vertex of [iPoint] with donor
      [jPoint] passes to [solver->SetAdjointVar]; [Normal] is the vertex
      normal before the sign flip, [Jump] the [IntBoundary_Jump] of
      [iPoint], [prev] the pair the numerics held before. [ea_or_nfp] is
      [Kind_ObjFunc] equal to [EQUIVALENT_AREA] or [NEARFIELD_PRESSURE]. *)
Definition nearfield_adjoint_var (ea_or_nfp : bool) (iPoint jPoint : nat) (Normal : nat -> F)
      (Solution : nat -> nat -> F) (Jump : nat -> F) (prev : (nat -> F) * (nat -> F))
      : (nat -> F) * (nat -> F) :=
    let Normal := fun iDim => fopp (Normal iDim) in
    if ea_or_nfp then
      let '(Pin, Pout) := if flt (Normal (nDim - 1)) f0 then (iPoint, jPoint) else (jPoint, iPoint) in
      let Psi_out := Solution Pout in
      let Psi_in := Solution Pin in
      let MeanPsi := fun iVar => of_Q (1#2) *. (Psi_out iVar +. Psi_in iVar) in
      let set := if Nat.eqb iPoint Pin
                 then (Psi_in, fun iVar => of_Q 2 *. MeanPsi iVar -. Psi_in iVar -. Jump iVar)
                 else prev in
      if Nat.eqb iPoint Pout
      then (Psi_out, fun iVar => of_Q 2 *. MeanPsi iVar -. Psi_out iVar +. Jump iVar)
      else set
    else (Solution iPoint, Solution jPoint).
End NearField.

End NearField.

(** ** Slip walls: [BC_Sym_Plane] and [BC_Euler_Wall]

    The boundary condition both routines impose on the local copy [Psi] of
    the adjoint solution at an owned vertex (the residual and Jacobian
    formulas that follow are not part of this model), and the discrete
    branch of [BC_Euler_Wall]. *)

Module Walls.

Section Walls.
Context {F : Type} `{DoubleOps F}.

  Local Infix "+." := fadd (at level 50, left associativity).
  Local Infix "-." := fsub (at level 50, left associativity).
  Local Infix "*." := fmul (at level 40, left associativity).
  Local Infix "/." := fdiv (at level 40, left associativity).

Variables nDim nVar : nat.
Variable Gamma_Minus_One : F.

  (** [s = 0.0; for (iDim..) s += a[iDim]*b[iDim];] *)
Definition dot (a b : nat -> F) : F :=
    fold_left (fun acc iDim => acc +. a iDim *. b iDim) (seq 0 nDim) f0.

  (** [Area = sqrt(sum Normal[iDim]*Normal[iDim])] *)
Definition wall_area (Normal : nat -> F) : F := fsqrt (dot Normal Normal).

  (** [UnitaryNormal[iDim] = -Normal[iDim]/Area] *)
Definition unitary_normal (Normal : nat -> F) : nat -> F :=
    fun iDim => fopp (Normal iDim) /. wall_area Normal.

  (** [for (iDim..) Psi[iDim+1] -= a*UnitaryNormal[iDim];] *)
Definition remove_normal (Psi : nat -> F) (a : F) (n : nat -> F) : nat -> F :=
    fold_left (fun P iDim => TimeInt.upd P (S iDim) (P (S iDim) -. a *. n iDim)) (seq 0 nDim) Psi.

  (** [phin]: the normal component of the adjoint velocity, with the extra
      terms of the compressible branch for a rotating frame
      ([ProjRotVel = -RotFlux/Area]) and for grid movement
      ([ProjGridVel = GridVel . UnitaryNormal]). The loop of the source
      accumulates [ProjVel], [bcn], [vn] and [phin] independently; only
      [phin] is kept here. *)
Definition wall_phin (incompressible rotating_frame grid_movement : bool)
      (Psi Normal GridVel : nat -> F) (RotFlux : F) : F :=
    let n := unitary_normal Normal in
    let phin := dot (fun iDim => Psi (S iDim)) n in
    if incompressible then phin
    else
      let phin := if rotating_frame
                  then phin -. Psi (nVar - 1) *. (fopp RotFlux /. wall_area Normal) else phin in
      if grid_movement then phin -. Psi (nVar - 1) *. dot GridVel n else phin.

  (** [BC_Sym_Plane]: the adjoint state [Psi] (a copy of the node's
      solution) after [Psi[iDim+1] -= phin*UnitaryNormal[iDim]]. *)
Definition sym_plane_psi (incompressible rotating_frame grid_movement : bool)
      (Psi Normal GridVel : nat -> F) (RotFlux : F) : nat -> F :=
    remove_normal Psi (wall_phin incompressible rotating_frame grid_movement Psi Normal GridVel RotFlux)
      (unitary_normal Normal).

  (** [BC_Euler_Wall], incompressible or continuous compressible: [Psi]
      after [Psi[iDim+1] -= (phin - bcn)*UnitaryNormal[iDim]], with
      [bcn = d . UnitaryNormal]. [d] is [None] while it is the [NULL] it was
      initialised to (no [FORCE_OBJ] objective): reading [d[iDim]] is then
      undefined ([None]) unless the loop is empty. *)
Definition euler_wall_psi (incompressible rotating_frame grid_movement : bool)
      (d : option (nat -> F)) (Psi Normal GridVel : nat -> F) (RotFlux : F) : option (nat -> F) :=
    let n := unitary_normal Normal in
    match d with
    | None => if Nat.eqb nDim 0 then Some Psi else None
    | Some d =>
        let bcn := dot d n in
        Some (remove_normal Psi
                (wall_phin incompressible rotating_frame grid_movement Psi Normal GridVel RotFlux -. bcn) n)
    end.

  (** [dPressure], the pressure sensitivity of the discrete branch; [dP0]
      is the previous content of the buffer. *)
Definition dPressure (U : nat -> F) (dP0 : nat -> F) : nat -> F :=
    let dP := TimeInt.upd dP0 0 f0 in
    let dP := fold_left (fun dP iDim =>
                let dP := TimeInt.upd dP 0 (dP 0 +. U (S iDim) *. U (S iDim)) in
                TimeInt.upd dP (S iDim) (fopp Gamma_Minus_One *. U (S iDim) /. U 0))
                (seq 0 nDim) dP in
    let dP := TimeInt.upd dP 0 (dP 0 *. (Gamma_Minus_One /. (of_Q 2 *. U 0 *. U 0))) in
    TimeInt.upd dP (nVar - 1) Gamma_Minus_One.

  (** [BC_Euler_Wall], compressible discrete branch at one owned vertex:
      the [ObjFuncSource] and [Jacobian_i] passed to [SetObjFuncSource] and
      [Jacobian.AddBlock(iPoint, iPoint, ..)]; [d] is the node's force
      projection vector, read only for a [FORCE_OBJ] objective; [OFS0],
      [Ji0] the previous content of the two buffers. *)
Definition euler_wall_discrete (force_obj : bool) (d U Normal dP0 OFS0 : nat -> F)
      (Ji0 : nat -> nat -> F) : (nat -> F) * (nat -> nat -> F) :=
    let Area := wall_area Normal in
    let n := unitary_normal Normal in
    let dP := dPressure U dP0 in
    let '(Ji, OFS) :=
      TimeInt.for_loop 0 nVar (fun iVar acc =>
        let '(Ji, OFS) := acc in
        (TimeInt.for_loop 0 nVar (fun jVar Ji => DualTime.upd2 Ji iVar jVar f0) Ji,
         TimeInt.upd OFS iVar f0)) (Ji0, OFS0) in
    let Ji := TimeInt.for_loop 0 nVar (fun iVar Ji => DualTime.upd2 Ji iVar 0 f0) Ji in
    let Ji := TimeInt.for_loop 0 nVar (fun iVar Ji =>
                TimeInt.for_loop 0 nDim (fun jDim Ji =>
                  DualTime.upd2 Ji iVar (S jDim) (dP iVar *. n jDim *. Area)) Ji) Ji in
    let Ji := TimeInt.for_loop 0 nVar (fun iVar Ji => DualTime.upd2 Ji iVar (nVar - 1) f0) Ji in
    let OFS :=
      if force_obj then
        let bcn := fold_left (fun acc iDim => acc +. d iDim *. n iDim *. Area) (seq 0 nDim) f0 in
        TimeInt.for_loop 0 nVar (fun iVar OFS => TimeInt.upd OFS iVar (dP iVar *. bcn)) OFS
      else OFS in
    (OFS, Ji).
End Walls.

End Walls.

(** ** Undivided Laplacian of the adjoint solution ([SetUndivided_Laplacian])

    Up to the final [SetUndivided_Laplacian_MPI] exchange. [structured] is
    the [STRUCTURED_GRID] build. The node methods [SetUnd_LaplZero],
    [SubtractUnd_Lapl] and [AddUnd_Lapl] (of the variable class, not in
    these sources) set, decrease and increase the [nVar] components. *)

Module Laplacian.

Inductive Marker_Boundary :=
| SEND_RECEIVE | INTERFACE_BOUNDARY | NEARFIELD_BOUNDARY | PERIODIC_BOUNDARY | OTHER_BOUNDARY.

Definition mirror_marker (b : Marker_Boundary) : bool :=
  match b with
  | SEND_RECEIVE | INTERFACE_BOUNDARY | NEARFIELD_BOUNDARY | PERIODIC_BOUNDARY => false
  | OTHER_BOUNDARY => true
  end.

Section Laplacian.
Context {F : Type} `{DoubleOps F}.

  Local Infix "-." := fsub (at level 50, left associativity).
  Local Infix "*." := fmul (at level 40, left associativity).

Variable nVar : nat.

Record LGeometry := {
    nPointDomain : nat;
    Domain : nat -> bool;               (* [GetDomain()] *)
    PhysicalBoundary : nat -> bool;     (* [GetPhysicalBoundary()] *)
    edges : list (nat * nat);           (* [(GetNode(0), GetNode(1))] *)
    (** markers with their vertices as (node, [GetNormal_Neighbor()]) *)
    markers : list (Marker_Boundary * list (nat * nat))
  }.

Definition SetUnd_LaplZero (L : nat -> nat -> F) (p : nat) : nat -> nat -> F :=
    TimeInt.upd L p (fun iVar => if Nat.ltb iVar nVar then f0 else L p iVar).
Definition SubtractUnd_Lapl (L : nat -> nat -> F) (p : nat) (Diff : nat -> F) : nat -> nat -> F :=
    TimeInt.upd L p (fun iVar => if Nat.ltb iVar nVar then L p iVar -. Diff iVar else L p iVar).
Definition AddUnd_Lapl (L : nat -> nat -> F) (p : nat) (Diff : nat -> F) : nat -> nat -> F :=
    TimeInt.upd L p (fun iVar => if Nat.ltb iVar nVar then fadd (L p iVar) (Diff iVar) else L p iVar).

  (** One edge of the edge loop. *)
Definition lapl_edge (structured : bool) (geo : LGeometry) (Sol : nat -> nat -> F)
      (L : nat -> nat -> F) (e : nat * nat) : nat -> nat -> F :=
    let '(iPoint, jPoint) := e in
    let Diff := fun iVar => Sol iPoint iVar -. Sol jPoint iVar in
    if structured then
      let L := if Domain geo iPoint then SubtractUnd_Lapl L iPoint Diff else L in
      if Domain geo jPoint then AddUnd_Lapl L jPoint Diff else L
    else
      let boundary_i := PhysicalBoundary geo iPoint in
      let boundary_j := PhysicalBoundary geo jPoint in
      let L := if (negb boundary_i && negb boundary_j) || (boundary_i && boundary_j) then
                 let L := if Domain geo iPoint then SubtractUnd_Lapl L iPoint Diff else L in
                 if Domain geo jPoint then AddUnd_Lapl L jPoint Diff else L
               else L in
      let L := if negb boundary_i && boundary_j then
                 if Domain geo iPoint then SubtractUnd_Lapl L iPoint Diff else L
               else L in
      if boundary_i && negb boundary_j then
        if Domain geo jPoint then AddUnd_Lapl L jPoint Diff else L
      else L.

  (** One vertex of the mirror loop of the structured build. *)
Definition lapl_mirror (Sol : nat -> nat -> F) (geo : LGeometry) (L : nat -> nat -> F)
      (v : nat * nat) : nat -> nat -> F :=
    let '(iPoint, Point_Normal) := v in
    if Domain geo iPoint then
      let Psi_mirror := fun iVar => of_Q 2 *. Sol iPoint iVar -. Sol Point_Normal iVar in
      let Diff := fun iVar => Sol iPoint iVar -. Psi_mirror iVar in
      SubtractUnd_Lapl L iPoint Diff
    else L.

  (** [CAdjEulerSolution::SetUndivided_Laplacian]: [Sol] the adjoint
      solution, [L0] the undivided Laplacians stored before the call. *)
Definition SetUndivided_Laplacian (structured : bool) (geo : LGeometry) (Sol : nat -> nat -> F)
      (L0 : nat -> nat -> F) : nat -> nat -> F :=
    let L := TimeInt.for_loop 0 (nPointDomain geo) (fun iPoint L => SetUnd_LaplZero L iPoint) L0 in
    let L := fold_left (lapl_edge structured geo Sol) (edges geo) L in
    if structured then
      fold_left (fun L m =>
        if mirror_marker (fst m) then fold_left (lapl_mirror Sol geo) (snd m) L else L)
        (markers geo) L
    else L.
End Laplacian.

End Laplacian.

(** ** Exact arithmetic

    The canonical rationals as doubles, to run the models whose properties
    hold in exact arithmetic. [fsqrt] takes the integer square roots of the
    numerator and the denominator: exact on squares of rationals. [fpow]
    raises to the integer part of the exponent. *)

Module QcDouble.
Import Qcanon.

Definition Qc_ltb (a b : Qc) : bool := if Qclt_le_dec a b then true else false.

Definition Qc_sqrt (x : Qc) : Qc :=
  Q2Qc (Z.sqrt (Qnum x) # Z.to_pos (Z.sqrt (Zpos (Qden x)))).

#[export] Instance Qc_DoubleOps : DoubleOps Qc := {
  f0 := Q2Qc 0; f1 := Q2Qc 1; fadd := Qcplus; fsub := Qcminus; fmul := Qcmult;
  fdiv := Qcdiv; fopp := Qcopp; fsqrt := Qc_sqrt;
  fabs := fun x => if Qc_ltb x (Q2Qc 0) then Qcopp x else x;
  fpow := fun x y => Qcpower x (Z.to_nat (Qnum y / Zpos (Qden y)));
  flt := Qc_ltb; fle := fun a b => negb (Qc_ltb b a); of_Q := Q2Qc
}.

End QcDouble.

(** ** Row sums, for the smoothing matrix *)

Module SmoothRows.
Import Qcanon.
Local Open Scope Qc_scope.

(** [sum_{c < n} A[i][c]] *)
Definition row_sum (A : nat -> nat -> Qc) (n i : nat) : Qc :=
  fold_left (fun acc c => acc + A i c) (seq 0 n) 0.

End SmoothRows.

(** * Concrete inputs

    Small instances of the models above, with [Z] standing for [double],
    used by the witnesses and counterexamples below. *)

Module Examples.
Import Assembly.

(** One edge [0 -> 1] for the assembly traces. *)
Definition ex_edges (_ : nat) : nat * nat := (0, 1).
Definition ex_cen (_ : nat) : CenteredOut Z Z :=
  {| Res_Conv_i := 3; Res_Visc_i := 0; Res_Conv_j := 5; Res_Visc_j := 0;
     cJ_ii := 1; cJ_ij := 2; cJ_ji := 3; cJ_jj := 4 |}%Z.
Definition ex_up (_ : nat) : UpwindOut Z Z :=
  {| Residual_i := 3; Residual_j := 5; uJ_ii := 1; uJ_ij := 2; uJ_ji := 3; uJ_jj := 4;
     Jacobian_i := 7; Jacobian_j := 8 |}%Z.
Definition ex_cfg_cont : AsmConfig :=
  {| implicit := true; beta_rk_nonzero := false; upwind_2nd := false; mesh0 := true;
     discrete := false |}.
Definition ex_cfg_disc : AsmConfig :=
  {| implicit := true; beta_rk_nonzero := false; upwind_2nd := false; mesh0 := true;
     discrete := true |}.

(** One owned point and one halo point with one variable each, both with
    convective residual [1] and internal-boundary jump [2]. *)
Definition ex_node : TimeInt.NodeVar Z :=
  {| TimeInt.Solution := fun _ => 0; TimeInt.Solution_Old := fun _ => 0;
     TimeInt.ResConv := fun _ => 1; TimeInt.ResVisc := fun _ => 0;
     TimeInt.ResSour := fun _ => 0; TimeInt.Res_TruncError := fun _ => 0;
     TimeInt.Residual := fun _ => 0; TimeInt.ObjFuncSource := fun _ => 3;
     TimeInt.IntBoundary_Jump := fun _ => 2 |}%Z.
Definition ex_geo : TimeInt.Geometry Z :=
  {| TimeInt.nPoint := 2; TimeInt.nPointDomain := 1; TimeInt.Volume := fun _ => 1%Z;
     TimeInt.Domain := fun p => Nat.eqb p 0 |}.
Definition ex_state : TimeInt.State Z :=
  {| TimeInt.node := fun _ => ex_node; TimeInt.Jacobian := fun _ _ => 0%Z;
     TimeInt.rhs := fun _ => 0%Z; TimeInt.xsol := fun _ => 0%Z |}.
(** A linear solver returning its right-hand side. *)
Definition ex_solve (_ : TimeInt.Strategy) (_ : nat -> nat -> Z) (b _ : nat -> Z) : nat -> Z := b.

(** A restart file with a header and one line [index, 1, 2, 3, 4] for the
    single owned point of global index [0]. *)
Definition ex_rgeo : Restart.RestartGeometry :=
  {| Restart.nPoint := 1; Restart.nPointDomain := 1; Restart.Global_nPointDomain := 1;
     Restart.GlobalIndex := fun p => p |}.
Definition ex_open (_ : string) : option (list (list Z)) :=
  Some [[0%Z]; [0%Z; 1%Z; 2%Z; 3%Z; 4%Z]].

End Examples.

(** ** Node records that differ at most in their solution *)

Module NodeVarRel.
Import TimeInt.

Section Rel.
Context {F : Type}.

  (** Two node records agree on every field other than the solution. *)
Definition same_but_solution (a b : NodeVar F) : Prop :=
  Solution_Old a = Solution_Old b /\ ResConv a = ResConv b /\ ResVisc a = ResVisc b /\
  ResSour a = ResSour b /\ Res_TruncError a = Res_TruncError b /\ Residual a = Residual b /\
  ObjFuncSource a = ObjFuncSource b /\ IntBoundary_Jump a = IntBoundary_Jump b.

End Rel.
End NodeVarRel.

(** ** More concrete inputs

    A restart geometry with one halo point, a force-projection
    configuration, a wall normal of length 5, and a Laplacian geometry
    with one halo point. *)

Definition ex_rgeo_halo : Restart.RestartGeometry :=
  {| Restart.nPoint := 3; Restart.nPointDomain := 2; Restart.Global_nPointDomain := 2;
     Restart.GlobalIndex := fun p => p |}.

Module FPExamples.
Import ForceProj.
Local Open Scope Z_scope.
Definition ex_fp_cfg : FPConfig Z :=
  {| AoA := 0; AoS := 0; RefAreaCoeff := 1; RefLengthMoment := 1; RefOriginMoment := fun _ => 0;
     Rotating_Frame := false; RotAxisOrigin := fun _ => 0; RotRadius := 1; OmegaMag := 1;
     Density_FreeStreamND := 1; Velocity_FreeStreamND := fun _ => 1; CteViscDrag := 0;
     WeightCd := 2 |}.
Definition ex_fp_markers : list (FPMarker Z) :=
  [ {| Send_Receive := false; Monitoring := true; fp_vertex := [(0%nat, fun _ => 1)] |};
    {| Send_Receive := true; Monitoring := true; fp_vertex := [(1%nat, fun _ => 1)] |} ].
Definition ex_fp_coord (p d : nat) : Z := Z.of_nat (p + d).
End FPExamples.

Module WallExamples.
Import Qcanon.
Definition ex_wall_normal (i : nat) : Qc :=
  match i with 0 => Q2Qc 3 | 1 => Q2Qc 4 | _ => Q2Qc 0 end.
Definition ex_wall_psi (i : nat) : Qc := Q2Qc (Z.of_nat i # 1).
End WallExamples.

Module LaplExamples.
Import Laplacian.
Definition ex_lgeo : LGeometry :=
  {| nPointDomain := 2; Domain := fun p => p <? 2; PhysicalBoundary := fun p => p =? 0;
     edges := [(0, 1); (1, 2)]; markers := [(OTHER_BOUNDARY, [(0, 1)])] |}.
Definition ex_lsol (p v : nat) : Z := Z.of_nat (p * 3 + v).
End LaplExamples.

(** * Properties *)

(** ** Edge-wise assembly *)

Module AssemblyFacts.
Import Assembly Examples.

Section Facts.
Context {V B : Type}.
Variable nEdge : nat.
Variable edge_node : nat -> nat * nat.
Variable cen : nat -> CenteredOut V B.
Variable up : nat -> UpwindOut V B.

Lemma in_centered (cfg : AsmConfig) (e : nat) (op : AsmOp V B) :
    e < nEdge -> In op (centered_edge edge_node cen cfg e) ->
    In op (Centered_Residual nEdge edge_node cen cfg).
  Proof.
    intros He Hop. unfold Centered_Residual. apply in_flat_map.
    exists e. split; [apply in_seq; lia | exact Hop].
  Qed.

Lemma in_upwind (cfg : AsmConfig) (e : nat) (op : AsmOp V B) :
    e < nEdge -> In op (upwind_edge edge_node up cfg e) ->
    In op (Upwind_Residual nEdge edge_node up cfg).
  Proof.
    intros He Hop. unfold Upwind_Residual. apply in_flat_map.
    exists e. split; [apply in_seq; lia | exact Hop].
  Qed.

Lemma centered_no_add (cfg : AsmConfig) (op : AsmOp V B) :
    In op (Centered_Residual nEdge edge_node cen cfg) -> is_add op = false.
  Proof.
    unfold Centered_Residual. rewrite in_flat_map. intros [x [_ Hx]].
    unfold centered_edge in Hx. destruct (edge_node x) as [i j].
    destruct (beta_rk_nonzero cfg), (implicit cfg); simpl in Hx;
      repeat (destruct Hx as [Hx | Hx]; [subst; reflexivity |]); contradiction.
  Qed.

Lemma upwind_continuous_no_add (cfg : AsmConfig) (op : AsmOp V B) :
    discrete cfg = false ->
    In op (Upwind_Residual nEdge edge_node up cfg) -> is_add op = false.
  Proof.
    intros Hd. unfold Upwind_Residual. rewrite in_flat_map. intros [x [_ Hx]].
    unfold upwind_edge in Hx. destruct (edge_node x) as [i j]. rewrite Hd in Hx.
    destruct (implicit cfg); simpl in Hx;
      repeat (destruct Hx as [Hx | Hx]; [subst; reflexivity |]); contradiction.
  Qed.

Lemma upwind_discrete_no_res (cfg : AsmConfig) (op : AsmOp V B) :
    discrete cfg = true ->
    In op (Upwind_Residual nEdge edge_node up cfg) -> is_res_op op = false.
  Proof.
    intros Hd. unfold Upwind_Residual. rewrite in_flat_map. intros [x [_ Hx]].
    unfold upwind_edge in Hx. destruct (edge_node x) as [i j]. rewrite Hd in Hx.
    destruct (upwind_2nd cfg && mesh0 cfg); simpl in Hx;
      repeat (destruct Hx as [Hx | Hx]; [subst; reflexivity |]); contradiction.
  Qed.
End Facts.

(** C1 (amended). For every edge [iEdge < nEdge] with nodes [(i, j)]:
    - centered scheme: both [i] and [j] receive a subtracted convective
      residual (the numerics return the signed contribution of each node);
      when implicit the four blocks ii/ij/ji/jj are subtracted; no addition
      of any kind occurs;
    - upwind scheme, continuous adjoint: the same, and no addition occurs;
    - upwind scheme, discrete adjoint, first order: no residual is
      accumulated and the blocks are [AddBlock(i,i,Jacobian_i)],
      [SubtractBlock(i,j,Jacobian_i)], [AddBlock(j,i,Jacobian_j)],
      [SubtractBlock(j,j,Jacobian_j)]. *)
Theorem C1_edge_assembly_signs {V B : Type} (nEdge : nat) (edge_node : nat -> nat * nat)
    (cen : nat -> CenteredOut V B) (up : nat -> UpwindOut V B) (cfg : AsmConfig)
    (iEdge i j : nat) :
  iEdge < nEdge -> edge_node iEdge = (i, j) ->
  let CR := Centered_Residual nEdge edge_node cen cfg in
  let UR := Upwind_Residual nEdge edge_node up cfg in
  (In (SubtractRes_Conv i (Res_Conv_i (cen iEdge))) CR /\
   In (SubtractRes_Conv j (Res_Conv_j (cen iEdge))) CR /\
   (implicit cfg = true ->
      In (SubtractBlock i i (cJ_ii (cen iEdge))) CR /\ In (SubtractBlock i j (cJ_ij (cen iEdge))) CR /\
      In (SubtractBlock j i (cJ_ji (cen iEdge))) CR /\ In (SubtractBlock j j (cJ_jj (cen iEdge))) CR) /\
   (forall op, In op CR -> is_add op = false)) /\
  (discrete cfg = false ->
   In (SubtractRes_Conv i (Residual_i (up iEdge))) UR /\
   In (SubtractRes_Conv j (Residual_j (up iEdge))) UR /\
   (implicit cfg = true ->
      In (SubtractBlock i i (uJ_ii (up iEdge))) UR /\ In (SubtractBlock i j (uJ_ij (up iEdge))) UR /\
      In (SubtractBlock j i (uJ_ji (up iEdge))) UR /\ In (SubtractBlock j j (uJ_jj (up iEdge))) UR) /\
   (forall op, In op UR -> is_add op = false)) /\
  (discrete cfg = true -> upwind_2nd cfg && mesh0 cfg = false ->
   In (AddBlock i i (Jacobian_i (up iEdge))) UR /\
   In (SubtractBlock i j (Jacobian_i (up iEdge))) UR /\
   In (AddBlock j i (Jacobian_j (up iEdge))) UR /\
   In (SubtractBlock j j (Jacobian_j (up iEdge))) UR /\
   (forall op, In op UR -> is_res_op op = false)).
Proof.
  intros He Hn CR UR. subst CR UR.
  assert (HC : forall op, In op (centered_edge edge_node cen cfg iEdge) ->
                 In op (Centered_Residual nEdge edge_node cen cfg))
    by (intros op; apply in_centered; exact He).
  assert (HU : forall op, In op (upwind_edge edge_node up cfg iEdge) ->
                 In op (Upwind_Residual nEdge edge_node up cfg))
    by (intros op; apply in_upwind; exact He).
  unfold centered_edge, upwind_edge in HC, HU; rewrite Hn in HC, HU.
  split; [| split].
  - split; [| split; [| split]].
    + apply HC; simpl; tauto.
    + apply HC; simpl; tauto.
    + intros Hi; rewrite Hi in HC.
      destruct (beta_rk_nonzero cfg); simpl in HC; repeat split; apply HC; tauto.
    + apply centered_no_add.
  - intros Hd; rewrite Hd in HU; simpl in HU.
    split; [| split; [| split]].
    + apply HU; simpl; tauto.
    + apply HU; simpl; tauto.
    + intros Hi; rewrite Hi in HU; simpl in HU; repeat split; apply HU; tauto.
    + intros op; apply upwind_continuous_no_add; exact Hd.
  - intros Hd Hh; rewrite Hd, Hh in HU; simpl in HU.
    repeat split; try (apply HU; tauto).
    intros op; apply upwind_discrete_no_res; exact Hd.
Qed.

(** C1 (counterexample). One edge [0 -> 1] whose numerics give node 1 the
    contribution [5] and, in discrete mode, [Jacobian_j = 8]: the centered
    trace never adds [5] to node 1 (it subtracts it), and the discrete
    upwind trace subtracts the jj block [8] instead of adding it. *)
Lemma C1_counterexample :
  ~ In (AddRes_Conv 1 5%Z) (Centered_Residual 1 ex_edges ex_cen ex_cfg_cont) /\
  In (SubtractRes_Conv 1 5%Z) (Centered_Residual 1 ex_edges ex_cen ex_cfg_cont) /\
  ~ In (AddBlock 1 1 8%Z) (Upwind_Residual 1 ex_edges ex_up ex_cfg_disc) /\
  In (SubtractBlock 1 1 8%Z) (Upwind_Residual 1 ex_edges ex_up ex_cfg_disc).
Proof.
  vm_compute. repeat split.
  - intros H; repeat (destruct H as [H | H]; [discriminate |]); contradiction.
  - tauto.
  - intros H; repeat (destruct H as [H | H]; [discriminate |]); contradiction.
  - tauto.
Qed.

(** Witness of C1: edge [0] of the example, discrete mode, first order. *)
Lemma C1_witness :
  0 < 1 /\ ex_edges 0 = (0, 1) /\
  In (AddBlock 0 0 7%Z) (Upwind_Residual 1 ex_edges ex_up ex_cfg_disc).
Proof.
  split; [lia | split; [reflexivity |]].
  pose proof (C1_edge_assembly_signs 1 ex_edges ex_cen ex_up ex_cfg_disc 0 0 1
                ltac:(lia) eq_refl) as HC.
  cbv zeta in HC. destruct HC as [_ [_ HD]].
  exact (proj1 (HD eq_refl eq_refl)).
Defined.

End AssemblyFacts.

(** ** Time integration *)

Module TimeIntFacts.
Import TimeInt.

(** Loop reasoning. *)

Lemma for_loop_ind {S : Type} (P : nat -> S -> Prop) (lo N : nat) (body : nat -> S -> S) (s : S) :
  P 0 s -> (forall n s, n < N -> P n s -> P (Datatypes.S n) (body (lo + n) s)) ->
  P N (for_loop lo N body s).
Proof.
  intros H0 Hstep. induction N as [| N IH].
  - exact H0.
  - unfold for_loop in *. rewrite seq_S, fold_left_app. simpl.
    apply Hstep; [lia |]. apply IH. intros n s' Hn. apply Hstep. lia.
Qed.

Lemma fold_invariant {S X : Type} (P : S -> Prop) (f : S -> X -> S) (l : list X) (s : S) :
  P s -> (forall s x, In x l -> P s -> P (f s x)) -> P (fold_left f l s).
Proof.
  revert s. induction l as [| x l IH]; intros s Hs Hf; simpl.
  - exact Hs.
  - apply IH; [apply Hf; simpl; auto | intros; apply Hf; simpl; auto].
Qed.

Lemma fold_proj {S T X : Type} (proj : S -> T) (f : S -> X -> S) (g : T -> X -> T) (l : list X) (s : S) :
  (forall s x, proj (f s x) = g (proj s) x) ->
  proj (fold_left f l s) = fold_left g l (proj s).
Proof.
  intros Hc. revert s. induction l as [| x l IH]; intros s; simpl; [reflexivity |].
  rewrite IH, Hc. reflexivity.
Qed.

Lemma upd_fold_miss {A : Type} (idx : nat -> nat) (w : nat -> A) (l : list nat) (g : nat -> A) (k : nat) :
  (forall i, In i l -> idx i <> k) ->
  fold_left (fun g i => upd g (idx i) (w i)) l g k = g k.
Proof.
  revert g. induction l as [| a l IH]; intros g Hl; simpl; [reflexivity |].
  rewrite IH by (intros i Hi; apply Hl; simpl; auto).
  unfold upd. destruct (Nat.eqb_spec k (idx a)) as [E | E]; [| reflexivity].
  exfalso. apply (Hl a); simpl; auto.
Qed.

Lemma upd_fold_hit {A : Type} (idx : nat -> nat) (w : nat -> A) (l : list nat) (g : nat -> A) (i0 : nat) :
  In i0 l -> (forall i, In i l -> idx i = idx i0 -> i = i0) ->
  fold_left (fun g i => upd g (idx i) (w i)) l g (idx i0) = w i0.
Proof.
  revert g. induction l as [| a l IH]; intros g Hin Hl; simpl; [contradiction |].
  destruct (in_dec Nat.eq_dec i0 l) as [Hi | Hi].
  - apply IH; [exact Hi | intros i Hi' E; apply Hl; simpl; auto].
  - destruct Hin as [<- | Hin]; [| contradiction].
    rewrite upd_fold_miss.
    + unfold upd. rewrite Nat.eqb_refl. reflexivity.
    + intros i Hi' E. apply Hi. rewrite <- (Hl i); simpl; auto.
Qed.

Lemma idx_inj (nVar p q v w : nat) :
  v < nVar -> w < nVar -> p * nVar + v = q * nVar + w -> p = q /\ v = w.
Proof.
  intros Hv Hw E.
  destruct (lt_eq_lt_dec p q) as [[Hlt | Heq] | Hgt].
  - exfalso. assert (p * nVar + nVar <= q * nVar) by nia. lia.
  - subst. lia.
  - exfalso. assert (q * nVar + nVar <= p * nVar) by nia. lia.
Qed.

Section Facts.
Context {F : Type} `{DoubleOps F}.
Variable nVar : nat.

  (** An inner loop writing one array cell per [iVar] of the block of
      [iPoint]. *)
Lemma block_write_hit (p : nat) (w : nat -> F) (g : nat -> F) (v : nat) :
    v < nVar ->
    fold_left (fun g i => upd g (p * nVar + i) (w i)) (seq 0 nVar) g (p * nVar + v) = w v.
  Proof.
    intros Hv.
    apply (upd_fold_hit (fun i => p * nVar + i) w (seq 0 nVar) g v).
    - apply in_seq; lia.
    - intros i Hi E. apply in_seq in Hi. lia.
  Qed.

Lemma block_write_miss (p : nat) (w : nat -> F) (g : nat -> F) (k : nat) :
    (forall v, v < nVar -> k <> p * nVar + v) ->
    fold_left (fun g i => upd g (p * nVar + i) (w i)) (seq 0 nVar) g k = g k.
  Proof.
    intros Hk. apply upd_fold_miss. intros i Hi E. apply in_seq in Hi.
    apply (Hk i); [lia | auto].
  Qed.

  (** A loop over points whose body writes the block of each point. *)
Lemma block_loop (proj : State F -> nat -> F) (body : nat -> State F -> State F)
      (val : nat -> nat -> F) (inv : State F -> Prop) (lo N : nat) (s0 : State F) :
    inv s0 -> (forall p s, inv s -> inv (body p s)) ->
    (forall p s v, inv s -> v < nVar -> proj (body p s) (p * nVar + v) = val p v) ->
    (forall p s k, inv s -> (forall v, v < nVar -> k <> p * nVar + v) ->
                   proj (body p s) k = proj s k) ->
    inv (for_loop lo N body s0) /\
    (forall p v, lo <= p < lo + N -> v < nVar -> proj (for_loop lo N body s0) (p * nVar + v) = val p v) /\
    (forall k, (forall p v, lo <= p < lo + N -> v < nVar -> k <> p * nVar + v) ->
               proj (for_loop lo N body s0) k = proj s0 k).
  Proof.
    intros Hi0 Hinv Hhit Hmiss.
    apply (for_loop_ind (fun n s =>
      inv s /\
      (forall p v, lo <= p < lo + n -> v < nVar -> proj s (p * nVar + v) = val p v) /\
      (forall k, (forall p v, lo <= p < lo + n -> v < nVar -> k <> p * nVar + v) ->
                 proj s k = proj s0 k))).
    - split; [exact Hi0 | split; [intros; lia | reflexivity]].
    - intros n s Hn [Hs [Hb Ho]]. split; [apply Hinv; exact Hs | split].
      + intros p v Hp Hv.
        destruct (Nat.eq_dec p (lo + n)) as [-> | Hne].
        * apply Hhit; assumption.
        * rewrite Hmiss; [apply Hb; [lia | exact Hv] | exact Hs |].
          intros v' Hv' E. apply idx_inj in E; [lia | exact Hv | exact Hv'].
      + intros k Hk. rewrite Hmiss; [apply Ho | exact Hs |].
        * intros p v Hp Hv. apply Hk; [lia | exact Hv].
        * intros v Hv. apply Hk; [lia | exact Hv].
  Qed.
End Facts.

Section Drivers.
Context {F : Type} `{DoubleOps F}.
Variable nVar : nat.
Variable linear_solve : Strategy -> (nat -> nat -> F) -> (nat -> F) -> (nat -> F) -> (nat -> F).

  (** The inner loop that writes [rhs] and [xsol] in the block of [p]. *)
Lemma inner_write (p : nat) (w : nat -> F) (b : nat -> State F -> State F) (s : State F) :
    (forall i s, b i s = with_xsol_at (with_rhs s (p * nVar + i) (w i)) (p * nVar + i) f0) ->
    let s' := for_loop 0 nVar b s in
    node s' = node s /\ Jacobian s' = Jacobian s /\
    (forall v, v < nVar -> rhs s' (p * nVar + v) = w v /\ xsol s' (p * nVar + v) = f0) /\
    (forall k, (forall v, v < nVar -> k <> p * nVar + v) -> rhs s' k = rhs s k /\ xsol s' k = xsol s k).
  Proof.
    intros Hb s'.
    assert (Hn : node s' = node s).
    { subst s'. apply (fold_invariant (fun s1 => node s1 = node s)); [reflexivity |].
      intros s1 x _ E. rewrite Hb. exact E. }
    assert (HJ : Jacobian s' = Jacobian s).
    { subst s'. apply (fold_invariant (fun s1 => Jacobian s1 = Jacobian s)); [reflexivity |].
      intros s1 x _ E. rewrite Hb. exact E. }
    assert (Hr : rhs s' = fold_left (fun g i => upd g (p * nVar + i) (w i)) (seq 0 nVar) (rhs s)).
    { subst s'. unfold for_loop. apply fold_proj. intros s1 x. rewrite Hb. reflexivity. }
    assert (Hx : xsol s' = fold_left (fun g i => upd g (p * nVar + i) ((fun _ => f0) i)) (seq 0 nVar) (xsol s)).
    { subst s'. unfold for_loop. apply fold_proj. intros s1 x. rewrite Hb. reflexivity. }
    split; [exact Hn | split; [exact HJ | split]].
    - intros v Hv. rewrite Hr, Hx. split.
      + apply (block_write_hit nVar); exact Hv.
      + apply (block_write_hit nVar p (fun _ => f0)); exact Hv.
    - intros k Hk. rewrite Hr, Hx. split.
      + apply (block_write_miss nVar); exact Hk.
      + apply (block_write_miss nVar p (fun _ => f0)); exact Hk.
  Qed.

  (** The final update loops: [AddSolution] / [SetSolution] of [xsol]. *)
Lemma solution_loop (comb : F -> F -> F) (op : NodeVar F -> nat -> F -> NodeVar F) (N : nat) (s0 : State F) :
    (forall nv v x, op nv v x = set_Solution nv (upd (Solution nv) v (comb (Solution nv v) x))) ->
    let s' := for_loop 0 N (fun p s =>
                for_loop 0 nVar (fun v s => with_node s p (op (node s p) v (xsol s (p * nVar + v)))) s) s0 in
    xsol s' = xsol s0 /\ Jacobian s' = Jacobian s0 /\
    (forall p v, p < N -> v < nVar ->
       Solution (node s' p) v = comb (Solution (node s0 p) v) (xsol s0 (p * nVar + v))).
  Proof.
    intros Hop s'.
    assert (Hinner : forall p m s,
      xsol s = xsol s0 -> Jacobian s = Jacobian s0 ->
      let s1 := for_loop 0 m (fun v s => with_node s p (op (node s p) v (xsol s (p * nVar + v)))) s in
      xsol s1 = xsol s0 /\ Jacobian s1 = Jacobian s0 /\
      (forall q v, Solution (node s1 q) v =
         if Nat.eqb q p && Nat.ltb v m then comb (Solution (node s q) v) (xsol s0 (p * nVar + v))
         else Solution (node s q) v)).
    { intros p m s Hx HJ. simpl.
      apply (for_loop_ind (fun n s1 =>
        xsol s1 = xsol s0 /\ Jacobian s1 = Jacobian s0 /\
        (forall q v, Solution (node s1 q) v =
           if Nat.eqb q p && Nat.ltb v n then comb (Solution (node s q) v) (xsol s0 (p * nVar + v))
           else Solution (node s q) v))).
      - split; [exact Hx | split; [exact HJ |]].
        intros q v. rewrite (proj2 (Nat.ltb_nlt v 0) ltac:(lia)), andb_false_r. reflexivity.
      - intros n s1 Hn [Hx1 [HJ1 Hs1]]. simpl.
        split; [exact Hx1 | split; [exact HJ1 |]].
        intros q v. simpl. unfold upd at 1.
        destruct (Nat.eqb_spec q p) as [-> | Hq].
        + rewrite Hop. simpl. unfold upd.
          destruct (Nat.eqb_spec v n) as [-> | Hv].
          * rewrite Hs1, Nat.eqb_refl, Hx1. simpl.
            rewrite (proj2 (Nat.ltb_nlt n n) ltac:(lia)), (proj2 (Nat.ltb_lt n (S n)) ltac:(lia)). reflexivity.
          * rewrite Hs1, Nat.eqb_refl. simpl.
            destruct (Nat.ltb_spec v n), (Nat.ltb_spec v (S n)); try reflexivity; lia.
        + rewrite Hs1. simpl. destruct (Nat.eqb_spec q p); [contradiction | reflexivity]. }
    subst s'.
    match goal with |- context [for_loop 0 N ?body s0] => set (bd := body) end.
    pose (P := fun n s =>
      xsol s = xsol s0 /\ Jacobian s = Jacobian s0 /\
      (forall p v, v < nVar -> Solution (node s p) v =
         if Nat.ltb p n then comb (Solution (node s0 p) v) (xsol s0 (p * nVar + v))
         else Solution (node s0 p) v)).
    assert (Hfin : P N (for_loop 0 N bd s0)).
    { apply (for_loop_ind P).
      - split; [reflexivity | split; [reflexivity |]].
        intros p v _. rewrite (proj2 (Nat.ltb_nlt p 0) ltac:(lia)). reflexivity.
      - intros n s Hn [Hx [HJ Hs]]. subst bd. simpl.
        destruct (Hinner n nVar s Hx HJ) as [Hx1 [HJ1 Hs1]].
        split; [exact Hx1 | split; [exact HJ1 |]].
        intros p v Hv. rewrite Hs1, Hs by exact Hv.
        destruct (Nat.eqb_spec p n) as [-> | Hp].
        + rewrite (proj2 (Nat.ltb_lt v nVar) Hv), (proj2 (Nat.ltb_nlt n n) ltac:(lia)),
                  (proj2 (Nat.ltb_lt n (S n)) ltac:(lia)). reflexivity.
        + simpl. destruct (Nat.ltb_spec p n), (Nat.ltb_spec p (S n)); try reflexivity; lia. }
    destruct Hfin as [Hx [HJ Hs]].
    split; [exact Hx | split; [exact HJ |]].
    intros p v Hp Hv. rewrite (Hs p v Hv), (proj2 (Nat.ltb_lt p N) Hp). reflexivity.
  Qed.
End Drivers.

Section Implicit.
Context {F : Type} `{DoubleOps F}.
Variable nVar : nat.
Variable linear_solve : Strategy -> (nat -> nat -> F) -> (nat -> F) -> (nat -> F) -> (nat -> F).

Lemma dispatch_selected (kind : Kind_Linear_Solver) (prec : Kind_Linear_Solver_Prec)
      (flag : bool) (J : nat -> nat -> F) (b x : nat -> F) :
    kind <> OTHER_LINEAR_SOLVER -> prec <> OTHER_PREC ->
    exists s, selected_strategy kind prec flag = Some s /\
              dispatch linear_solve kind prec flag J b x = Some ([s], linear_solve s J b x).
  Proof.
    intros Hk Hp.
    destruct kind; try congruence; destruct prec; try congruence;
      eexists; split; reflexivity.
  Qed.

  (** The assembly loop of [ImplicitEuler_Iteration] over the owned points. *)
Lemma implicit_build (geo : Geometry F) (Delta_Time : nat -> F) (st : State F) :
    let body := fun iPoint s =>
        let nv := node s iPoint in
        let Delta := fdiv (Volume geo iPoint) (Delta_Time iPoint) in
        let s := with_Jacobian s (AddVal2Diag nVar (Jacobian s) iPoint Delta) in
        for_loop 0 nVar (fun iVar s =>
          let total_index := iPoint * nVar + iVar in
          let s := with_rhs s total_index (fopp (total_res nv iVar)) in
          with_xsol_at s total_index f0) s in
    let st1 := for_loop 0 (nPointDomain geo) body st in
    node st1 = node st /\
    (forall p v, p < nPointDomain geo -> v < nVar ->
       rhs st1 (p * nVar + v) = fopp (total_res (node st p) v) /\ xsol st1 (p * nVar + v) = f0) /\
    (forall p v, p < nPointDomain geo -> v < nVar ->
       Jacobian st1 (p * nVar + v) (p * nVar + v) =
       fadd (Jacobian st (p * nVar + v) (p * nVar + v)) (fdiv (Volume geo p) (Delta_Time p))) /\
    (forall r c, r <> c -> Jacobian st1 r c = Jacobian st r c).
  Proof.
    intros body st1.
    assert (Hin : forall p s, let s' := body p s in
              node s' = node s /\
              Jacobian s' = AddVal2Diag nVar (Jacobian s) p (fdiv (Volume geo p) (Delta_Time p)) /\
              (forall v, v < nVar -> rhs s' (p * nVar + v) = fopp (total_res (node s p) v) /\
                                     xsol s' (p * nVar + v) = f0) /\
              (forall k, (forall v, v < nVar -> k <> p * nVar + v) ->
                         rhs s' k = rhs s k /\ xsol s' k = xsol s k)).
    { intros p s s'. subst s' body. cbv beta zeta.
      match goal with |- context [for_loop 0 nVar ?b ?s0] =>
        destruct (inner_write nVar p (fun i => fopp (total_res (node s p) i)) b s0 (fun _ _ => eq_refl))
          as [Hn [HJ [Hh Hm]]] end.
      rewrite Hn, HJ. split; [reflexivity | split; [reflexivity | split]].
      - exact Hh.
      - intros k Hk. exact (Hm k Hk). }
    destruct (block_loop nVar rhs body (fun p v => fopp (total_res (node st p) v))
                (fun s => node s = node st) 0 (nPointDomain geo) st)
      as [Hnode [Hr _]].
    - reflexivity.
    - intros p s E. destruct (Hin p s) as [Hn _]. rewrite Hn. exact E.
    - intros p s v E Hv. destruct (Hin p s) as [_ [_ [Hh _]]]. rewrite <- E. apply Hh, Hv.
    - intros p s k _ Hk. destruct (Hin p s) as [_ [_ [_ Hm]]]. apply Hm, Hk.
    - destruct (block_loop nVar xsol body (fun _ _ => f0)
                  (fun s => node s = node st) 0 (nPointDomain geo) st)
        as [_ [Hx _]].
      + reflexivity.
      + intros p s E. destruct (Hin p s) as [Hn _]. rewrite Hn. exact E.
      + intros p s v E Hv. destruct (Hin p s) as [_ [_ [Hh _]]]. apply Hh, Hv.
      + intros p s k _ Hk. destruct (Hin p s) as [_ [_ [_ Hm]]]. apply Hm, Hk.
      + assert (HJ : forall r c, Jacobian st1 r c =
                  if Nat.eqb r c && Nat.ltb r (nPointDomain geo * nVar)
                  then fadd (Jacobian st r c) (fdiv (Volume geo (r / nVar)) (Delta_Time (r / nVar)))
                  else Jacobian st r c).
        { subst st1.
          apply (for_loop_ind (fun n s => forall r c, Jacobian s r c =
                  if Nat.eqb r c && Nat.ltb r (n * nVar)
                  then fadd (Jacobian st r c) (fdiv (Volume geo (r / nVar)) (Delta_Time (r / nVar)))
                  else Jacobian st r c)).
          - intros r c. rewrite (proj2 (Nat.ltb_nlt r (0 * nVar)) ltac:(lia)), andb_false_r.
            reflexivity.
          - intros n s Hn IH r c. simpl in *. destruct (Hin n s) as [_ [HJn _]].
            rewrite HJn. unfold AddVal2Diag. rewrite IH.
            destruct (Nat.eqb_spec r c) as [<- | Hrc]; simpl; [| reflexivity].
            replace (nVar + n * nVar) with (n * nVar + nVar) by lia.
            destruct (Nat.leb_spec (n * nVar) r), (Nat.ltb_spec r (n * nVar + nVar)),
                     (Nat.ltb_spec r (n * nVar));
              simpl; try reflexivity; try lia.
            assert (E : r / nVar = n).
            { destruct nVar as [| m]; [lia |].
              symmetry. apply Nat.div_unique with (r - n * S m); nia. }
            rewrite E. reflexivity. }
        split; [exact Hnode | split; [| split]].
        * intros p v Hp Hv. split; [apply Hr; lia | apply Hx; lia].
        * intros p v Hp Hv. rewrite HJ, Nat.eqb_refl.
          rewrite (proj2 (Nat.ltb_lt (p * nVar + v) (nPointDomain geo * nVar)) ltac:(nia)).
          simpl. assert (E : (p * nVar + v) / nVar = p).
          { symmetry. apply Nat.div_unique with v; lia. }
          rewrite E. reflexivity.
        * intros r c Hrc. rewrite HJ. destruct (Nat.eqb_spec r c); [contradiction | reflexivity].
  Qed.
  (** The halo loop of [ImplicitEuler_Iteration]: zero right-hand side and
      solution at the points [lo, lo + N). *)
Lemma implicit_halo (lo N : nat) (s1 : State F) :
    let s2 := for_loop lo N (fun iPoint s =>
        for_loop 0 nVar (fun iVar s =>
          let total_index := iPoint * nVar + iVar in
          with_xsol_at (with_rhs s total_index f0) total_index f0) s) s1 in
    node s2 = node s1 /\ Jacobian s2 = Jacobian s1 /\
    (forall p v, lo <= p < lo + N -> v < nVar ->
       rhs s2 (p * nVar + v) = f0 /\ xsol s2 (p * nVar + v) = f0) /\
    (forall p v, p < lo -> v < nVar ->
       rhs s2 (p * nVar + v) = rhs s1 (p * nVar + v) /\
       xsol s2 (p * nVar + v) = xsol s1 (p * nVar + v)).
  Proof.
    intros s2.
    set (body := fun iPoint s =>
        for_loop 0 nVar (fun iVar s =>
          let total_index := iPoint * nVar + iVar in
          with_xsol_at (with_rhs s total_index f0) total_index f0) s : State F).
    assert (Hin : forall p s, let s' := body p s in
              node s' = node s /\ Jacobian s' = Jacobian s /\
              (forall v, v < nVar -> rhs s' (p * nVar + v) = f0 /\ xsol s' (p * nVar + v) = f0) /\
              (forall k, (forall v, v < nVar -> k <> p * nVar + v) ->
                         rhs s' k = rhs s k /\ xsol s' k = xsol s k)).
    { intros p s s'. subst s' body. cbv beta zeta.
      exact (inner_write nVar p (fun _ => f0) _ s (fun _ _ => eq_refl)). }
    set (inv := fun s => node s = node s1 /\ Jacobian s = Jacobian s1).
    assert (Hinv : forall p s, inv s -> inv (body p s)).
    { intros p s [E1 E2]. destruct (Hin p s) as [Hn [HJ _]]. split; congruence. }
    destruct (block_loop nVar rhs body (fun _ _ => f0) inv lo N s1) as [[Hn HJ] [Hr Hrm]].
    - split; reflexivity.
    - exact Hinv.
    - intros p s v _ Hv. apply (Hin p s), Hv.
    - intros p s k _ Hk. apply (Hin p s), Hk.
    - destruct (block_loop nVar xsol body (fun _ _ => f0) inv lo N s1) as [_ [Hx Hxm]].
      + split; reflexivity.
      + exact Hinv.
      + intros p s v _ Hv. apply (Hin p s), Hv.
      + intros p s k _ Hk. apply (Hin p s), Hk.
      + split; [exact Hn | split; [exact HJ | split]].
        * intros p v Hp Hv. split; [apply Hr | apply Hx]; assumption.
        * intros p v Hp Hv.
          assert (Hd : forall q w, lo <= q < lo + N -> w < nVar -> p * nVar + v <> q * nVar + w).
          { intros q w Hq Hw E. destruct (idx_inj nVar p q v w Hv Hw E). lia. }
          split; [apply Hrm | apply Hxm]; exact Hd.
  Qed.

  (** C2: one implicit Euler iteration, for a configuration naming one of
      the four linear solvers and one of the three preconditioners, builds
      the system [J2 dx = b2] with guess [x2]: [Volume/dt] added on the
      diagonal of every owned point's block and the other entries left as
      they were, [b2 = -(ResConv + ResVisc + ResSour + Res_TruncError)] and
      [x2 = 0] at owned points, [b2 = x2 = 0] at halo points; it calls
      exactly the configured strategy once on that system and adds the
      result to the solution of every owned point. *)
Theorem C2_implicit_euler_iteration (geo : Geometry F) (Delta_Time : nat -> F)
      (kind : Kind_Linear_Solver) (prec : Kind_Linear_Solver_Prec) (st : State F) :
    kind <> OTHER_LINEAR_SOLVER -> prec <> OTHER_PREC ->
    exists s J2 b2 x2 st',
      selected_strategy kind prec false = Some s /\
      ImplicitEuler_Iteration nVar linear_solve geo Delta_Time kind prec st = Some ([s], st') /\
      (forall p v, p < nPointDomain geo -> v < nVar ->
         J2 (p * nVar + v) (p * nVar + v) =
           fadd (Jacobian st (p * nVar + v) (p * nVar + v)) (fdiv (Volume geo p) (Delta_Time p)) /\
         b2 (p * nVar + v) = fopp (total_res (node st p) v) /\
         x2 (p * nVar + v) = f0) /\
      (forall r c, r <> c -> J2 r c = Jacobian st r c) /\
      (forall p v, nPointDomain geo <= p < nPoint geo -> v < nVar ->
         b2 (p * nVar + v) = f0 /\ x2 (p * nVar + v) = f0) /\
      xsol st' = linear_solve s J2 b2 x2 /\ Jacobian st' = J2 /\
      (forall p v, p < nPointDomain geo -> v < nVar ->
         Solution (node st' p) v = fadd (Solution (node st p) v) (xsol st' (p * nVar + v))).
  Proof.
    intros Hk Hp.
    pose proof (implicit_build geo Delta_Time st) as HB. cbv zeta in HB.
    destruct HB as [Hn1 [Hb1 [Hd1 Ho1]]].
    unfold ImplicitEuler_Iteration. cbv zeta.
    set (st1 := for_loop 0 (nPointDomain geo) _ st) in *.
    pose proof (implicit_halo (nPointDomain geo) (nPoint geo - nPointDomain geo) st1) as HH.
    cbv zeta in HH. destruct HH as [Hn2 [HJ2 [Hh2 Ho2]]].
    set (st2 := for_loop (nPointDomain geo) _ _ st1) in *.
    destruct (dispatch_selected kind prec false (Jacobian st2) (rhs st2) (xsol st2) Hk Hp)
      as [s [Hs Hd]].
    rewrite Hd.
    set (st4 := for_loop 0 (nPointDomain geo) _ (with_xsol st2 _)).
    destruct (solution_loop nVar fadd AddSolution (nPointDomain geo)
                (with_xsol st2 (linear_solve s (Jacobian st2) (rhs st2) (xsol st2)))
                (fun _ _ _ => eq_refl)) as [Hx4 [HJ4 Hs4]].
    fold st4 in Hx4, HJ4, Hs4.
    exists s, (Jacobian st2), (rhs st2), (xsol st2), st4.
    split; [exact Hs | split; [reflexivity | split; [| split; [| split; [| split; [| split]]]]]].
    - intros p v Hp' Hv. rewrite HJ2.
      destruct (Ho2 p v Hp' Hv) as [E1 E2]. rewrite E1, E2.
      destruct (Hb1 p v Hp' Hv) as [E3 E4].
      split; [apply Hd1; assumption | split; assumption].
    - intros r c Hrc. rewrite HJ2. apply Ho1, Hrc.
    - intros p v Hp' Hv. apply Hh2; [lia | exact Hv].
    - exact Hx4.
    - exact HJ4.
    - intros p v Hp' Hv. rewrite Hs4 by assumption. rewrite Hx4. simpl.
      rewrite Hn2, Hn1. reflexivity.
  Qed.
  (** C3: the discrete-adjoint solve, for a configuration naming one of the
      four linear solvers and one of the three preconditioners, calls the
      configured strategy once on the Jacobian as it stands with right-hand
      side the stored [ObjFuncSource] of each owned point (guess zero), and
      sets the solution of every owned point to the result: the old
      solution plays no part in the new one. *)
Theorem C3_solve_linear_system (geo : Geometry F)
      (kind : Kind_Linear_Solver) (prec : Kind_Linear_Solver_Prec) (st : State F) :
    kind <> OTHER_LINEAR_SOLVER -> prec <> OTHER_PREC ->
    exists s b x st',
      selected_strategy kind prec true = Some s /\
      Solve_LinearSystem nVar linear_solve geo kind prec st = Some ([s], st') /\
      (forall p v, p < nPointDomain geo -> v < nVar ->
         b (p * nVar + v) = ObjFuncSource (node st p) v /\ x (p * nVar + v) = f0) /\
      xsol st' = linear_solve s (Jacobian st) b x /\
      (forall p v, p < nPointDomain geo -> v < nVar ->
         Solution (node st' p) v = linear_solve s (Jacobian st) b x (p * nVar + v)).
  Proof.
    intros Hk Hp.
    unfold Solve_LinearSystem. cbv zeta.
    set (body := fun iPoint s =>
        for_loop 0 nVar (fun iVar s1 =>
          with_xsol_at (with_rhs s1 (iPoint * nVar + iVar) (ObjFuncSource (node s iPoint) iVar))
            (iPoint * nVar + iVar) f0) s : State F).
    assert (Hin : forall p s, let s' := body p s in
              node s' = node s /\ Jacobian s' = Jacobian s /\
              (forall v, v < nVar -> rhs s' (p * nVar + v) = ObjFuncSource (node s p) v /\
                                     xsol s' (p * nVar + v) = f0) /\
              (forall k, (forall v, v < nVar -> k <> p * nVar + v) ->
                         rhs s' k = rhs s k /\ xsol s' k = xsol s k)).
    { intros p s s'. subst s' body. cbv beta.
      exact (inner_write nVar p (ObjFuncSource (node s p)) _ s (fun _ _ => eq_refl)). }
    set (inv := fun s => node s = node st /\ Jacobian s = Jacobian st).
    assert (Hinv : forall p s, inv s -> inv (body p s)).
    { intros p s [E1 E2]. destruct (Hin p s) as [Hn [HJ _]]. split; congruence. }
    destruct (block_loop nVar rhs body (fun p v => ObjFuncSource (node st p) v) inv 0
                (nPointDomain geo) st) as [[Hn HJ] [Hr _]].
    - split; reflexivity.
    - exact Hinv.
    - intros p s v [E _] Hv. rewrite <- E. apply (Hin p s), Hv.
    - intros p s k _ Hm. apply (Hin p s), Hm.
    - destruct (block_loop nVar xsol body (fun _ _ => f0) inv 0 (nPointDomain geo) st)
        as [_ [Hx _]].
      + split; reflexivity.
      + exact Hinv.
      + intros p s v _ Hv. apply (Hin p s), Hv.
      + intros p s k _ Hm. apply (Hin p s), Hm.
      + fold body. set (st1 := for_loop 0 (nPointDomain geo) body st) in *.
        destruct (dispatch_selected kind prec true (Jacobian st1) (rhs st1) (xsol st1) Hk Hp)
          as [s [Hs Hd]].
        rewrite Hd.
        destruct (solution_loop nVar (fun _ x => x) SetSolution_i (nPointDomain geo)
                    (with_xsol st1 (linear_solve s (Jacobian st1) (rhs st1) (xsol st1)))
                    (fun _ _ _ => eq_refl)) as [Hx4 [_ Hs4]].
        exists s, (rhs st1), (xsol st1).
        eexists. split; [exact Hs | split; [reflexivity | split; [| split]]].
        * intros p v Hp' Hv. split; [apply Hr | apply Hx]; lia.
        * rewrite Hx4. simpl. rewrite HJ. reflexivity.
        * intros p v Hp' Hv. rewrite Hs4 by assumption. simpl. rewrite HJ. reflexivity.
  Qed.
Lemma for_loop_inv {S : Type} (P : S -> Prop) (lo N : nat) (body : nat -> S -> S) (s : S) :
    P s -> (forall i s, P s -> P (body i s)) -> P (for_loop lo N body s).
  Proof.
    intros H0 Hb. apply (fold_invariant P); [exact H0 |]. intros s1 x _ Hs. apply Hb, Hs.
  Qed.

  (** Adding to the solution of one point keeps the three accumulators of
      every point. *)
Lemma addsol_keeps_acc (st s : State F) (p v : nat) (x : F) :
    (forall q, ResConv (node s q) = ResConv (node st q) /\ ResVisc (node s q) = ResVisc (node st q) /\
               ResSour (node s q) = ResSour (node st q)) ->
    forall q, let s' := with_node s p (AddSolution (node s p) v x) in
      ResConv (node s' q) = ResConv (node st q) /\ ResVisc (node s' q) = ResVisc (node st q) /\
      ResSour (node s' q) = ResSour (node st q).
  Proof.
    intros Hs q s'. subst s'. simpl. unfold upd.
    destruct (Nat.eqb_spec q p) as [-> | _]; apply Hs.
  Qed.

  (** C6 (amended): the explicit Euler, Runge-Kutta and implicit Euler
      iterations leave the convective, viscous and source residuals of every
      point as they found them; it is [Preprocessing] that zeroes the
      convective and source residuals of every point, and the viscous ones
      when the Runge-Kutta beta coefficient is nonzero or the scheme is
      implicit. *)
Theorem C6_accumulators_zeroed_by_preprocessing (geo : Geometry F) (Delta_Time : nat -> F)
      (RK_AlphaCoeff : F) (kind : Kind_Linear_Solver) (prec : Kind_Linear_Solver_Prec)
      (implicit beta_rk_nonzero discrete : bool) (st : State F) :
    (forall p, let nv := node (ExplicitEuler_Iteration nVar geo Delta_Time st) p in
       ResConv nv = ResConv (node st p) /\ ResVisc nv = ResVisc (node st p) /\
       ResSour nv = ResSour (node st p)) /\
    (forall p, let nv := node (ExplicitRK_Iteration nVar geo Delta_Time RK_AlphaCoeff st) p in
       ResConv nv = ResConv (node st p) /\ ResVisc nv = ResVisc (node st p) /\
       ResSour nv = ResSour (node st p)) /\
    match ImplicitEuler_Iteration nVar linear_solve geo Delta_Time kind prec st with
    | Some (_, st') =>
        forall p, let nv := node st' p in
          ResConv nv = ResConv (node st p) /\ ResVisc nv = ResVisc (node st p) /\
          ResSour nv = ResSour (node st p)
    | None => True
    end /\
    (forall p, p < nPoint geo ->
       let nv := node (Preprocessing geo implicit beta_rk_nonzero discrete st) p in
       ResConv nv = zero_vec /\ ResSour nv = zero_vec /\
       (beta_rk_nonzero || implicit = true -> ResVisc nv = zero_vec)).
  Proof.
    set (Acc := fun s => forall q,
           ResConv (node s q) = ResConv (node st q) /\ ResVisc (node s q) = ResVisc (node st q) /\
           ResSour (node s q) = ResSour (node st q)).
    assert (Hst : Acc st) by (intros q; repeat split).
    split; [| split; [| split]].
    - apply (for_loop_inv Acc); [exact Hst |]. intros i s Hs.
      apply (for_loop_inv Acc); [exact Hs |]. intros v s1 Hs1 q. cbv zeta. apply (addsol_keeps_acc st s1), Hs1.
    - apply (for_loop_inv Acc); [exact Hst |]. intros i s Hs.
      apply (for_loop_inv Acc); [exact Hs |]. intros v s1 Hs1 q. cbv zeta. apply (addsol_keeps_acc st s1), Hs1.
    - pose proof (implicit_build geo Delta_Time st) as HB. cbv zeta in HB.
      destruct HB as [Hn1 _].
      unfold ImplicitEuler_Iteration. cbv zeta.
      set (st1 := for_loop 0 (nPointDomain geo) _ st) in *.
      pose proof (implicit_halo (nPointDomain geo) (nPoint geo - nPointDomain geo) st1) as HH.
      cbv zeta in HH. destruct HH as [Hn2 _].
      set (st2 := for_loop (nPointDomain geo) _ _ st1) in *.
      destruct (dispatch linear_solve kind prec false (Jacobian st2) (rhs st2) (xsol st2))
        as [[calls x] |]; [| exact I].
      apply (for_loop_inv Acc).
      + intros q. simpl. rewrite Hn2, Hn1. repeat split.
      + intros i s Hs. apply (for_loop_inv Acc); [exact Hs |].
        intros v s1 Hs1 q. cbv zeta. apply (addsol_keeps_acc st s1), Hs1.
    - intros p Hp nv. subst nv.
      assert (Hpre : forall q, q < nPoint geo ->
        let nv := node (for_loop 0 (nPoint geo) (fun iPoint s =>
              let nv := Set_ResSour_Zero (Set_ResConv_Zero (node s iPoint)) in
              let nv := if beta_rk_nonzero || implicit then Set_ResVisc_Zero nv else nv in
              with_node s iPoint nv) st) q in
        ResConv nv = zero_vec /\ ResSour nv = zero_vec /\
        (beta_rk_nonzero || implicit = true -> ResVisc nv = zero_vec)).
      { apply (for_loop_ind (fun n s => forall q, q < n ->
          ResConv (node s q) = zero_vec /\ ResSour (node s q) = zero_vec /\
          (beta_rk_nonzero || implicit = true -> ResVisc (node s q) = zero_vec))).
        - intros q Hq. lia.
        - intros n s Hn IH q Hq. simpl. unfold upd.
          destruct (Nat.eqb_spec q n) as [-> | Hqn].
          + destruct (beta_rk_nonzero || implicit); simpl;
              repeat split; intros; try reflexivity; discriminate.
          + apply IH. lia. }
      unfold Preprocessing. cbv zeta in *.
      destruct (implicit || discrete); apply Hpre, Hp.
  Qed.
End Implicit.

Section FWH.
Context {F : Type} `{DoubleOps F}.
Variable nVar : nat.

  (** [DeleteValsRowi] at any row keeps an identity row an identity row and
      makes its own row one. *)
Lemma delete_row_id (J : nat -> nat -> F) (i r : nat) :
    (r = i \/ forall c, J r c = if Nat.eqb c r then f1 else f0) ->
    forall c, DeleteValsRowi J i r c = if Nat.eqb c r then f1 else f0.
  Proof.
    intros Hr c. unfold DeleteValsRowi.
    destruct (Nat.eqb_spec r i) as [-> | Hri]; [reflexivity |].
    destruct Hr as [Hr | Hr]; [contradiction | apply Hr].
  Qed.

  (** The row loop of [BC_FWH] at the point [p]. *)
Lemma fwh_rows (p : nat) (s0 : State F) :
    let s' := for_loop 0 nVar (fun iVar s =>
                with_Jacobian s (DeleteValsRowi (Jacobian s) (p * nVar + iVar))) s0 in
    node s' = node s0 /\
    (forall v c, v < nVar ->
       Jacobian s' (p * nVar + v) c = if Nat.eqb c (p * nVar + v) then f1 else f0) /\
    (forall r, (forall c, Jacobian s0 r c = if Nat.eqb c r then f1 else f0) ->
       forall c, Jacobian s' r c = if Nat.eqb c r then f1 else f0).
  Proof.
    intros s'.
    apply (for_loop_ind (fun n s =>
      node s = node s0 /\
      (forall v c, v < n -> Jacobian s (p * nVar + v) c = if Nat.eqb c (p * nVar + v) then f1 else f0) /\
      (forall r, (forall c, Jacobian s0 r c = if Nat.eqb c r then f1 else f0) ->
         forall c, Jacobian s r c = if Nat.eqb c r then f1 else f0))).
    - split; [reflexivity | split; [intros; lia | intros r Hr; exact Hr]].
    - intros n s _ [Hn [Hv Hr]]. simpl.
      split; [exact Hn | split].
      + intros v c Hv'. apply delete_row_id.
        destruct (Nat.eq_dec v n) as [-> | Hvn]; [left; reflexivity |].
        right. intros c'. apply Hv. lia.
      + intros r Hr0 c. apply delete_row_id. right. apply Hr, Hr0.
  Qed.

  (** C10: [BC_FWH] reads no ownership flag: every node listed by the
      marker, owned or halo, gets its [IntBoundary_Jump] as solution and old
      solution and zero convective, source, viscous and truncation-error
      residuals, and with an implicit scheme the [nVar] rows of its block
      become identity rows of the Jacobian. *)
Theorem C10_bc_fwh_every_vertex (vertex_nodes : list nat) (implicit : bool) (st : State F)
      (p : nat) :
    In p vertex_nodes ->
    let st' := BC_FWH nVar vertex_nodes implicit st in
    Solution (node st' p) = IntBoundary_Jump (node st p) /\
    Solution_Old (node st' p) = IntBoundary_Jump (node st p) /\
    ResConv (node st' p) = zero_vec /\ ResSour (node st' p) = zero_vec /\
    ResVisc (node st' p) = zero_vec /\ Res_TruncError (node st' p) = zero_vec /\
    (implicit = true -> forall v c, v < nVar ->
       Jacobian st' (p * nVar + v) c = if Nat.eqb c (p * nVar + v) then f1 else f0).
  Proof.
    intros Hin st'.
    set (Facts := fun (s : State F) q =>
      Solution (node s q) = IntBoundary_Jump (node st q) /\
      Solution_Old (node s q) = IntBoundary_Jump (node st q) /\
      ResConv (node s q) = zero_vec /\ ResSour (node s q) = zero_vec /\
      ResVisc (node s q) = zero_vec /\ Res_TruncError (node s q) = zero_vec /\
      (implicit = true -> forall v c, v < nVar ->
         Jacobian s (q * nVar + v) c = if Nat.eqb c (q * nVar + v) then f1 else f0)).
    set (Inv := fun (s : State F) => forall q, IntBoundary_Jump (node s q) = IntBoundary_Jump (node st q)).
    unfold BC_FWH in st'.
    subst st'.
    match goal with |- context [fold_left ?g vertex_nodes st] => set (f := g) end.
    (* the node writes of one vertex *)
    assert (Hnode : forall s i q, node (f s i) q =
              if Nat.eqb q i then
                SetRes_TruncErrorZero (Set_ResVisc_Zero (Set_ResSour_Zero (Set_ResConv_Zero
                  (set_Solution_Old (set_Solution (node s i) (IntBoundary_Jump (node s i)))
                     (IntBoundary_Jump (node s i))))))
              else node s q).
    { intros s i q. subst f. cbv beta zeta.
      match goal with |- context [if implicit then ?a else ?b] =>
        assert (E : node (if implicit then a else b) = node b)
          by (destruct implicit; [apply (fwh_rows i b) | reflexivity]) end.
      rewrite E. unfold with_node, upd. cbn [node].
      destruct (Nat.eqb_spec q i) as [-> | Hqi].
      - rewrite !Nat.eqb_refl. reflexivity.
      - reflexivity. }
    assert (Hrows : forall s i, implicit = true -> forall v c, v < nVar ->
              Jacobian (f s i) (i * nVar + v) c = if Nat.eqb c (i * nVar + v) then f1 else f0).
    { intros s i Himp. subst f. cbv beta. rewrite Himp. apply fwh_rows. }
    assert (Hkeep : forall s i r, (forall c, Jacobian s r c = if Nat.eqb c r then f1 else f0) ->
              forall c, Jacobian (f s i) r c = if Nat.eqb c r then f1 else f0).
    { intros s i r Hr. subst f. cbv beta. destruct implicit.
      - apply fwh_rows. exact Hr.
      - exact Hr. }
    assert (Hinv : forall s i, Inv s -> Inv (f s i)).
    { intros s i Hs q. rewrite Hnode. destruct (Nat.eqb_spec q i) as [-> | _]; simpl; apply Hs. }
    assert (Hstep : forall s i q, Inv s -> (q = i \/ Facts s q) -> Facts (f s i) q).
    { intros s i q Hs Hq. unfold Facts. rewrite !Hnode.
      destruct (Nat.eqb_spec q i) as [-> | Hqi].
      - simpl. rewrite Hs. repeat split; try reflexivity.
        intros Himp v c Hv. apply Hrows; assumption.
      - destruct Hq as [Hq | (H1 & H2 & H3 & H4 & H5 & H6 & H7)]; [contradiction |].
        repeat split; try assumption.
        intros Himp v c Hv. apply Hkeep. intros c'. apply H7; assumption. }
    assert (Hfold : forall l s, Inv s -> forall q, (In q l \/ Facts s q) -> Facts (fold_left f l s) q).
    { induction l as [| i l IH]; intros s Hs q Hq; simpl.
      - destruct Hq as [[] | Hq]. exact Hq.
      - apply IH; [apply Hinv, Hs |].
        destruct Hq as [[-> | Hq] | Hq].
        + right. apply Hstep; [exact Hs | left; reflexivity].
        + left. exact Hq.
        + right. apply Hstep; [exact Hs | right; exact Hq]. }
    exact (Hfold vertex_nodes st (fun q => eq_refl) p (or_introl Hin)).
  Qed.
End FWH.

Import Examples.

(** Witness of C2: GMRES with the Jacobi preconditioner on the two-point
    example. *)
Lemma C2_witness :
  GMRES <> OTHER_LINEAR_SOLVER /\ JACOBI <> OTHER_PREC /\
  exists s st', ImplicitEuler_Iteration 1 ex_solve ex_geo (fun _ => 1%Z) GMRES JACOBI ex_state
                = Some ([s], st').
Proof.
  split; [discriminate | split; [discriminate |]].
  destruct (C2_implicit_euler_iteration 1 ex_solve ex_geo (fun _ => 1%Z) GMRES JACOBI ex_state)
    as (s & J2 & b2 & x2 & st' & _ & E & _); [discriminate | discriminate |].
  exists s, st'. exact E.
Defined.

(** Witness of C3: symmetric Gauss-Seidel on the two-point example. *)
Lemma C3_witness :
  SYM_GAUSS_SEIDEL <> OTHER_LINEAR_SOLVER /\ NO_PREC <> OTHER_PREC /\
  exists s st', Solve_LinearSystem 1 ex_solve ex_geo SYM_GAUSS_SEIDEL NO_PREC ex_state
                = Some ([s], st').
Proof.
  split; [discriminate | split; [discriminate |]].
  destruct (C3_solve_linear_system 1 ex_solve ex_geo SYM_GAUSS_SEIDEL NO_PREC ex_state)
    as (s & b & x & st' & _ & E & _); [discriminate | discriminate |].
  exists s, st'. exact E.
Defined.

(** C6 (counterexample). The owned point of the example enters each
    iteration with convective residual [1] and leaves it with the same
    value: none of the three iterations zeroes it. *)
Lemma C6_counterexample :
  ResConv (node (ExplicitEuler_Iteration 1 ex_geo (fun _ => 1%Z) ex_state) 0) 0 = 1%Z /\
  ResConv (node (ExplicitRK_Iteration 1 ex_geo (fun _ => 1%Z) 1%Z ex_state) 0) 0 = 1%Z /\
  match ImplicitEuler_Iteration 1 ex_solve ex_geo (fun _ => 1%Z) GMRES JACOBI ex_state with
  | Some (_, st') => ResConv (node st' 0) 0 = 1%Z
  | None => False
  end.
Proof. vm_compute. repeat split. Qed.

(** Witness of C10: the marker lists the owned point [0] and the halo
    point [1]; the halo point gets its jump [2] as solution. *)
Lemma C10_witness :
  Domain ex_geo 1 = false /\ In 1 [0; 1] /\
  Solution (node (BC_FWH 1 [0; 1] true ex_state) 1) = IntBoundary_Jump (node ex_state 1).
Proof.
  split; [reflexivity | split; [simpl; tauto |]].
  pose proof (C10_bc_fwh_every_vertex 1 [0; 1] true ex_state 1 ltac:(simpl; tauto)) as HC.
  cbv zeta in HC. exact (proj1 HC).
Defined.

End TimeIntFacts.

(** ** [BC_Inlet] under [TOTAL_CONDITIONS] *)

Module InletFacts.
Import Inlet.

Section InletFacts.
Context {F : Type} `{DoubleOps F}.
Variables (nDim nVar : nat) (Gamma Gamma_Minus_One Gas_Constant : F).

Lemma std_max_cases (a b : F) : std_max a b = b /\ flt a b = true \/ std_max a b = a.
  Proof. unfold std_max. destruct (flt a b) eqn:E; [left; split | right]; reflexivity. Qed.

Lemma std_min_cases (a b : F) : std_min a b = b /\ flt b a = true \/ std_min a b = a.
  Proof. unfold std_min. destruct (flt b a) eqn:E; [left; split | right]; reflexivity. Qed.

  (** C4: at every vertex the velocity magnitude is the [+] root
      [(-bb + sqrt(max(0, bb*bb - 4*aa*cc)))/(2*aa)] of the quadratic, floored
      by [max(0.0, .)] (so it is [0] or compares above [0]), and [Mach2] is
      [min(1.0, Velocity2/SoundSpeed2)] (so it is [1] or compares below [1])
      before the exterior state is rebuilt. *)
Theorem C4_inlet_plus_root_and_caps (U_domain UnitaryNormal Flow_Dir : nat -> F)
      (P_Total T_Total : F) :
    let out := inlet_total_conditions nDim nVar Gamma Gamma_Minus_One Gas_Constant
                 U_domain UnitaryNormal Flow_Dir P_Total T_Total in
    dd out = fsqrt (std_max f0 (fsub (fmul (bb out) (bb out)) (fmul (fmul (of_Q 4) (aa out)) (cc out)))) /\
    Vel_Mag_root out = fdiv (fadd (fopp (bb out)) (dd out)) (fmul (of_Q 2) (aa out)) /\
    Vel_Mag_floor out = std_max f0 (Vel_Mag_root out) /\
    (Vel_Mag_floor out = f0 \/
     (flt f0 (Vel_Mag_floor out) = true /\ Vel_Mag_floor out = Vel_Mag_root out)) /\
    Mach2 out = std_min f1 (Mach2_raw out) /\
    (Mach2 out = f1 \/ flt (Mach2 out) f1 = true).
  Proof.
    intros out.
    split; [reflexivity | split; [reflexivity | split; [reflexivity | split]]].
    - change (Vel_Mag_floor out) with (std_max f0 (Vel_Mag_root out)).
      destruct (std_max_cases f0 (Vel_Mag_root out)) as [[-> E] | ->].
      + right. split; [exact E | reflexivity].
      + left. reflexivity.
    - split; [reflexivity |].
      change (Mach2 out) with (std_min f1 (Mach2_raw out)).
      destruct (std_min_cases f1 (Mach2_raw out)) as [[-> E] | ->].
      + right. exact E.
      + left. reflexivity.
  Qed.
End InletFacts.

End InletFacts.

(** ** [BC_Outlet], incompressible level-set branch *)

Module OutletFacts.
Import Outlet.

(** C8: [RatioDensity] is never assigned in [BC_Outlet], yet it reaches the
    exterior state: at a vertex of height [2] above a free surface at [0]
    (band [epsilon = 1], free-stream density [1], [Froude = 1], free-surface
    pressure [0]) the imposed pressure and density differ for two values of
    the indeterminate [RatioDensity]. *)
Theorem C8_outlet_reads_unset_RatioDensity :
  exists R1 R2 : Z,
    (outlet_levelset_state 2 0 1 1 0 1 0 0 R1 0 <> outlet_levelset_state 2 0 1 1 0 1 0 0 R2 0)%Z.
Proof.
  exists 1%Z, 2%Z. vm_compute. intros E. discriminate E.
Qed.

End OutletFacts.

(** ** Second-order reconstruction in [Upwind_Residual] *)

Module MusclFacts.
Import Muscl.

Section MusclFacts.
Context {F : Type} `{DoubleOps F}.
Variables (nDim nVar : nat) (Coord_i Coord_j : nat -> F).
Variables (Gradient_i Gradient_j : nat -> nat -> F) (Limiter_i Limiter_j Psi_i Psi_j : nat -> F).

  (** The dimension loop computes both projected gradients and exits with
      [iDim = nDim]. *)
Lemma proj_loop_spec (iVar k iDim : nat) (PG_i PG_j : F) :
    iDim + k = nDim ->
    proj_loop nDim Coord_i Coord_j Gradient_i Gradient_j k iDim iVar PG_i PG_j =
    (fold_left (fun acc d => fadd acc (fmul (Vector_i Coord_i Coord_j d) (Gradient_i iVar d)))
       (seq iDim k) PG_i,
     fold_left (fun acc d => fadd acc (fmul (Vector_j Coord_i Coord_j d) (Gradient_j iVar d)))
       (seq iDim k) PG_j,
     nDim).
  Proof.
    revert iDim PG_i PG_j. induction k as [| k IH]; intros iDim PG_i PG_j Hk; simpl.
    - rewrite Nat.add_0_r in Hk. subst. reflexivity.
    - rewrite (proj2 (Nat.ltb_lt iDim nDim) ltac:(lia)). apply IH. lia.
  Qed.

Lemma muscl_var_limited (sol : (nat -> F) * (nat -> F)) (iVar : nat) :
    muscl_var nDim Coord_i Coord_j Gradient_i Gradient_j Limiter_i Limiter_j Psi_i Psi_j true sol iVar =
    (TimeInt.upd (fst sol) iVar
       (fadd (Psi_i iVar)
          (fmul (Project_Grad nDim (Vector_i Coord_i Coord_j) Gradient_i iVar) (Limiter_i nDim))),
     TimeInt.upd (snd sol) iVar
       (fadd (Psi_j iVar)
          (fmul (Project_Grad nDim (Vector_j Coord_i Coord_j) Gradient_j iVar) (Limiter_j nDim)))).
  Proof.
    destruct sol as [s_i s_j]. unfold muscl_var.
    rewrite (proj_loop_spec iVar nDim 0 f0 f0 eq_refl). reflexivity.
  Qed.

  (** C9: with the limiter on, every variable [iVar < nVar] of both
      reconstructed states is [Psi[iVar] + Project_Grad * Limiter[nDim]]:
      the limiter is read at the exit value [nDim] of the dimension loop,
      not at [iVar]. *)
Theorem C9_muscl_limiter_index_nDim (sol0 : (nat -> F) * (nat -> F)) (iVar : nat) :
    iVar < nVar ->
    let sol := muscl_reconstruct nDim nVar Coord_i Coord_j Gradient_i Gradient_j
                 Limiter_i Limiter_j Psi_i Psi_j true sol0 in
    fst sol iVar =
      fadd (Psi_i iVar) (fmul (Project_Grad nDim (Vector_i Coord_i Coord_j) Gradient_i iVar) (Limiter_i nDim)) /\
    snd sol iVar =
      fadd (Psi_j iVar) (fmul (Project_Grad nDim (Vector_j Coord_i Coord_j) Gradient_j iVar) (Limiter_j nDim)).
  Proof.
    intros Hv sol. subst sol. unfold muscl_reconstruct.
    assert (Hin : In iVar (seq 0 nVar)) by (apply in_seq; lia).
    assert (Hid : forall i, In i (seq 0 nVar) -> i = iVar -> i = iVar) by (intros; assumption).
    split.
    - rewrite (TimeIntFacts.fold_proj fst _ (fun g i => TimeInt.upd g i
                 (fadd (Psi_i i) (fmul (Project_Grad nDim (Vector_i Coord_i Coord_j) Gradient_i i) (Limiter_i nDim)))))
        by (intros s x; rewrite muscl_var_limited; reflexivity).
      exact (TimeIntFacts.upd_fold_hit (fun i => i) _ (seq 0 nVar) (fst sol0) iVar Hin Hid).
    - rewrite (TimeIntFacts.fold_proj snd _ (fun g i => TimeInt.upd g i
                 (fadd (Psi_j i) (fmul (Project_Grad nDim (Vector_j Coord_i Coord_j) Gradient_j i) (Limiter_j nDim)))))
        by (intros s x; rewrite muscl_var_limited; reflexivity).
      exact (TimeIntFacts.upd_fold_hit (fun i => i) _ (seq 0 nVar) (snd sol0) iVar Hin Hid).
  Qed.
End MusclFacts.

(** Witness of C9: two dimensions, four variables, variable [1]. *)
Lemma C9_witness :
  1 < 4 /\
  fst (muscl_reconstruct 2 4 (fun _ => 0%Z) (fun _ => 2%Z) (fun _ _ => 1%Z) (fun _ _ => 1%Z)
         (fun k => Z.of_nat k) (fun k => Z.of_nat k) (fun _ => 5%Z) (fun _ => 5%Z) true
         (fun _ => 0%Z, fun _ => 0%Z)) 1 = 5%Z.
Proof.
  split; [lia |].
  destruct (C9_muscl_limiter_index_nDim 2 4 (fun _ => 0%Z) (fun _ => 2%Z) (fun _ _ => 1%Z)
              (fun _ _ => 1%Z) (fun k => Z.of_nat k) (fun k => Z.of_nat k) (fun _ => 5%Z) (fun _ => 5%Z)
              (fun _ => 0%Z, fun _ => 0%Z) 1 ltac:(lia)) as [E _].
  rewrite E. vm_compute. reflexivity.
Defined.

End MusclFacts.

(** ** Sensitivity smoothing *)

Module SmoothFacts.
Import Qcanon Smooth.
Local Open Scope Qc_scope.

(** Row [k] of [A] is the [k]-th unit row. *)
Local Abbreviation unit_row_at A k := (forall c : nat, A k%nat c = if Nat.eqb c k then 1 else 0).

Lemma fold_pres {S X : Type} (P : S -> Prop) (f : S -> X -> S) (l : list X) (s : S) :
  P s -> (forall s x, In x l -> P s -> P (f s x)) -> P (fold_left f l s).
Proof. apply TimeIntFacts.fold_invariant. Qed.

(** One elimination step on row [i] with pivot row [j < i] keeps a unit row
    [k] and the entry [b k]: a row other than [i] is not written, and on
    row [k] itself the weight is [0 / A j j = 0]. *)
Lemma elim_step_unit_row (n i j k : nat) (A : nat -> nat -> Qc) (b : nat -> Qc) :
  (j < i)%nat -> unit_row_at A k ->
  unit_row_at (fst (elim_step n i j (A, b))) k /\ snd (elim_step n i j (A, b)) k = b k.
Proof.
  intros Hji HA. unfold elim_step. simpl.
  destruct (Nat.eq_dec i k) as [-> | Hik].
  - assert (Hw : A k j / A j j = 0).
    { rewrite HA, (proj2 (Nat.eqb_neq j k) ltac:(lia)). unfold Qcdiv. apply Qcmult_0_l. }
    rewrite Hw. split.
    + intros c.
      rewrite (fold_pres (fun A' => forall c, A' k c = A k c) _ _ A); [apply HA | reflexivity |].
      intros A' kk _ HA' c'. unfold updA. rewrite Nat.eqb_refl. simpl.
      destruct (Nat.eqb_spec c' kk) as [-> |]; [| apply HA'].
      rewrite HA'. ring.
    + unfold updV. rewrite Nat.eqb_refl. ring.
  - split.
    + intros c.
      rewrite (fold_pres (fun A' => forall c, A' k c = A k c) _ _ A); [apply HA | reflexivity |].
      intros A' kk _ HA' c'. unfold updA.
      rewrite (proj2 (Nat.eqb_neq k i) ltac:(lia)). apply HA'.
    + unfold updV. rewrite (proj2 (Nat.eqb_neq k i) ltac:(lia)). reflexivity.
Qed.

Lemma forward_elim_unit_row (n k : nat) (A : nat -> nat -> Qc) (b : nat -> Qc) :
  unit_row_at A k ->
  unit_row_at (fst (forward_elim n A b)) k /\ snd (forward_elim n A b) k = b k.
Proof.
  intros HA. unfold forward_elim.
  apply (fold_pres (fun Ab => unit_row_at (fst Ab) k /\ snd Ab k = b k)); [split; [exact HA | reflexivity] |].
  intros Ab i _ HAb.
  apply (fold_pres (fun Ab => unit_row_at (fst Ab) k /\ snd Ab k = b k)); [exact HAb |].
  intros [A' b'] j Hj [H1 H2]. apply in_seq in Hj.
  destruct (elim_step_unit_row n i j k A' b') as [E1 E2]; [lia | exact H1 |].
  split; [exact E1 | simpl in H2; rewrite E2; exact H2].
Qed.

Lemma back_sum_unit_row (n k : nat) (A : nat -> nat -> Qc) (b : nat -> Qc) :
  unit_row_at A k -> back_sum n k A b = 0.
Proof.
  intros HA. unfold back_sum.
  apply (fold_pres (fun acc => acc = 0)); [reflexivity |].
  intros acc j Hj E. apply in_seq in Hj.
  rewrite E, HA, (proj2 (Nat.eqb_neq j k) ltac:(lia)). ring.
Qed.

Lemma back_subst_unit_row (n k : nat) (A : nat -> nat -> Qc) (b : nat -> Qc) :
  unit_row_at A k -> back_subst n A b k = b k.
Proof.
  intros HA. unfold back_subst.
  apply (fold_pres (fun b' => b' k = b k)); [reflexivity |].
  intros b' i _ E. unfold updV.
  destruct (Nat.eqb_spec k i) as [-> | _]; [| exact E].
  rewrite back_sum_unit_row by exact HA.
  rewrite E, HA, Nat.eqb_refl. field. intros Z0; discriminate Z0.
Qed.

(** Gaussian elimination passes the right-hand side of a unit row through. *)
Lemma Gauss_Elimination_unit_row (A : nat -> nat -> Qc) (b : nat -> Qc) (n k : nat) :
  unit_row_at A k -> Gauss_Elimination A b n k = b k.
Proof.
  intros HA. unfold Gauss_Elimination.
  destruct (forward_elim_unit_row n k A b HA) as [H1 H2].
  destruct (forward_elim n A b) as [A' b']. simpl in H1, H2.
  rewrite back_subst_unit_row by exact H1. exact H2.
Qed.

Section Pin.
Variable sqrt : Qc -> Qc.
Variable pow : Qc -> Qc -> Qc.
Variable nVertex : nat.
Variable Coord : nat -> Qc * Qc.
Variable CSensitivity : nat -> Qc.

  (** The mass-matrix pass of vertex [i] writes row [i] only, at the columns
      [i], its left neighbour and its right neighbour (wrapping around at the
      two ends). *)
Lemma mass_row_frame (st : (nat -> nat -> Qc) * (Qc * Qc * Qc)) (i r c : nat) :
    (i <> r \/ (c <> i /\ c <> (if Nat.eqb i 0 then nVertex - 1 else i - 1) /\
                c <> (if Nat.eqb i (nVertex - 1) then 0 else S i)))%nat ->
    fst (mass_row sqrt pow nVertex Coord st i) r c = fst st r c.
  Proof.
    destruct st as [A [[BD FD] CD]]. unfold mass_row. revert BD FD CD.
    destruct (Nat.eqb_spec i (nVertex - 1)), (Nat.eqb_spec i 0);
      intros BD FD CD Hc; cbv beta iota zeta delta [negb andb fst]; unfold updA;
      repeat match goal with |- context [Nat.eqb ?a ?b] => destruct (Nat.eqb_spec a b) end;
      simpl; (reflexivity || (exfalso; lia)).
  Qed.

Lemma matrix_row_zero (k c : nat) :
    (0 < k)%nat -> (S k < nVertex)%nat -> c <> k -> c <> (k - 1)%nat -> c <> S k ->
    smoothing_matrix sqrt pow nVertex Coord k c = 0.
  Proof.
    intros Hk0 Hk1 Hc0 Hc1 Hc2. unfold smoothing_matrix.
    assert (Hm : forall st, fst st k c = 0 ->
              fst (fold_left (mass_row sqrt pow nVertex Coord) (seq 0 nVertex) st) k c = 0).
    { intros st0 H0.
      apply (fold_pres (fun st => fst st k c = 0)); [exact H0 |].
      intros st i _ Hs. rewrite mass_row_frame; [exact Hs |].
      destruct (Nat.eq_dec i k) as [-> | Hik]; [right | left; exact Hik].
      rewrite (proj2 (Nat.eqb_neq k 0) ltac:(lia)), (proj2 (Nat.eqb_neq k (nVertex - 1)) ltac:(lia)).
      lia. }
    specialize (Hm (fun _ _ => 0, (0, 0, 0)) eq_refl).
    destruct (fold_left (mass_row sqrt pow nVertex Coord) (seq 0 nVertex) (fun _ _ => 0, (0, 0, 0)))
      as [A rest]. simpl in Hm.
    apply (fold_pres (fun A' => A' k c = 0)); [exact Hm |].
    intros A' i _ HA'. unfold updA.
    destruct (Nat.eqb_spec k i), (Nat.eqb_spec c i); simpl; try exact HA'. lia.
  Qed.

  (** C7: on a marker of at least three vertices the smoothing succeeds and
      the smoothed sensitivity at the pinned vertex [nVertex/2] is its value
      right before the diffusion solve (the right-hand side [b]): the pin
      turns that row into a unit row, and the elimination carries its
      right-hand side through unchanged. The arithmetic is exact: doubles
      are rationals here, so the NaN and infinity cases of IEEE arithmetic
      (a zero pivot, a zero arch-length step) are not part of the model. *)
Theorem C7_smoothing_keeps_pinned_vertex :
    (3 <= nVertex)%nat ->
    exists out,
      Smooth_Sensitivity_marker sqrt pow nVertex Coord CSensitivity = Some out /\
      out (Nat.div nVertex 2) = smoothing_rhs sqrt pow nVertex Coord CSensitivity (Nat.div nVertex 2).
  Proof.
    intros Hn.
    set (k := Nat.div nVertex 2).
    assert (Hk : (0 < k /\ S k < nVertex)%nat).
    { pose proof (Nat.div_mod_eq nVertex 2) as E. pose proof (Nat.mod_upper_bound nVertex 2) as M.
      fold k in E. lia. }
    unfold Smooth_Sensitivity_marker, pin_midpoint. fold k.
    rewrite (proj2 (Nat.ltb_lt (S k) nVertex) (proj2 Hk)),
            (proj2 (Nat.eqb_neq k 0) ltac:(lia)).
    simpl. eexists. split; [reflexivity |].
    apply Gauss_Elimination_unit_row.
    intros c. unfold updA.
    rewrite Nat.eqb_refl. cbn [andb].
    destruct (Nat.eqb_spec c (k - 1)) as [-> |]; cbn [andb].
    - rewrite (proj2 (Nat.eqb_neq (k - 1) k) ltac:(lia)). reflexivity.
    - destruct (Nat.eqb_spec c (S k)) as [-> |]; cbn [andb].
      + rewrite (proj2 (Nat.eqb_neq (S k) k) ltac:(lia)). reflexivity.
      + destruct (Nat.eqb_spec c k) as [-> |]; cbn [andb]; [reflexivity |].
        apply matrix_row_zero; lia.
  Qed.
End Pin.

(** Witness of C7: three vertices on a straight line. *)
Lemma C7_witness :
  (3 <= 3)%nat /\
  exists out, Smooth_Sensitivity_marker (fun x => x) (fun x _ => x) 3
                (fun i => (qc (Z.of_nat i # 1), 0)) (fun i => qc (Z.of_nat i # 1)) = Some out.
Proof.
  split; [lia |].
  destruct (C7_smoothing_keeps_pinned_vertex (fun x => x) (fun x _ => x) 3
              (fun i => (qc (Z.of_nat i # 1), 0)) (fun i => qc (Z.of_nat i # 1)) ltac:(lia))
    as [out [E _]].
  exists out. exact E.
Defined.

End SmoothFacts.

(** ** Restart of the adjoint solution *)

Module RestartFacts.
Import Restart.

Lemma AdjExt_NoDup : NoDup (map AdjExt all_ObjFunc).
Proof.
  vm_compute.
  repeat constructor; simpl; intros Hin;
    repeat (destruct Hin as [Hin | Hin]; [discriminate Hin |]); exact Hin.
Qed.

Lemma all_ObjFunc_complete (k : Kind_ObjFunc) : In k all_ObjFunc.
Proof. destruct k; simpl; tauto. Qed.

Section RestartFacts.
Context {F : Type}.
Variable nDim : nat.
Variable incompressible : bool.

  (** [Global2Local] only maps a global index to an owned point with that
      index, and maps the index of an owned point to it when no other owned
      point shares the index. *)
Lemma Global2Local_sound (geo : RestartGeometry) (g q : nat) :
    Global2Local geo g = Some q -> GlobalIndex geo q = g.
  Proof.
    unfold Global2Local.
    apply (TimeIntFacts.fold_invariant (fun G => forall g q, G g = Some q -> GlobalIndex geo q = g)
             _ _ (fun _ => None)); [discriminate |].
    intros G i _ HG g' q' E. destruct (Nat.eqb_spec g' (GlobalIndex geo i)) as [-> | _].
    - injection E as <-. reflexivity.
    - exact (HG g' q' E).
  Qed.

Lemma Global2Local_owned (geo : RestartGeometry) (p : nat) :
    p < nPointDomain geo ->
    (forall q, q < nPointDomain geo -> GlobalIndex geo q = GlobalIndex geo p -> q = p) ->
    Global2Local geo (GlobalIndex geo p) = Some p.
  Proof.
    intros Hp Hinj.
    exact (TimeIntFacts.upd_fold_hit (GlobalIndex geo) Some (seq 0 (nPointDomain geo))
             (fun _ => None) p (proj2 (in_seq _ _ _) (conj (Nat.le_0_l p) Hp))
             (fun q Hq E => Hinj q (proj2 (proj1 (in_seq _ _ _) Hq)) E)).
  Qed.

  (** The line loop: with no more lines than global points and every line
      holding the index and [nRead] components, every owned point met gets
      the components of its line, and the others keep their entry. *)
Lemma read_body_spec (geo : RestartGeometry) (G : nat -> option nat) :
    (forall g g' p, G g = Some p -> G g' = Some p -> g = g') ->
    forall (body : list (list F)) (i0 : nat) (Sol : nat -> F) (node : nat -> option (nat -> F)),
    i0 + List.length body <= Global_nPointDomain geo ->
    (forall line, In line body -> nRead nDim incompressible < List.length line) ->
    exists Sol' node',
      read_body nDim incompressible geo G i0 body Sol node = Some (Sol', node') /\
      (forall p, (forall g, i0 <= g < i0 + List.length body -> G g <> Some p) -> node' p = node p) /\
      (forall g p, i0 <= g < i0 + List.length body -> G g = Some p ->
         exists sol, node' p = Some sol /\
           forall c, c < nRead nDim incompressible ->
             nth_error (nth (g - i0) body []) (S c) = Some (sol c)).
  Proof.
    intros HG body. induction body as [| line rest IH]; intros i0 Sol node Hlen Hfull.
    - exists Sol, node. split; [reflexivity | split; [reflexivity |]].
      intros g p Hg. simpl in Hg. lia.
    - simpl in Hlen. simpl read_body.
      rewrite (proj2 (Nat.leb_nle (Global_nPointDomain geo) i0) ltac:(lia)).
      assert (Hrest : forall l, In l rest -> nRead nDim incompressible < List.length l)
        by (intros l Hl; apply Hfull; right; exact Hl).
      assert (Hline : forall c, c < nRead nDim incompressible ->
                nth_error line (S c) = Some (read_line nDim incompressible line Sol c)).
      { intros c Hc. unfold read_line. rewrite (proj2 (Nat.ltb_lt c _) Hc).
        destruct (nth_error line (S c)) eqn:E; [reflexivity |].
        apply nth_error_None in E. specialize (Hfull line (or_introl eq_refl)). lia. }
      destruct (G i0) as [q |] eqn:Hq.
      + destruct (IH (S i0) (read_line nDim incompressible line Sol)
                    (fun p => if Nat.eqb p q then Some (read_line nDim incompressible line Sol) else node p)
                    ltac:(lia) Hrest) as (Sol' & node' & Hr & Hkeep & Hset).
        exists Sol', node'. split; [exact Hr | split].
        * intros p Hp. rewrite Hkeep.
          -- destruct (Nat.eqb_spec p q) as [-> |]; [| reflexivity].
             exfalso. apply (Hp i0); [simpl; lia | exact Hq].
          -- intros g Hg. apply Hp. simpl. lia.
        * intros g p Hg Hgp.
          destruct (Nat.eq_dec g i0) as [-> | Hgi].
          -- rewrite Hq in Hgp. injection Hgp as <-.
             exists (read_line nDim incompressible line Sol). split.
             ++ rewrite Hkeep; [rewrite Nat.eqb_refl; reflexivity |].
                intros g' Hg' E. pose proof (HG _ _ _ Hq E). lia.
             ++ rewrite Nat.sub_diag. exact Hline.
          -- destruct (Hset g p ltac:(simpl in Hg; lia) Hgp) as (sol & Hs & Hc).
             exists sol. split; [exact Hs |].
             replace (g - i0) with (S (g - S i0)) by lia. exact Hc.
      + destruct (IH (S i0) Sol node ltac:(lia) Hrest) as (Sol' & node' & Hr & Hkeep & Hset).
        exists Sol', node'. split; [exact Hr | split].
        * intros p Hp. apply Hkeep. intros g Hg. apply Hp. simpl. lia.
        * intros g p Hg Hgp.
          destruct (Nat.eq_dec g i0) as [-> | Hgi]; [congruence |].
          destruct (Hset g p ltac:(simpl in Hg; lia) Hgp) as (sol & Hs & Hc).
          exists sol. split; [exact Hs |].
          replace (g - i0) with (S (g - S i0)) by lia. exact Hc.
  Qed.

  (** C5: with a configured name of at least four characters, the restart
      file is that name minus its last four characters followed by the
      suffix of the objective ([_cd.dat] for drag, [_cl.dat] for lift,
      [_fwh.dat] for noise; eighteen objectives with eighteen distinct
      suffixes). If the file does not open, the two messages are printed and
      the process exits with code 1. Otherwise the header line is skipped
      and the [n]-th following line is read for the owned point of global
      index [n]: with one line per global point, each line holding the index
      and [nRead] components ([nVar] of them in 2D and 3D), every owned
      point gets the components of its line. *)
Theorem C5_restart_file (open : string -> option (list (list F))) (geo : RestartGeometry)
      (mesh_filename : string) (k : Kind_ObjFunc) (Solution0 : nat -> F) :
    4 <= String.length mesh_filename ->
    let filename := (substring 0 (String.length mesh_filename - 4) mesh_filename ++ AdjExt k)%string in
    restart_filename mesh_filename k = Some filename /\
    AdjExt DRAG_COEFFICIENT = "_cd.dat"%string /\ AdjExt LIFT_COEFFICIENT = "_cl.dat"%string /\
    AdjExt NOISE = "_fwh.dat"%string /\
    List.length all_ObjFunc = 18 /\ (forall k', In k' all_ObjFunc) /\ NoDup (map AdjExt all_ObjFunc) /\
    (open filename = None ->
       restart nDim incompressible open geo mesh_filename k Solution0 = Exit no_file_messages 1) /\
    ((nDim = 2 \/ nDim = 3) ->
       nRead nDim incompressible = if incompressible then nDim + 1 else nDim + 2) /\
    (forall header body, open filename = Some (header :: body) ->
       List.length body <= Global_nPointDomain geo ->
       (forall line, In line body -> nRead nDim incompressible < List.length line) ->
       (forall p, p < nPointDomain geo -> GlobalIndex geo p < List.length body) ->
       (forall p q, p < nPointDomain geo -> q < nPointDomain geo ->
          GlobalIndex geo q = GlobalIndex geo p -> q = p) ->
       exists node,
         restart nDim incompressible open geo mesh_filename k Solution0 = Loaded node /\
         forall p, p < nPointDomain geo ->
           exists sol, node p = Some sol /\
             forall c, c < nRead nDim incompressible ->
               nth_error (nth (GlobalIndex geo p) body []) (S c) = Some (sol c)).
  Proof.
    intros Hlen filename.
    assert (Hname : restart_filename mesh_filename k = Some filename).
    { unfold restart_filename. rewrite (proj2 (Nat.ltb_nlt (String.length mesh_filename) 4) ltac:(lia)). reflexivity. }
    split; [exact Hname |].
    split; [reflexivity | split; [reflexivity | split; [reflexivity | split; [reflexivity |]]]].
    split; [exact all_ObjFunc_complete | split; [exact AdjExt_NoDup |]].
    split; [| split].
    - intros Hopen. unfold restart. rewrite Hname, Hopen. reflexivity.
    - intros [-> | ->]; destruct incompressible; reflexivity.
    - intros header body Hopen Hbody Hfull Hidx Hinj.
      destruct (read_body_spec geo (Global2Local geo)
                  (fun g g' p E E' => eq_trans (eq_sym (Global2Local_sound geo g p E))
                                               (Global2Local_sound geo g' p E'))
                  body 0 Solution0 (fun _ => None) Hbody Hfull)
        as (Sol' & node' & Hr & _ & Hset).
      unfold restart. rewrite Hname, Hopen. simpl tl. rewrite Hr.
      eexists. split; [reflexivity |].
      intros p Hp.
      cbv beta. rewrite (proj2 (Nat.leb_nle (nPointDomain geo) p) ltac:(lia)). simpl.
      destruct (Hset (GlobalIndex geo p) p ltac:(specialize (Hidx p Hp); lia)
                  (Global2Local_owned geo p Hp (fun q Hq E => Hinj p q Hp Hq E)))
        as (sol & Hs & Hc).
      exists sol. split; [exact Hs |].
      rewrite Nat.sub_0_r in Hc. exact Hc.
  Qed.
End RestartFacts.

Import Examples.

(** Witness of C5: the file [sol.dat] of the example, drag objective, 2D
    compressible flow. *)
Lemma C5_witness :
  4 <= String.length "sol.dat" /\
  restart_filename "sol.dat" DRAG_COEFFICIENT = Some "sol_cd.dat"%string /\
  exists node, restart 2 false ex_open ex_rgeo "sol.dat" DRAG_COEFFICIENT (fun _ => 0%Z) = Loaded node.
Proof.
  pose proof (C5_restart_file 2 false ex_open ex_rgeo "sol.dat" DRAG_COEFFICIENT (fun _ => 0%Z)
                ltac:(vm_compute; lia)) as HC.
  cbv zeta in HC. destruct HC as (Hname & _ & _ & _ & _ & _ & _ & _ & _ & Hread).
  split; [vm_compute; lia | split; [exact Hname |]].
  destruct (Hread [0%Z] [[0%Z; 1%Z; 2%Z; 3%Z; 4%Z]] eq_refl) as (node & Hr & _).
  - simpl. lia.
  - intros line [<- | []]. vm_compute. lia.
  - intros p Hp. simpl in *. lia.
  - intros p q Hp Hq E. exact E.
  - exists node. exact Hr.
Defined.

End RestartFacts.

(** ** Residual assembly: call counts *)
Module AssemblyExtraFacts.
Import Assembly ViscousNS.

Lemma length_flat_map_seq {A : Type} (f : nat -> list A) (k lo n : nat) :
  (forall e, List.length (f e) = k) -> List.length (flat_map f (seq lo n)) = n * k.
Proof.
  intros Hf. revert lo. induction n as [| n IH]; intros lo; [reflexivity |].
  simpl. rewrite length_app, Hf, IH. lia.
Qed.

Section Counts.
Context {V B : Type}.
Variable nEdge : nat.
Variable edge_node : nat -> nat * nat.
Variable centered_numerics : nat -> CenteredOut V B.
Variable upwind_numerics : nat -> UpwindOut V B.
Variable viscous_numerics : nat -> ViscousOut V B.

  (** X1: the edge loops make a fixed number of collaborator calls per
      edge: the centered residual 2 convective updates, 2 more viscous ones
      when the Runge-Kutta beta coefficient is nonzero or the scheme is
      implicit, and 4 block updates when implicit; the continuous upwind
      residual 2 updates and 4 block updates when implicit; the discrete
      upwind residual 4 block updates, and none at all with a second-order
      upwind scheme on the finest mesh. *)
Theorem X1_residual_call_counts (cfg : AsmConfig) :
    List.length (Centered_Residual nEdge edge_node centered_numerics cfg) =
      nEdge * (2 + (if beta_rk_nonzero cfg || implicit cfg then 2 else 0)
                 + (if implicit cfg then 4 else 0)) /\
    List.length (Upwind_Residual nEdge edge_node upwind_numerics cfg) =
      nEdge * (if discrete cfg then (if upwind_2nd cfg && mesh0 cfg then 0 else 4)
               else 2 + (if implicit cfg then 4 else 0)).
  Proof.
    split; apply length_flat_map_seq; intros e.
    - unfold centered_edge. destruct (edge_node e).
      destruct (beta_rk_nonzero cfg || implicit cfg), (implicit cfg); reflexivity.
    - unfold upwind_edge. destruct (edge_node e).
      destruct (discrete cfg), (upwind_2nd cfg && mesh0 cfg), (implicit cfg); reflexivity.
  Qed.

  (** X2: the viscous residual of the Navier-Stokes adjoint makes no call
      unless the Runge-Kutta beta coefficient is nonzero or the scheme is
      implicit, and then 2 calls per edge plus 4 block calls when implicit.
      It never updates a convective residual, and every call it makes to a
      residual or a block row subtracts at the first node of its edge or
      adds at the second one. *)
Theorem X2_viscous_residual_calls (implicit beta_rk_nonzero : bool) :
    let ops := Viscous_Residual nEdge edge_node viscous_numerics implicit beta_rk_nonzero in
    List.length ops = (if beta_rk_nonzero || implicit
                  then nEdge * (2 + (if implicit then 4 else 0)) else 0) /\
    (forall op, In op ops ->
       exists e, e < nEdge /\
         match op with
         | SubtractRes_Visc p _ | SubtractBlock p _ _ => p = fst (edge_node e)
         | AddRes_Visc p _ | AddBlock p _ _ => p = snd (edge_node e)
         | SubtractRes_Conv _ _ | AddRes_Conv _ _ => False
         end).
  Proof.
    cbv zeta. unfold Viscous_Residual. split.
    - destruct (beta_rk_nonzero || implicit); [| reflexivity].
      apply length_flat_map_seq. intros e. unfold viscous_edge.
      destruct (edge_node e). destruct implicit; reflexivity.
    - destruct (beta_rk_nonzero || implicit); [| contradiction].
      intros op Hop. apply in_flat_map in Hop. destruct Hop as [e [He Hin]].
      apply in_seq in He. exists e. split; [lia |].
      unfold viscous_edge in Hin. destruct (edge_node e) as [i j] eqn:E. simpl.
      destruct implicit; simpl in Hin;
        repeat (destruct Hin as [<- | Hin]; [reflexivity |]); contradiction.
  Qed.
End Counts.

End AssemblyExtraFacts.

(** ** Time integration: solvers, explicit updates and frames *)
Module TimeIntExtraFacts.
Import TimeInt TimeIntFacts NodeVarRel.

Section Solvers.
Context {F : Type} `{DoubleOps F}.
Variable nVar : nat.
Variable linear_solve : Strategy -> (nat -> nat -> F) -> (nat -> F) -> (nat -> F) -> (nat -> F).

Lemma dispatch_none_iff (kind : Kind_Linear_Solver) (prec : Kind_Linear_Solver_Prec)
      (flag : bool) (J : nat -> nat -> F) (b x : nat -> F) :
    dispatch linear_solve kind prec flag J b x = None <->
    prec = OTHER_PREC /\ (kind = BCGSTAB \/ kind = GMRES).
  Proof.
    destruct kind, prec; simpl; split; intros Hd;
      solve [discriminate | reflexivity | auto | destruct Hd as [Hp Hk]; first [discriminate Hp | destruct Hk; discriminate]].
  Qed.

Lemma dispatch_other (prec : Kind_Linear_Solver_Prec) (flag : bool)
      (J : nat -> nat -> F) (b x : nat -> F) :
    dispatch linear_solve OTHER_LINEAR_SOLVER prec flag J b x = Some ([], x).
  Proof. reflexivity. Qed.

  (** X3: with a linear-solver kind that none of the dispatch branches
      names, the implicit Euler iteration calls no solver and adds the zero
      guess it set up to the solution of every owned point, and the
      discrete-adjoint solve calls no solver and sets the solution of every
      owned point to that zero guess. *)
Theorem X3_unknown_linear_solver (geo : Geometry F) (Delta_Time : nat -> F)
      (prec : Kind_Linear_Solver_Prec) (st : State F) :
    (exists st', ImplicitEuler_Iteration nVar linear_solve geo Delta_Time OTHER_LINEAR_SOLVER prec st
                 = Some ([], st') /\
       forall p v, p < nPointDomain geo -> v < nVar ->
         Solution (node st' p) v = fadd (Solution (node st p) v) f0) /\
    (exists st', Solve_LinearSystem nVar linear_solve geo OTHER_LINEAR_SOLVER prec st
                 = Some ([], st') /\
       forall p v, p < nPointDomain geo -> v < nVar -> Solution (node st' p) v = f0).
  Proof.
    split.
    - pose proof (implicit_build nVar geo Delta_Time st) as HB. cbv zeta in HB.
      destruct HB as [Hn1 [Hb1 _]].
      unfold ImplicitEuler_Iteration. cbv zeta.
      set (st1 := for_loop 0 (nPointDomain geo) _ st) in *.
      pose proof (implicit_halo nVar (nPointDomain geo) (nPoint geo - nPointDomain geo) st1) as HH.
      cbv zeta in HH. destruct HH as [Hn2 [_ [_ Ho2]]].
      set (st2 := for_loop (nPointDomain geo) _ _ st1) in *.
      rewrite dispatch_other.
      destruct (solution_loop nVar fadd AddSolution (nPointDomain geo) (with_xsol st2 (xsol st2))
                  (fun _ _ _ => eq_refl)) as [Hx4 [_ Hs4]].
      eexists. split; [reflexivity |].
      intros p v Hp Hv. rewrite Hs4 by assumption. simpl.
      destruct (Ho2 p v Hp Hv) as [_ E]. rewrite E, Hn2, Hn1.
      rewrite (proj2 (Hb1 p v Hp Hv)). reflexivity.
    - unfold Solve_LinearSystem. cbv zeta.
      set (body := fun iPoint s =>
          for_loop 0 nVar (fun iVar s1 =>
            with_xsol_at (with_rhs s1 (iPoint * nVar + iVar) (ObjFuncSource (node s iPoint) iVar))
              (iPoint * nVar + iVar) f0) s : State F).
      destruct (block_loop nVar xsol body (fun _ _ => f0) (fun _ => True) 0 (nPointDomain geo) st)
        as [_ [Hx _]].
      + exact I.
      + intros; exact I.
      + intros p s v _ Hv. subst body. cbv beta.
        exact (proj2 (proj1 (proj2 (proj2 (inner_write nVar p (ObjFuncSource (node s p)) _ s
                 (fun _ _ => eq_refl)))) v Hv)).
      + intros p s k _ Hk. subst body. cbv beta.
        exact (proj2 (proj2 (proj2 (proj2 (inner_write nVar p (ObjFuncSource (node s p)) _ s
                 (fun _ _ => eq_refl)))) k Hk)).
      + fold body. set (st1 := for_loop 0 (nPointDomain geo) body st) in *.
        rewrite dispatch_other.
        destruct (solution_loop nVar (fun _ x => x) SetSolution_i (nPointDomain geo)
                    (with_xsol st1 (xsol st1)) (fun _ _ _ => eq_refl)) as [_ [_ Hs4]].
        eexists. split; [reflexivity |].
        intros p v Hp Hv. rewrite Hs4 by assumption. simpl. apply Hx; lia.
  Qed.

  (** X4: the implicit Euler iteration and the discrete-adjoint solve fail
      (the null preconditioner is dereferenced) exactly when a Krylov
      method, BCGSTAB or FGMRES, is configured with a preconditioner kind
      that none of the branches names; in every other configuration they
      return a new state. *)
Theorem X4_drivers_fail_iff (geo : Geometry F) (Delta_Time : nat -> F)
      (kind : Kind_Linear_Solver) (prec : Kind_Linear_Solver_Prec) (st : State F) :
    (ImplicitEuler_Iteration nVar linear_solve geo Delta_Time kind prec st = None <->
       prec = OTHER_PREC /\ (kind = BCGSTAB \/ kind = GMRES)) /\
    (Solve_LinearSystem nVar linear_solve geo kind prec st = None <->
       prec = OTHER_PREC /\ (kind = BCGSTAB \/ kind = GMRES)).
  Proof.
    split.
    - unfold ImplicitEuler_Iteration. cbv zeta.
      match goal with |- context [dispatch linear_solve kind prec false ?J ?b ?x] =>
        rewrite <- (dispatch_none_iff kind prec false J b x);
        destruct (dispatch linear_solve kind prec false J b x) as [[c y] |] end;
      split; intros E; first [discriminate | reflexivity].
    - unfold Solve_LinearSystem. cbv zeta.
      match goal with |- context [dispatch linear_solve kind prec true ?J ?b ?x] =>
        rewrite <- (dispatch_none_iff kind prec true J b x);
        destruct (dispatch linear_solve kind prec true J b x) as [[c y] |] end;
      split; intros E; first [discriminate | reflexivity].
  Qed.
End Solvers.

Section Explicit.
Context {F : Type} `{DoubleOps F}.
Variable nVar : nat.





End Explicit.

Section Frames.
Context {F : Type} `{DoubleOps F}.
Variable nVar : nat.

Lemma fwh_rows_frame (p : nat) (s0 : State F) :
    let s' := for_loop 0 nVar (fun iVar s =>
                with_Jacobian s (DeleteValsRowi (Jacobian s) (p * nVar + iVar))) s0 in
    node s' = node s0 /\ rhs s' = rhs s0 /\ xsol s' = xsol s0 /\
    (forall r c, (forall v, v < nVar -> r <> p * nVar + v) -> Jacobian s' r c = Jacobian s0 r c).
  Proof.
    intros s'.
    apply (for_loop_ind (fun n s =>
      node s = node s0 /\ rhs s = rhs s0 /\ xsol s = xsol s0 /\
      (forall r c, (forall v, v < nVar -> r <> p * nVar + v) -> Jacobian s r c = Jacobian s0 r c))).
    - repeat split; intros; reflexivity.
    - intros n s Hn (Hnd & Hr & Hx & HJ). simpl.
      split; [exact Hnd | split; [exact Hr | split; [exact Hx |]]].
      intros r c Hrow. unfold DeleteValsRowi.
      destruct (Nat.eqb_spec r (p * nVar + n)) as [E | _].
      + exfalso. exact (Hrow n Hn E).
      + apply HJ, Hrow.
  Qed.

  (** X7: [Preprocessing] touches only the residual accumulators and the
      Jacobian: the solution, old solution, truncation error, residual,
      objective-function source and boundary jump of every point stay as
      they were, the viscous residual too unless the Runge-Kutta beta
      coefficient is nonzero or the scheme is implicit, points beyond
      [nPoint] are untouched, [rhs] and [xsol] are unchanged, and the
      Jacobian is zeroed exactly when the scheme is implicit or the adjoint
      is discrete. *)
Theorem X7_preprocessing_frame (geo : Geometry F) (implicit beta_rk_nonzero discrete : bool)
      (st : State F) :
    let st' := Preprocessing geo implicit beta_rk_nonzero discrete st in
    rhs st' = rhs st /\ xsol st' = xsol st /\
    (forall r c, Jacobian st' r c = if implicit || discrete then f0 else Jacobian st r c) /\
    (forall q, nPoint geo <= q -> node st' q = node st q) /\
    (forall q, Solution (node st' q) = Solution (node st q) /\
               Solution_Old (node st' q) = Solution_Old (node st q) /\
               Res_TruncError (node st' q) = Res_TruncError (node st q) /\
               Residual (node st' q) = Residual (node st q) /\
               ObjFuncSource (node st' q) = ObjFuncSource (node st q) /\
               IntBoundary_Jump (node st' q) = IntBoundary_Jump (node st q)) /\
    (beta_rk_nonzero || implicit = false -> forall q, ResVisc (node st' q) = ResVisc (node st q)).
  Proof.
    intros st'.
    set (st1 := for_loop 0 (nPoint geo) (fun iPoint s =>
        let nv := Set_ResSour_Zero (Set_ResConv_Zero (node s iPoint)) in
        let nv := if beta_rk_nonzero || implicit then Set_ResVisc_Zero nv else nv in
        with_node s iPoint nv) st).
    assert (H1 : rhs st1 = rhs st /\ xsol st1 = xsol st /\ Jacobian st1 = Jacobian st /\
      (forall q, nPoint geo <= q -> node st1 q = node st q) /\
      (forall q, Solution (node st1 q) = Solution (node st q) /\
                 Solution_Old (node st1 q) = Solution_Old (node st q) /\
                 Res_TruncError (node st1 q) = Res_TruncError (node st q) /\
                 Residual (node st1 q) = Residual (node st q) /\
                 ObjFuncSource (node st1 q) = ObjFuncSource (node st q) /\
                 IntBoundary_Jump (node st1 q) = IntBoundary_Jump (node st q)) /\
      (beta_rk_nonzero || implicit = false -> forall q, ResVisc (node st1 q) = ResVisc (node st q))).
    { subst st1.
      apply (for_loop_ind (fun n s =>
        rhs s = rhs st /\ xsol s = xsol st /\ Jacobian s = Jacobian st /\
        (forall q, n <= q -> node s q = node st q) /\
        (forall q, Solution (node s q) = Solution (node st q) /\
                   Solution_Old (node s q) = Solution_Old (node st q) /\
                   Res_TruncError (node s q) = Res_TruncError (node st q) /\
                   Residual (node s q) = Residual (node st q) /\
                   ObjFuncSource (node s q) = ObjFuncSource (node st q) /\
                   IntBoundary_Jump (node s q) = IntBoundary_Jump (node st q)) /\
        (beta_rk_nonzero || implicit = false -> forall q, ResVisc (node s q) = ResVisc (node st q)))).
      - repeat split; intros; reflexivity.
      - intros n s Hn (Hr & Hx & HJ & Hhi & Hf & Hv). simpl.
        split; [exact Hr | split; [exact Hx | split; [exact HJ | split]]].
        + intros q Hq. unfold upd. destruct (Nat.eqb_spec q n); [lia | apply Hhi; lia].
        + split.
          * intros q. unfold upd. destruct (Nat.eqb_spec q n) as [-> | _]; [| apply Hf].
            destruct (beta_rk_nonzero || implicit); apply Hf.
          * intros Hb q. unfold upd. destruct (Nat.eqb_spec q n) as [-> | _]; [| apply Hv, Hb].
            rewrite Hb. apply Hv, Hb. }
    destruct H1 as (Hr & Hx & HJ & Hhi & Hf & Hv).
    subst st'. unfold Preprocessing. fold st1.
    destruct (implicit || discrete).
    - split; [exact Hr | split; [exact Hx | split; [intros; reflexivity | split; [exact Hhi | split; [exact Hf | exact Hv]]]]].
    - split; [exact Hr | split; [exact Hx | split; [intros; rewrite HJ; reflexivity |
        split; [exact Hhi | split; [exact Hf | exact Hv]]]]].
  Qed.

  (** X8: [BC_FWH] leaves alone everything outside the vertices of its
      marker: unlisted points keep their node records, the residual,
      objective-function source and boundary jump of every point are kept,
      [rhs] and [xsol] are unchanged, the Jacobian is unchanged with an
      explicit scheme and, with an implicit one, only the rows of the
      listed points' blocks change. *)
Theorem X8_bc_fwh_frame (vertex_nodes : list nat) (implicit : bool) (st : State F) :
    let st' := BC_FWH nVar vertex_nodes implicit st in
    rhs st' = rhs st /\ xsol st' = xsol st /\
    (forall q, ~ In q vertex_nodes -> node st' q = node st q) /\
    (forall q, Residual (node st' q) = Residual (node st q) /\
               ObjFuncSource (node st' q) = ObjFuncSource (node st q) /\
               IntBoundary_Jump (node st' q) = IntBoundary_Jump (node st q)) /\
    (implicit = false -> Jacobian st' = Jacobian st) /\
    (forall r c, (forall p v, In p vertex_nodes -> v < nVar -> r <> p * nVar + v) ->
       Jacobian st' r c = Jacobian st r c).
  Proof.
    intros st'. subst st'. unfold BC_FWH.
    apply (fold_invariant (fun s =>
      rhs s = rhs st /\ xsol s = xsol st /\
      (forall q, ~ In q vertex_nodes -> node s q = node st q) /\
      (forall q, Residual (node s q) = Residual (node st q) /\
                 ObjFuncSource (node s q) = ObjFuncSource (node st q) /\
                 IntBoundary_Jump (node s q) = IntBoundary_Jump (node st q)) /\
      (implicit = false -> Jacobian s = Jacobian st) /\
      (forall r c, (forall p v, In p vertex_nodes -> v < nVar -> r <> p * nVar + v) ->
         Jacobian s r c = Jacobian st r c))).
    - repeat split; intros; reflexivity.
    - intros s i Hi (Hr & Hx & Hn & Hf & HJ & Hrow). cbv beta zeta.
      match goal with |- context [if implicit then for_loop 0 nVar ?b ?s1 else ?s1] =>
        set (s1' := s1);
        assert (E : node s1' = node (if implicit then for_loop 0 nVar b s1' else s1') /\
                    rhs s1' = rhs (if implicit then for_loop 0 nVar b s1' else s1') /\
                    xsol s1' = xsol (if implicit then for_loop 0 nVar b s1' else s1') /\
                    (forall r c, (forall v, v < nVar -> r <> i * nVar + v) ->
                       Jacobian (if implicit then for_loop 0 nVar b s1' else s1') r c =
                       Jacobian s1' r c))
          by (destruct implicit;
              [destruct (fwh_rows_frame i s1') as (A1 & A2 & A3 & A4);
               split; [symmetry; exact A1 | split; [symmetry; exact A2 | split; [symmetry; exact A3 | exact A4]]]
              | repeat split; intros; reflexivity]);
        destruct E as (En & Er & Ex & EJ);
        set (s2 := if implicit then for_loop 0 nVar b s1' else s1') in *
      end.
      rewrite <- En, <- Er, <- Ex.
      subst s1'. cbn [node rhs xsol with_node].
      split; [exact Hr | split; [exact Hx | split; [| split; [| split]]]].
      + intros q Hq. unfold upd. destruct (Nat.eqb_spec q i) as [-> | _]; [contradiction | apply Hn, Hq].
      + intros q. unfold upd. destruct (Nat.eqb_spec q i) as [-> | _]; [rewrite !Nat.eqb_refl; simpl |]; apply Hf.
      + intros Himp. subst s2. rewrite Himp. simpl. apply HJ, Himp.
      + intros r c Hr'. rewrite EJ.
        * simpl. apply (Hrow r c Hr').
        * intros v Hv. apply Hr'; assumption.
  Qed.
End Frames.

End TimeIntExtraFacts.

(** ** Restart reader: failures and halo points *)
Module RestartExtraFacts.
Import Restart.

Section RestartExtra.
Context {F : Type}.
Variable nDim : nat.
Variable incompressible : bool.

Lemma Global2Local_range (geo : RestartGeometry) (g q : nat) :
    Global2Local geo g = Some q -> q < nPointDomain geo.
  Proof.
    unfold Global2Local.
    apply (TimeIntFacts.fold_invariant
             (fun G => forall g q, G g = Some q -> q < nPointDomain geo)
             _ _ (fun _ => None)); [discriminate |].
    intros G i Hi HG g' q' E. apply in_seq in Hi.
    destruct (Nat.eqb_spec g' (GlobalIndex geo i)) as [-> | _].
    - injection E as <-. lia.
    - exact (HG g' q' E).
  Qed.

Lemma read_body_overflow (geo : RestartGeometry) (G : nat -> option nat) :
    forall (body : list (list F)) (i0 : nat) (Sol : nat -> F) (node : nat -> option (nat -> F)),
    i0 <= Global_nPointDomain geo -> Global_nPointDomain geo < i0 + List.length body ->
    read_body nDim incompressible geo G i0 body Sol node = None.
  Proof.
    induction body as [| line rest IH]; intros i0 Sol node H0 Hlen; simpl in *; [lia |].
    destruct (Nat.leb_spec (Global_nPointDomain geo) i0) as [_ | Hi]; [reflexivity |].
    destruct (G i0); apply IH; lia.
  Qed.

Lemma read_body_keep (geo : RestartGeometry) (G : nat -> option nat) :
    forall (body : list (list F)) (i0 : nat) (Sol Sol' : nat -> F) (node node' : nat -> option (nat -> F)),
    read_body nDim incompressible geo G i0 body Sol node = Some (Sol', node') ->
    forall p, (forall g, i0 <= g < i0 + List.length body -> G g <> Some p) -> node' p = node p.
  Proof.
    induction body as [| line rest IH]; intros i0 Sol Sol' node node' Hr p Hp; simpl in *.
    - injection Hr as _ <-. reflexivity.
    - destruct (Global_nPointDomain geo <=? i0); [discriminate |].
      destruct (G i0) as [q |] eqn:Hq.
      + rewrite (IH _ _ _ _ _ Hr p) by (intros g Hg; apply Hp; lia).
        destruct (Nat.eqb_spec p q) as [-> | _]; [| reflexivity].
        exfalso. apply (Hp i0); [lia | exact Hq].
      + apply (IH _ _ _ _ _ Hr p). intros g Hg. apply Hp. lia.
  Qed.

Lemma read_body_last (geo : RestartGeometry) (G : nat -> option nat) :
    forall (body : list (list F)) (i0 : nat) (Sol Sol' : nat -> F) (node node' : nat -> option (nat -> F)),
    read_body nDim incompressible geo G i0 body Sol node = Some (Sol', node') ->
    (Sol' = Sol /\ node' = node) \/ (exists g q, G g = Some q /\ node' q = Some Sol').
  Proof.
    induction body as [| line rest IH]; intros i0 Sol Sol' node node' Hr; simpl in *.
    - injection Hr as <- <-. left. split; reflexivity.
    - destruct (Global_nPointDomain geo <=? i0); [discriminate |].
      destruct (G i0) as [q |] eqn:Hq.
      + destruct (IH _ _ _ _ _ Hr) as [[E1 E2] | Hex]; [| right; exact Hex].
        right. exists i0, q. split; [exact Hq |]. rewrite E2, E1, Nat.eqb_refl. reflexivity.
      + exact (IH _ _ _ _ _ Hr).
  Qed.

  (** X9: the restart reader goes outside its arrays (undefined behaviour)
      when the configured name has fewer than four characters, and when the
      file holds more lines after the header than there are global points:
      the line counter then reaches [Global_nPointDomain] while lines are
      left. *)
Theorem X9_restart_undefined (open : string -> option (list (list F))) (geo : RestartGeometry)
      (mesh_filename : string) (k : Kind_ObjFunc) (Solution0 : nat -> F) :
    (String.length mesh_filename < 4 ->
       restart nDim incompressible open geo mesh_filename k Solution0 = Undefined) /\
    (forall filename header body,
       restart_filename mesh_filename k = Some filename ->
       open filename = Some (header :: body) ->
       Global_nPointDomain geo < List.length body ->
       restart nDim incompressible open geo mesh_filename k Solution0 = Undefined).
  Proof.
    split.
    - intros Hl. unfold restart, restart_filename.
      rewrite (proj2 (Nat.ltb_lt _ 4) Hl). reflexivity.
    - intros filename header body Hn Ho Hb. unfold restart. rewrite Hn, Ho. simpl tl.
      rewrite read_body_overflow by (simpl; lia). reflexivity.
  Qed.

  (** X10: when the restart file is loaded, every halo point gets the same
      solution vector: the content of the [Solution] array before the reads
      when no line belongs to an owned point, and otherwise the vector read
      for some owned point. *)
Theorem X10_restart_halo_points (open : string -> option (list (list F))) (geo : RestartGeometry)
      (mesh_filename : string) (k : Kind_ObjFunc) (Solution0 : nat -> F)
      (node : nat -> option (nat -> F)) :
    restart nDim incompressible open geo mesh_filename k Solution0 = Loaded node ->
    exists sol,
      (forall p, nPointDomain geo <= p < nPoint geo -> node p = Some sol) /\
      (sol = Solution0 \/ exists q, q < nPointDomain geo /\ node q = Some sol).
  Proof.
    unfold restart. intros Hr.
    destruct (restart_filename mesh_filename k) as [fn |]; [| discriminate].
    destruct (open fn) as [lines |]; [| discriminate].
    cbv zeta in Hr.
    match type of Hr with context [read_body ?a ?b ?c ?d ?e ?f ?g ?h] =>
      destruct (read_body a b c d e f g h) as [[Sol' node'] |] eqn:Hb; [| discriminate] end.
    injection Hr as <-. exists Sol'. split.
    - intros p Hp. rewrite (proj2 (Nat.leb_le _ p) (proj1 Hp)), (proj2 (Nat.ltb_lt p _) (proj2 Hp)).
      reflexivity.
    - destruct (read_body_last geo _ _ _ _ _ _ _ Hb) as [[E _] | (g & q & Hg & Hq)].
      + left. exact E.
      + right. exists q. pose proof (Global2Local_range geo g q Hg) as Hlt. split; [exact Hlt |].
        rewrite (proj2 (Nat.leb_nle (nPointDomain geo) q) ltac:(lia)). exact Hq.
  Qed.

  (** X11: an owned point whose global index has no line in the restart
      file gets no variables built ([node[iPoint]] stays unset). *)
Theorem X11_restart_missing_line (open : string -> option (list (list F))) (geo : RestartGeometry)
      (mesh_filename : string) (k : Kind_ObjFunc) (Solution0 : nat -> F)
      (filename : string) (header : list F) (body : list (list F))
      (node : nat -> option (nat -> F)) (p : nat) :
    restart_filename mesh_filename k = Some filename ->
    open filename = Some (header :: body) ->
    restart nDim incompressible open geo mesh_filename k Solution0 = Loaded node ->
    p < nPointDomain geo -> List.length body <= GlobalIndex geo p ->
    node p = None.
  Proof.
    intros Hn Ho Hr Hp Hg. unfold restart in Hr. rewrite Hn, Ho in Hr. simpl tl in Hr.
    match type of Hr with context [read_body ?a ?b ?c ?d ?e ?f ?g ?h] =>
      destruct (read_body a b c d e f g h) as [[Sol' node'] |] eqn:Hb; [| discriminate] end.
    injection Hr as <-. rewrite (proj2 (Nat.leb_nle (nPointDomain geo) p) ltac:(lia)). simpl.
    apply (read_body_keep geo _ _ _ _ _ _ _ Hb). intros g Hg' E.
    apply RestartFacts.Global2Local_sound in E. lia.
  Qed.
End RestartExtra.

Import Examples.

Lemma X10_witness :
  exists node, restart 2 false ex_open ex_rgeo_halo "sol.dat" DRAG_COEFFICIENT (fun _ => 0%Z) = Loaded node /\
  exists sol, (forall p, 2 <= p < 3 -> node p = Some sol) /\
              (sol = (fun _ => 0%Z) \/ exists q, q < 2 /\ node q = Some sol).
Proof.
  eexists. split; [vm_compute; reflexivity |].
  apply (X10_restart_halo_points 2 false ex_open ex_rgeo_halo "sol.dat" DRAG_COEFFICIENT).
  vm_compute. reflexivity.
Defined.

Lemma X11_witness :
  exists node, restart 2 false ex_open ex_rgeo_halo "sol.dat" DRAG_COEFFICIENT (fun _ => 0%Z) = Loaded node /\
  node 1 = None.
Proof.
  eexists. split; [vm_compute; reflexivity |].
  apply (X11_restart_missing_line 2 false ex_open ex_rgeo_halo "sol.dat" DRAG_COEFFICIENT
           (fun _ => 0%Z) "sol_cd.dat" [0%Z] [[0%Z; 1%Z; 2%Z; 3%Z; 4%Z]]).
  - vm_compute. reflexivity.
  - reflexivity.
  - vm_compute. reflexivity.
  - simpl. lia.
  - simpl. lia.
Defined.
End RestartExtraFacts.

(** ** Smoothing matrix rows *)
Module SmoothExtraFacts.
Import Qcanon Smooth SmoothRows.
Local Open Scope Qc_scope.






Section Rows.
Variable sqrt : Qc -> Qc.
Variable pow : Qc -> Qc -> Qc.
Variable nVertex : nat.
Variable Coord : nat -> Qc * Qc.
Variable CSensitivity : nat -> Qc.


End Rows.

  (** X12: the smoothing of a marker fails (its writes leave the
      [nVertex x nVertex] matrix) exactly when the marker has fewer than
      three vertices. *)
Theorem X12_smoothing_small_marker (sqrt : Qc -> Qc) (pow : Qc -> Qc -> Qc) (nVertex : nat)
      (Coord : nat -> Qc * Qc) (CSensitivity : nat -> Qc) :
    Smooth_Sensitivity_marker sqrt pow nVertex Coord CSensitivity = None <-> (nVertex < 3)%nat.
  Proof.
    unfold Smooth_Sensitivity_marker, pin_midpoint.
    destruct (Nat.ltb (S (Nat.div nVertex 2)) nVertex && negb (Nat.eqb (Nat.div nVertex 2) 0)) eqn:Hc.
    - split; [discriminate |]. intros Hn.
      apply andb_prop in Hc. destruct Hc as [Hc1 _]. apply Nat.ltb_lt in Hc1.
      assert (nVertex = 0 \/ nVertex = 1 \/ nVertex = 2)%nat as [-> | [-> | ->]] by lia;
        simpl in Hc1; lia.
    - split; [intros _ | reflexivity].
      destruct (Nat.lt_ge_cases nVertex 3) as [Hlt | Hge]; [exact Hlt |].
      exfalso. apply Bool.not_true_iff_false in Hc. apply Hc. apply andb_true_intro. split.
      + apply Nat.ltb_lt. pose proof (Nat.div_mod_eq nVertex 2). pose proof (Nat.mod_upper_bound nVertex 2). lia.
      + apply negb_true_iff, Nat.eqb_neq. pose proof (Nat.div_mod_eq nVertex 2). pose proof (Nat.mod_upper_bound nVertex 2). lia.
  Qed.

End SmoothExtraFacts.

(** ** Dual time stepping *)
Module DualTimeFacts.
Import Assembly DualTime TimeIntFacts.

Lemma flat_map_ext_in {A B : Type} (f g : A -> list B) (l : list A) :
  (forall a, In a l -> f a = g a) -> flat_map f l = flat_map g l.
Proof.
  induction l as [| a l IH]; intros Hfg; [reflexivity |].
  simpl. rewrite Hfg by (left; reflexivity). rewrite IH; [reflexivity |].
  intros b Hb. apply Hfg. right. exact Hb.
Qed.

Section DualTimeFacts.
Context {F : Type} `{DoubleOps F}.

  Local Infix "+." := fadd (at level 50, left associativity).
  Local Infix "-." := fsub (at level 50, left associativity).
  Local Infix "*." := fmul (at level 40, left associativity).
  Local Infix "/." := fdiv (at level 40, left associativity).

Variable nVar : nat.

Lemma dual_time_residual_spec (unst : Unsteady_Simulation) (pt : DTPoint F) (TimeStep : F)
      (R : nat -> F) (v : nat) :
    dual_time_residual nVar unst pt TimeStep R v =
    if v <? nVar then
      match unst with
      | DT_STEPPING_1ST =>
          (U_time_nP1 pt v *. Volume_nP1 pt -. U_time_n pt v *. Volume_n pt) /. TimeStep
      | DT_STEPPING_2ND =>
          (of_Q 3 *. U_time_nP1 pt v *. Volume_nP1 pt -. of_Q 4 *. U_time_n pt v *. Volume_n pt
           +. f1 *. U_time_nM1 pt v *. Volume_nM1 pt) /. (of_Q 2 *. TimeStep)
      | OTHER_UNSTEADY => R v
      end
    else R v.
  Proof.
    unfold dual_time_residual.
    apply (for_loop_ind (fun n R' => R' v =
      if v <? n then
        match unst with
        | DT_STEPPING_1ST =>
            (U_time_nP1 pt v *. Volume_nP1 pt -. U_time_n pt v *. Volume_n pt) /. TimeStep
        | DT_STEPPING_2ND =>
            (of_Q 3 *. U_time_nP1 pt v *. Volume_nP1 pt -. of_Q 4 *. U_time_n pt v *. Volume_n pt
             +. f1 *. U_time_nM1 pt v *. Volume_nM1 pt) /. (of_Q 2 *. TimeStep)
        | OTHER_UNSTEADY => R v
        end
      else R v)).
    - reflexivity.
    - intros n R' Hn IH. simpl.
      destruct (Nat.eqb_spec v n) as [-> | Hvn].
      + rewrite (proj2 (Nat.ltb_lt n (S n)) ltac:(lia)).
        rewrite (proj2 (Nat.ltb_nlt n n) ltac:(lia)) in IH.
        destruct unst; simpl; unfold TimeInt.upd; rewrite ?Nat.eqb_refl; [reflexivity | reflexivity | exact IH].
      + replace (v <? S n) with (v <? n)
          by (destruct (Nat.ltb_spec v n), (Nat.ltb_spec v (S n)); try reflexivity; lia).
        destruct unst; simpl; unfold TimeInt.upd;
          rewrite ?(proj2 (Nat.eqb_neq v n) Hvn); exact IH.
  Qed.

  (** The diagonal entry the block loop writes. *)
Lemma dual_time_block_spec (unst : Unsteady_Simulation) (pt : DTPoint F) (TimeStep : F)
      (J : nat -> nat -> F) (r c : nat) :
    r < nVar -> c < nVar ->
    dual_time_block nVar unst pt TimeStep J r c =
    if r =? c then
      match unst with
      | DT_STEPPING_1ST => Volume_nP1 pt /. TimeStep
      | DT_STEPPING_2ND => (Volume_nP1 pt *. of_Q 3) /. (of_Q 2 *. TimeStep)
      | OTHER_UNSTEADY => f0
      end
    else f0.
  Proof.
    intros Hr Hc. unfold dual_time_block.
    assert (Hzero : forall i (J' : nat -> nat -> F) r' c',
      TimeInt.for_loop 0 nVar (fun jVar J => upd2 J i jVar f0) J' r' c' =
      if (r' =? i) && (c' <? nVar) then f0 else J' r' c').
    { intros i J' r' c'.
      apply (for_loop_ind (fun n J'' => J'' r' c' =
        if (r' =? i) && (c' <? n) then f0 else J' r' c')).
      - rewrite (proj2 (Nat.ltb_nlt c' 0) ltac:(lia)), andb_false_r. reflexivity.
      - intros n J'' Hn IH. simpl. unfold upd2. rewrite IH.
        destruct (r' =? i); simpl; [| reflexivity].
        destruct (Nat.eqb_spec c' n) as [-> | Hcn].
        + rewrite (proj2 (Nat.ltb_lt n (S n)) ltac:(lia)). reflexivity.
        + destruct (Nat.ltb_spec c' n), (Nat.ltb_spec c' (S n)); try reflexivity; lia. }
    apply (for_loop_ind (fun n J' => r < n ->
      J' r c = if r =? c then
        match unst with
        | DT_STEPPING_1ST => Volume_nP1 pt /. TimeStep
        | DT_STEPPING_2ND => (Volume_nP1 pt *. of_Q 3) /. (of_Q 2 *. TimeStep)
        | OTHER_UNSTEADY => f0
        end
      else f0)); [intros; lia | | exact Hr].
    intros n J' Hn IH Hrn. simpl.
    destruct (Nat.eq_dec r n) as [-> | Hrn'].
    - assert (Hu : forall (A : nat -> nat -> F) i j v r' c', upd2 A i j v r' c' =
                     if (r' =? i) && (c' =? j) then v else A r' c') by reflexivity.
      destruct unst; simpl; rewrite ?Hu, ?Nat.eqb_refl; simpl;
        destruct (Nat.eqb_spec c n) as [-> | Hcn]; simpl;
        rewrite ?Nat.eqb_refl; try reflexivity;
        rewrite Hzero, Nat.eqb_refl, (proj2 (Nat.ltb_lt _ _) Hc);
        rewrite ?(proj2 (Nat.eqb_neq n c) (not_eq_sym Hcn)); reflexivity.
    - assert (Hkeep : forall J'' : nat -> nat -> F,
        (if unsteady_eqb unst DT_STEPPING_2ND
         then upd2 (if unsteady_eqb unst DT_STEPPING_1ST then upd2 J'' n n (Volume_nP1 pt /. TimeStep) else J'')
                n n ((Volume_nP1 pt *. of_Q 3) /. (of_Q 2 *. TimeStep))
         else if unsteady_eqb unst DT_STEPPING_1ST then upd2 J'' n n (Volume_nP1 pt /. TimeStep) else J'')
        r c = J'' r c).
      { intros J''. destruct unst; simpl; unfold upd2;
          rewrite ?(proj2 (Nat.eqb_neq r n) Hrn'); reflexivity. }
      rewrite Hkeep, Hzero, (proj2 (Nat.eqb_neq r n) Hrn'). simpl. apply IH. lia.
  Qed.

  (** X14: [SetResidual_DualTime] makes, for each owned point in order, one
      [AddRes_Conv] call and, with an implicit flow scheme, one [AddBlock]
      call on the diagonal block. The residual passed holds the first- or
      second-order backward difference of [U * Volume] over the time step
      in its first [nVar] entries; with any other kind of unsteady
      simulation nothing writes the array, and the call passes the values
      it held on entry. Entry [0] is zero in the incompressible cases. The
      block passed is diagonal, with [Volume/dt] (first order) or
      [3 Volume / (2 dt)] (second order) on the diagonal, zero for any other
      kind, and zero at [(0,0)] in the incompressible cases. *)
Theorem X14_dual_time_calls (nPointDomain : nat) (pt : nat -> DTPoint F) (TimeStep : F)
      (unst : Unsteady_Simulation) (implicit incompressible FlowEq AdjEq : bool)
      (Res0 : nat -> F) (Ji0 : nat -> nat -> F) :
    let zero0 := (incompressible && FlowEq) || (incompressible && AdjEq) in
    let '(ops, _, _) := SetResidual_DualTime nVar nPointDomain pt TimeStep unst implicit
                          incompressible FlowEq AdjEq Res0 Ji0 in
    exists (Rs : nat -> nat -> F) (Bs : nat -> nat -> nat -> F),
      ops = flat_map (fun p => AddRes_Conv p (Rs p) ::
                               (if implicit then [AddBlock p p (Bs p)] else [])) (seq 0 nPointDomain) /\
      (forall p v, p < nPointDomain -> v < nVar ->
         Rs p v = if zero0 && (v =? 0) then f0 else
           match unst with
           | DT_STEPPING_1ST =>
               (U_time_nP1 (pt p) v *. Volume_nP1 (pt p) -. U_time_n (pt p) v *. Volume_n (pt p)) /. TimeStep
           | DT_STEPPING_2ND =>
               (of_Q 3 *. U_time_nP1 (pt p) v *. Volume_nP1 (pt p) -. of_Q 4 *. U_time_n (pt p) v *. Volume_n (pt p)
                +. f1 *. U_time_nM1 (pt p) v *. Volume_nM1 (pt p)) /. (of_Q 2 *. TimeStep)
           | OTHER_UNSTEADY => Res0 v
           end) /\
      (forall p r c, p < nPointDomain -> r < nVar -> c < nVar ->
         Bs p r c = if zero0 && (r =? 0) && (c =? 0) then f0 else
           if r =? c then
             match unst with
             | DT_STEPPING_1ST => Volume_nP1 (pt p) /. TimeStep
             | DT_STEPPING_2ND => (Volume_nP1 (pt p) *. of_Q 3) /. (of_Q 2 *. TimeStep)
             | OTHER_UNSTEADY => f0
             end
           else f0).
  Proof.
    intros zero0.
    set (ResV := fun p v =>
      if zero0 && (v =? 0) then f0 else
        match unst with
        | DT_STEPPING_1ST =>
            (U_time_nP1 (pt p) v *. Volume_nP1 (pt p) -. U_time_n (pt p) v *. Volume_n (pt p)) /. TimeStep
        | DT_STEPPING_2ND =>
            (of_Q 3 *. U_time_nP1 (pt p) v *. Volume_nP1 (pt p) -. of_Q 4 *. U_time_n (pt p) v *. Volume_n (pt p)
             +. f1 *. U_time_nM1 (pt p) v *. Volume_nM1 (pt p)) /. (of_Q 2 *. TimeStep)
        | OTHER_UNSTEADY => Res0 v
        end).
    set (BlkV := fun p r c =>
      if zero0 && (r =? 0) && (c =? 0) then f0 else
        if r =? c then
          match unst with
          | DT_STEPPING_1ST => Volume_nP1 (pt p) /. TimeStep
          | DT_STEPPING_2ND => (Volume_nP1 (pt p) *. of_Q 3) /. (of_Q 2 *. TimeStep)
          | OTHER_UNSTEADY => f0
          end
        else f0).
    assert (Hloop :
      let '(ops, Res, _) := SetResidual_DualTime nVar nPointDomain pt TimeStep unst implicit
                              incompressible FlowEq AdjEq Res0 Ji0 in
      exists (Rs : nat -> nat -> F) (Bs : nat -> nat -> nat -> F),
        ops = flat_map (fun p => AddRes_Conv p (Rs p) ::
                                 (if implicit then [AddBlock p p (Bs p)] else [])) (seq 0 nPointDomain) /\
        (forall p v, p < nPointDomain -> v < nVar -> Rs p v = ResV p v) /\
        (forall p r c, p < nPointDomain -> r < nVar -> c < nVar -> Bs p r c = BlkV p r c) /\
        (unst = OTHER_UNSTEADY -> forall v, zero0 && (v =? 0) = false -> Res v = Res0 v)).
    { unfold SetResidual_DualTime.
      apply (for_loop_ind (fun n (acc : list (AsmOp (nat -> F) (nat -> nat -> F)) * (nat -> F) * (nat -> nat -> F)) =>
        let '(ops, Res, _) := acc in
        exists (Rs : nat -> nat -> F) (Bs : nat -> nat -> nat -> F),
          ops = flat_map (fun p => AddRes_Conv p (Rs p) ::
                                   (if implicit then [AddBlock p p (Bs p)] else [])) (seq 0 n) /\
          (forall p v, p < n -> v < nVar -> Rs p v = ResV p v) /\
          (forall p r c, p < n -> r < nVar -> c < nVar -> Bs p r c = BlkV p r c) /\
          (unst = OTHER_UNSTEADY -> forall v, zero0 && (v =? 0) = false -> Res v = Res0 v))).
      - exists (fun _ => Res0), (fun _ => Ji0). split; [reflexivity | split; [intros; lia | split; [intros; lia |]]].
        intros _ v _. reflexivity.
      - intros n [[ops Res] Ji] Hn (Rs & Bs & Hops & HR & HB & Hoth). cbn zeta beta iota.
        fold zero0.
        set (Res1 := if zero0 then TimeInt.upd (dual_time_residual nVar unst (pt n) TimeStep Res) 0 f0
                     else dual_time_residual nVar unst (pt n) TimeStep Res).
        set (Ji1 := if zero0 then upd2 (dual_time_block nVar unst (pt n) TimeStep Ji) 0 0 f0
                    else dual_time_block nVar unst (pt n) TimeStep Ji).
        assert (HR1 : forall v, v < nVar -> Res1 v = ResV n v).
        { intros v Hv. subst Res1 ResV. cbv beta.
          destruct zero0; simpl.
          - unfold TimeInt.upd. destruct (Nat.eqb_spec v 0) as [-> | Hv0]; [reflexivity |].
            rewrite dual_time_residual_spec, (proj2 (Nat.ltb_lt v nVar) Hv).
            destruct unst; try reflexivity. apply Hoth; [reflexivity |].
            simpl. apply Nat.eqb_neq, Hv0.
          - rewrite dual_time_residual_spec, (proj2 (Nat.ltb_lt v nVar) Hv).
            destruct unst; try reflexivity. apply Hoth; reflexivity. }
        assert (HB1 : forall r c, r < nVar -> c < nVar -> Ji1 r c = BlkV n r c).
        { intros r c Hr Hc. subst Ji1 BlkV. cbv beta.
          destruct zero0; simpl.
          - unfold upd2. destruct (Nat.eqb_spec r 0), (Nat.eqb_spec c 0); simpl; try reflexivity;
              apply dual_time_block_spec; assumption.
          - apply dual_time_block_spec; assumption. }
        assert (Hoth1 : unst = OTHER_UNSTEADY -> forall v, zero0 && (v =? 0) = false -> Res1 v = Res0 v).
        { intros Hu v Hv. subst Res1.
          assert (E : dual_time_residual nVar unst (pt n) TimeStep Res v = Res v)
            by (rewrite dual_time_residual_spec, Hu; destruct (v <? nVar); reflexivity).
          destruct zero0; simpl in Hv.
          - unfold TimeInt.upd. rewrite Hv, E. apply Hoth; [exact Hu | exact Hv].
          - rewrite E. apply Hoth; [exact Hu | reflexivity]. }
        assert (Hflat : forall (Rs' : nat -> nat -> F) (Bs' : nat -> nat -> nat -> F),
          (forall p, p < n -> Rs' p = Rs p) -> (forall p, p < n -> Bs' p = Bs p) ->
          flat_map (fun p => AddRes_Conv p (Rs' p) :: (if implicit then [AddBlock p p (Bs' p)] else []))
            (seq 0 (S n)) =
          ops ++ AddRes_Conv n (Rs' n) :: (if implicit then [AddBlock n n (Bs' n)] else [])).
        { intros Rs' Bs' E1 E2. rewrite seq_S, flat_map_app, Hops. f_equal.
          - apply flat_map_ext_in. intros p Hp. apply in_seq in Hp.
            rewrite E1, E2 by lia. reflexivity.
          - simpl. rewrite app_nil_r. reflexivity. }
        destruct implicit.
        + exists (fun p => if p =? n then Res1 else Rs p), (fun p => if p =? n then Ji1 else Bs p).
          split; [| split; [| split]].
          * rewrite Hflat.
            -- rewrite Nat.eqb_refl, <- app_assoc. reflexivity.
            -- intros p Hp. rewrite (proj2 (Nat.eqb_neq p n) ltac:(lia)). reflexivity.
            -- intros p Hp. rewrite (proj2 (Nat.eqb_neq p n) ltac:(lia)). reflexivity.
          * intros p v Hp Hv. destruct (Nat.eqb_spec p n) as [-> | Hpn]; [apply HR1, Hv | apply HR; lia].
          * intros p r c Hp Hr Hc. destruct (Nat.eqb_spec p n) as [-> | Hpn]; [apply HB1; assumption | apply HB; lia].
          * exact Hoth1.
        + exists (fun p => if p =? n then Res1 else Rs p), (fun p => if p =? n then BlkV n else Bs p).
          split; [| split; [| split]].
          * rewrite (Hflat _ (fun p => if p =? n then BlkV n else Bs p)).
            -- rewrite Nat.eqb_refl. reflexivity.
            -- intros p Hp. rewrite (proj2 (Nat.eqb_neq p n) ltac:(lia)). reflexivity.
            -- intros p Hp. rewrite (proj2 (Nat.eqb_neq p n) ltac:(lia)). reflexivity.
          * intros p v Hp Hv. destruct (Nat.eqb_spec p n) as [-> | Hpn]; [apply HR1, Hv | apply HR; lia].
          * intros p r c Hp Hr Hc. destruct (Nat.eqb_spec p n) as [-> | Hpn]; [reflexivity | apply HB; lia].
          * exact Hoth1. }
    destruct (SetResidual_DualTime nVar nPointDomain pt TimeStep unst implicit incompressible FlowEq AdjEq Res0 Ji0)
      as [[ops Res] Ji].
    destruct Hloop as (Rs & Bs & Hops & HR & HB & _).
    exists Rs, Bs. split; [exact Hops | split; [exact HR | exact HB]].
  Qed.
End DualTimeFacts.
End DualTimeFacts.

(** ** Force projection vectors *)
Module ForceProjFacts.
Import Restart ForceProj.

Section ForceProjFacts.
Context {F : Type} `{DoubleOps F}.

  Local Infix "*." := fmul (at level 40, left associativity).

Variables (cos sin : F -> F) (PI_NUMBER : F).

Lemma vertex_fold_none (nDim : nat) (k : Kind_ObjFunc) (c : @FPCoeffs F) (Coord : nat -> nat -> F)
      (l : list (nat * (nat -> F))) :
    fold_left (fp_vertex_step cos sin nDim k c Coord) l None = None.
  Proof. induction l as [| v l IH]; [reflexivity | exact IH]. Qed.

  (** The six functionals with no 2D version. *)
Lemma force_proj_case_2D_none (k : Kind_ObjFunc) (c : @FPCoeffs F) (x y z : F) (Normal buf : nat -> F) :
    force_proj_case cos sin 2 k c x y z Normal buf = None <->
    In k [SIDEFORCE_COEFFICIENT; MOMENT_X_COEFFICIENT; MOMENT_Y_COEFFICIENT;
          FORCE_Z_COEFFICIENT; THRUST_COEFFICIENT; FIGURE_OF_MERIT].
  Proof.
    destruct k; simpl; split; intros Hk; try discriminate; try reflexivity;
      repeat (destruct Hk as [Hk | Hk]; [discriminate Hk |]); try contradiction; tauto.
  Qed.

Lemma vertex_fold_2D_none (k : Kind_ObjFunc) (c : @FPCoeffs F) (Coord : nat -> nat -> F) :
    forall (l : list (nat * (nat -> F))) acc,
    fold_left (fp_vertex_step cos sin 2 k c Coord) l acc = None <->
    acc = None \/
    (In k [SIDEFORCE_COEFFICIENT; MOMENT_X_COEFFICIENT; MOMENT_Y_COEFFICIENT;
           FORCE_Z_COEFFICIENT; THRUST_COEFFICIENT; FIGURE_OF_MERIT] /\ l <> []).
  Proof.
    induction l as [| [iPoint Normal] l IH]; intros acc; simpl.
    - split; [left; exact H0 | intros [E | [_ E]]; [exact E | contradiction]].
    - rewrite IH. destruct acc as [[[buf z] FP] |].
      + simpl.
        destruct (force_proj_case cos sin 2 k c (Coord iPoint 0) (Coord iPoint 1) z Normal buf) eqn:E.
        * split.
          -- intros [Hd | [Hk _]]; [discriminate |].
             apply (force_proj_case_2D_none k c (Coord iPoint 0) (Coord iPoint 1) z Normal buf) in Hk. congruence.
          -- intros [Hd | [Hk _]]; [discriminate |].
             apply (force_proj_case_2D_none k c (Coord iPoint 0) (Coord iPoint 1) z Normal buf) in Hk. congruence.
        * apply force_proj_case_2D_none in E.
          split; intros _; [right; split; [exact E | discriminate] | left; reflexivity].
      + split; intros _; left; reflexivity.
  Qed.

  (** X15: in 2D, [SetForceProj_Vector] prints the two messages and exits
      with code 1 exactly when the objective is one of the six with no 2D
      version (side force, x and y moments, z force, thrust, figure of
      merit) and some monitored marker that is not a send-receive boundary
      has at least one vertex; otherwise it stores the projection vectors. *)
Theorem X15_force_proj_2D_exit (k : Kind_ObjFunc) (cfg : FPConfig F) (C_d C_l C_t C_q : F)
      (markers : list (FPMarker F)) (Coord : nat -> nat -> F) (buf0 : nat -> F)
      (FP0 : nat -> nat -> F) :
    SetForceProj_Vector cos sin PI_NUMBER 2 k cfg C_d C_l C_t C_q markers Coord buf0 FP0
      = FPExit not_2D_messages 1 <->
    In k [SIDEFORCE_COEFFICIENT; MOMENT_X_COEFFICIENT; MOMENT_Y_COEFFICIENT;
          FORCE_Z_COEFFICIENT; THRUST_COEFFICIENT; FIGURE_OF_MERIT] /\
    exists m, In m markers /\ Send_Receive m = false /\ Monitoring m = true /\ fp_vertex m <> [].
  Proof.
    unfold SetForceProj_Vector. cbv zeta.
    set (c := fp_coeffs PI_NUMBER 2 cfg C_d C_l C_t C_q).
    set (six := [SIDEFORCE_COEFFICIENT; MOMENT_X_COEFFICIENT; MOMENT_Y_COEFFICIENT;
                 FORCE_Z_COEFFICIENT; THRUST_COEFFICIENT; FIGURE_OF_MERIT]).
    assert (Hout : forall ms acc,
      fold_left (fun acc m =>
        if negb (Send_Receive m) && Monitoring m
        then fold_left (fp_vertex_step cos sin 2 k c Coord) (fp_vertex m) acc
        else acc) ms acc = None <->
      acc = None \/ (In k six /\ exists m, In m ms /\ Send_Receive m = false /\
                                         Monitoring m = true /\ fp_vertex m <> [])).
    { induction ms as [| m ms IH]; intros acc; simpl.
      - split; [left; exact H0 | intros [E | [_ (m & [] & _)]]; exact E].
      - rewrite IH.
        destruct (Send_Receive m) eqn:Es, (Monitoring m) eqn:Em; simpl.
        1, 2, 4:
          (split;
           [ intros [E | [Hk (m' & Hm' & Hs & Hmo & Hv)]];
             [left; exact E | right; split; [exact Hk | exists m'; tauto]]
           | intros [E | [Hk (m' & [<- | Hm'] & Hs & Hmo & Hv)]];
             [left; exact E | congruence | right; split; [exact Hk | exists m'; tauto]] ]).
        rewrite vertex_fold_2D_none. split.
        + intros [[E | [Hk Hl]] | [Hk (m' & Hm' & Hs & Hmo & Hv)]].
          * left. exact E.
          * right. split; [exact Hk |]. exists m. tauto.
          * right. split; [exact Hk |]. exists m'. tauto.
        + intros [E | [Hk (m' & [<- | Hm'] & Hs & Hmo & Hv)]].
          * left. left. exact E.
          * left. right. split; assumption.
          * right. split; [exact Hk |]. exists m'. tauto. }
    match goal with |- context [match ?r with None => _ | Some _ => _ end] =>
      destruct r as [[[b z] FP] |] eqn:Er end.
    - split; [discriminate |]. intros Hc.
      pose proof (proj2 (Hout markers (Some (buf0, f0, FP0))) (or_intror Hc)) as Hn.
      rewrite Er in Hn. discriminate.
    - split; intros _; [| reflexivity].
      destruct (proj1 (Hout markers (Some (buf0, f0, FP0))) Er) as [E | Hc]; [discriminate | exact Hc].
  Qed.
End ForceProjFacts.

Lemma by_dim_low {F : Type} `{DoubleOps F} (nDim : nat) (buf buf' : nat -> F) (a2 b2 a3 b3 c3 : F) (d : nat) :
    nDim = 2 \/ nDim = 3 -> d < nDim ->
    by_dim nDim buf a2 b2 a3 b3 c3 d = by_dim nDim buf' a2 b2 a3 b3 c3 d.
  Proof.
    intros [-> | ->] Hd; (destruct d as [| [| [| d]]]; [reflexivity | reflexivity | | ]);
      solve [reflexivity | lia].
  Qed.

Lemma fp_coeffs_WDrag {F : Type} `{DoubleOps F} (PI_NUMBER : F) (nDim : nat) (cfg : FPConfig F)
      (C_d C_l C_t C_q : F) :
    WDrag (fp_coeffs PI_NUMBER nDim cfg C_d C_l C_t C_q) = WeightCd cfg.
  Proof. unfold fp_coeffs. destruct (Rotating_Frame cfg); reflexivity. Qed.


Section Frame.
Context {F : Type} `{DoubleOps F}.
Variables (cos sin : F -> F) (PI_NUMBER : F) (nDim : nat) (k : Kind_ObjFunc) (c : @FPCoeffs F)
          (Coord : nat -> nat -> F).

Lemma vertex_fold_frame :
    forall (l : list (nat * (nat -> F))) b z FP b' z' FP' p,
    fold_left (fp_vertex_step cos sin nDim k c Coord) l (Some (b, z, FP)) = Some (b', z', FP') ->
    ~ In p (map fst l) -> FP' p = FP p.
  Proof.
    induction l as [| [i N] l IH]; intros b z FP b' z' FP' p Hf Hp; simpl in Hf.
    - injection Hf as _ _ <-. reflexivity.
    - simpl in Hp.
      destruct (force_proj_case cos sin nDim k c (Coord i 0) (Coord i 1)
                  (if Nat.eqb nDim 3 then Coord i 2 else z) N b) as [b1 |] eqn:E.
      + rewrite (IH _ _ _ _ _ _ p Hf (fun h => Hp (or_intror h))).
        unfold TimeInt.upd. destruct (Nat.eqb_spec p i) as [-> | _]; [tauto | reflexivity].
      + rewrite vertex_fold_none in Hf. discriminate.
  Qed.

Lemma marker_fold_none (ms : list (FPMarker F)) :
    fold_left (fun acc m =>
        if negb (Send_Receive m) && Monitoring m
        then fold_left (fp_vertex_step cos sin nDim k c Coord) (fp_vertex m) acc
        else acc) ms None = None.
  Proof.
    induction ms as [| m ms IH]; simpl; [reflexivity |].
    destruct (negb (Send_Receive m) && Monitoring m); [rewrite vertex_fold_none |]; exact IH.
  Qed.

Lemma marker_fold_frame :
    forall (ms : list (FPMarker F)) b z FP b' z' FP' p,
    fold_left (fun acc m =>
        if negb (Send_Receive m) && Monitoring m
        then fold_left (fp_vertex_step cos sin nDim k c Coord) (fp_vertex m) acc
        else acc) ms (Some (b, z, FP)) = Some (b', z', FP') ->
    ~ (exists m, In m ms /\ Send_Receive m = false /\ Monitoring m = true /\
                 In p (map fst (fp_vertex m))) ->
    FP' p = FP p.
  Proof.
    induction ms as [| m ms IH]; intros b z FP b' z' FP' p Hf Hp; simpl in Hf.
    - injection Hf as _ _ <-. reflexivity.
    - destruct (negb (Send_Receive m) && Monitoring m) eqn:Ea.
      + destruct (fold_left (fp_vertex_step cos sin nDim k c Coord) (fp_vertex m) (Some (b, z, FP)))
          as [[[b1 z1] FP1] |] eqn:E1.
        * rewrite (IH _ _ _ _ _ _ p Hf).
          -- apply (vertex_fold_frame _ _ _ _ _ _ _ p E1).
             intros Hin. apply Hp. exists m.
             destruct (Send_Receive m), (Monitoring m); try discriminate; simpl; tauto.
          -- intros (m' & Hm' & Hr). apply Hp. exists m'. simpl; tauto.
        * rewrite marker_fold_none in Hf; discriminate.
      + apply (IH _ _ _ _ _ _ p Hf).
        intros (m' & Hm' & Hr). apply Hp. exists m'. simpl; tauto.
  Qed.
End Frame.

Section Const.
Context {F : Type} `{DoubleOps F}.
Variables (cos sin : F -> F) (nDim : nat) (k : Kind_ObjFunc) (c : @FPCoeffs F)
          (Coord : nat -> nat -> F) (vec : nat -> F).
  (** The objective's vector does not depend on the vertex. *)
Hypothesis Hvec : forall x y z Normal buf, exists buf',
    force_proj_case cos sin nDim k c x y z Normal buf = Some buf' /\
    forall d, d < nDim -> buf' d = vec d.

Lemma vertex_fold_const :
    forall (l : list (nat * (nat -> F))) b z FP, exists b' z' FP',
    fold_left (fp_vertex_step cos sin nDim k c Coord) l (Some (b, z, FP)) = Some (b', z', FP') /\
    forall p, In p (map fst l) -> forall d, d < nDim -> FP' p d = vec d.
  Proof.
    induction l as [| [i N] l IH]; intros b z FP; simpl.
    - exists b, z, FP. split; [reflexivity | contradiction].
    - destruct (Hvec (Coord i 0) (Coord i 1) (if Nat.eqb nDim 3 then Coord i 2 else z) N b)
        as (b1 & E1 & Hb1).
      rewrite E1.
      destruct (IH b1 (if Nat.eqb nDim 3 then Coord i 2 else z) (TimeInt.upd FP i b1))
        as (b' & z' & FP' & Hf & Hin).
      exists b', z', FP'. split; [exact Hf |].
      intros p Hp d Hd.
      destruct (in_dec Nat.eq_dec p (map fst l)) as [Hl | Hl]; [exact (Hin p Hl d Hd) |].
      destruct Hp as [<- | Hp]; [| contradiction].
      rewrite (vertex_fold_frame cos sin nDim k c Coord l _ _ _ _ _ _ i Hf Hl).
      unfold TimeInt.upd. rewrite Nat.eqb_refl. exact (Hb1 d Hd).
  Qed.

Lemma marker_fold_const :
    forall (ms : list (FPMarker F)) b z FP, exists b' z' FP',
    fold_left (fun acc m =>
        if negb (Send_Receive m) && Monitoring m
        then fold_left (fp_vertex_step cos sin nDim k c Coord) (fp_vertex m) acc
        else acc) ms (Some (b, z, FP)) = Some (b', z', FP') /\
    forall p, existsb (fun m => negb (Send_Receive m) && Monitoring m &&
                               existsb (Nat.eqb p) (map fst (fp_vertex m))) ms = true ->
              forall d, d < nDim -> FP' p d = vec d.
  Proof.
    induction ms as [| m ms IH]; intros b z FP; simpl.
    - exists b, z, FP. split; [reflexivity | discriminate].
    - destruct (negb (Send_Receive m) && Monitoring m) eqn:Ea; simpl.
      + destruct (vertex_fold_const (fp_vertex m) b z FP) as (b1 & z1 & FP1 & E1 & H1).
        rewrite E1.
        destruct (IH b1 z1 FP1) as (b' & z' & FP' & Hf & Hin).
        exists b', z', FP'. split; [exact Hf |].
        intros p Hp d Hd.
        destruct (existsb (fun m => negb (Send_Receive m) && Monitoring m &&
                               existsb (Nat.eqb p) (map fst (fp_vertex m))) ms) eqn:Er.
        * exact (Hin p Er d Hd).
        * rewrite orb_false_r in Hp. try rewrite andb_true_l in Hp.
          rewrite (marker_fold_frame cos sin nDim k c Coord ms _ _ _ _ _ _ p Hf).
          -- apply (H1 p); [| exact Hd].
             apply existsb_exists in Hp as (q & Hq & Eq).
             apply Nat.eqb_eq in Eq. subst q. exact Hq.
          -- intros (m' & Hm' & Hs & Hmo & Hq).
             assert (Ht : existsb (fun m => negb (Send_Receive m) && Monitoring m &&
                               existsb (Nat.eqb p) (map fst (fp_vertex m))) ms = true).
             { apply existsb_exists. exists m'. split; [exact Hm' |].
               rewrite Hs, Hmo. simpl. apply existsb_exists. exists p.
               split; [exact Hq | apply Nat.eqb_refl]. }
             congruence.
      + apply IH.
  Qed.
End Const.

Lemma not_written {F' : Type} (ms : list (FPMarker F')) p :
    existsb (fun m => negb (Send_Receive m) && Monitoring m &&
                      existsb (Nat.eqb p) (map fst (fp_vertex m))) ms = false ->
    ~ (exists m, In m ms /\ Send_Receive m = false /\ Monitoring m = true /\
                 In p (map fst (fp_vertex m))).
  Proof.
    intros Hf (m & Hm & Hs & Hmo & Hq).
    assert (Ht : existsb (fun m => negb (Send_Receive m) && Monitoring m &&
                      existsb (Nat.eqb p) (map fst (fp_vertex m))) ms = true).
    { apply existsb_exists. exists m. split; [exact Hm |].
      rewrite Hs, Hmo. simpl. apply existsb_exists. exists p.
      split; [exact Hq | apply Nat.eqb_refl]. }
    congruence.
  Qed.

  (** X16: when [SetForceProj_Vector] completes, every point that is not a
      vertex of a monitored, non-send-receive marker keeps the projection
      vector it had before the call. *)
Theorem X16_force_proj_frame {F : Type} `{DoubleOps F} (cos sin : F -> F) (PI_NUMBER : F)
      (nDim : nat) (k : Kind_ObjFunc) (cfg : FPConfig F) (C_d C_l C_t C_q : F)
      (markers : list (FPMarker F)) (Coord : nat -> nat -> F) (buf0 : nat -> F)
      (FP0 FP : nat -> nat -> F) (p : nat) :
    SetForceProj_Vector cos sin PI_NUMBER nDim k cfg C_d C_l C_t C_q markers Coord buf0 FP0
      = FPDone FP ->
    existsb (fun m => negb (Send_Receive m) && Monitoring m &&
                      existsb (Nat.eqb p) (map fst (fp_vertex m))) markers = false ->
    FP p = FP0 p.
  Proof.
    unfold SetForceProj_Vector. cbv zeta.
    match goal with |- context [match ?r with None => _ | Some _ => _ end] =>
      destruct r as [[[b z] FP'] |] eqn:Er end; intros Hd Hw; [| discriminate].
    injection Hd as <-.
    exact (marker_fold_frame cos sin nDim k _ Coord markers _ _ _ _ _ _ p Er (not_written markers p Hw)).
  Qed.
  (** X17: in 2D and 3D, [SetForceProj_Vector] completes for the drag, the
      equivalent-area and the near-field-pressure objectives; the last two
      store the same vectors, and at every vertex of a monitored,
      non-send-receive marker each of their [nDim] components is the drag
      component times the weight [WeightCd]. *)
Theorem X17_equivalent_area_weighted_drag {F : Type} `{DoubleOps F} (cos sin : F -> F)
      (PI_NUMBER : F) (nDim : nat) (cfg : FPConfig F) (C_d C_l C_t C_q : F)
      (markers : list (FPMarker F)) (Coord : nat -> nat -> F) (buf0 : nat -> F)
      (FP0 : nat -> nat -> F) :
    nDim = 2 \/ nDim = 3 ->
    exists FPd FPe,
      SetForceProj_Vector cos sin PI_NUMBER nDim DRAG_COEFFICIENT cfg C_d C_l C_t C_q markers
        Coord buf0 FP0 = FPDone FPd /\
      SetForceProj_Vector cos sin PI_NUMBER nDim EQUIVALENT_AREA cfg C_d C_l C_t C_q markers
        Coord buf0 FP0 = FPDone FPe /\
      SetForceProj_Vector cos sin PI_NUMBER nDim NEARFIELD_PRESSURE cfg C_d C_l C_t C_q markers
        Coord buf0 FP0 = FPDone FPe /\
      forall p, existsb (fun m => negb (Send_Receive m) && Monitoring m &&
                                 existsb (Nat.eqb p) (map fst (fp_vertex m))) markers = true ->
      forall d, d < nDim -> FPe p d = fmul (FPd p d) (WeightCd cfg).
  Proof.
    intros Hn.
    assert (Heq : SetForceProj_Vector cos sin PI_NUMBER nDim NEARFIELD_PRESSURE cfg C_d C_l C_t C_q
                    markers Coord buf0 FP0 =
                  SetForceProj_Vector cos sin PI_NUMBER nDim EQUIVALENT_AREA cfg C_d C_l C_t C_q
                    markers Coord buf0 FP0) by reflexivity.
    rewrite Heq. clear Heq.
    set (c := fp_coeffs PI_NUMBER nDim cfg C_d C_l C_t C_q).
    set (Cp := C_p c). set (cA := cos (Alpha c)). set (sA := sin (Alpha c)).
    set (cB := cos (Beta c)). set (sB := sin (Beta c)). set (W := WDrag c).
    destruct (marker_fold_const cos sin nDim DRAG_COEFFICIENT c Coord
                (by_dim nDim (fun _ => f0) (fmul Cp cA) (fmul Cp sA) (fmul (fmul Cp cA) cB)
                        (fmul Cp sB) (fmul (fmul Cp sA) cB))
                ltac:(intros x y z N buf; eexists; split; [reflexivity |];
                      intros d Hd; apply by_dim_low; assumption)
                markers buf0 f0 FP0) as (bd & zd & FPd & Ed & HD).
    destruct (marker_fold_const cos sin nDim EQUIVALENT_AREA c Coord
                (by_dim nDim (fun _ => f0) (fmul (fmul Cp cA) W) (fmul (fmul Cp sA) W)
                        (fmul (fmul (fmul Cp cA) cB) W) (fmul (fmul Cp sB) W)
                        (fmul (fmul (fmul Cp sA) cB) W))
                ltac:(intros x y z N buf; eexists; split; [reflexivity |];
                      intros d Hd; apply by_dim_low; assumption)
                markers buf0 f0 FP0) as (be & ze & FPe & Ee & He).
    exists FPd, FPe. unfold SetForceProj_Vector. fold c. rewrite Ed, Ee.
    split; [reflexivity | split; [reflexivity | split; [reflexivity |]]].
    intros p Hp d Hdn. rewrite (He p Hp d Hdn), (HD p Hp d Hdn).
    assert (HW : W = WeightCd cfg) by apply fp_coeffs_WDrag. rewrite HW.
    destruct Hn as [-> | ->]; destruct d as [| [| [| d]]]; solve [reflexivity | lia].
  Qed.


Import FPExamples.

Lemma X16_witness :
    exists FP,
    SetForceProj_Vector (fun x => x) (fun x => x) 3%Z 2 DRAG_COEFFICIENT ex_fp_cfg 1%Z 1%Z 1%Z 1%Z
      ex_fp_markers ex_fp_coord (fun _ => 7%Z) (fun _ _ => 5%Z) = FPDone FP /\
    existsb (fun m => negb (Send_Receive m) && Monitoring m &&
                      existsb (Nat.eqb 1) (map fst (fp_vertex m))) ex_fp_markers = false /\
    FP 1 = (fun _ => 5%Z).
  Proof.
    eexists. split; [| split];
      [| | apply (X16_force_proj_frame (fun x => x) (fun x => x) 3%Z 2 DRAG_COEFFICIENT ex_fp_cfg
                    1%Z 1%Z 1%Z 1%Z ex_fp_markers ex_fp_coord (fun _ => 7%Z) (fun _ _ => 5%Z) _ 1)];
      vm_compute; reflexivity.
  Defined.

Lemma X17_witness :
    (2 = 2 \/ 2 = 3) /\
    exists FPd FPe,
      SetForceProj_Vector (fun x => x) (fun x => x) 3%Z 2 DRAG_COEFFICIENT ex_fp_cfg 1%Z 1%Z 1%Z 1%Z
        ex_fp_markers ex_fp_coord (fun _ => 7%Z) (fun _ _ => 5%Z) = FPDone FPd /\
      SetForceProj_Vector (fun x => x) (fun x => x) 3%Z 2 EQUIVALENT_AREA ex_fp_cfg 1%Z 1%Z 1%Z 1%Z
        ex_fp_markers ex_fp_coord (fun _ => 7%Z) (fun _ _ => 5%Z) = FPDone FPe /\
      SetForceProj_Vector (fun x => x) (fun x => x) 3%Z 2 NEARFIELD_PRESSURE ex_fp_cfg 1%Z 1%Z 1%Z 1%Z
        ex_fp_markers ex_fp_coord (fun _ => 7%Z) (fun _ _ => 5%Z) = FPDone FPe /\
      forall p, existsb (fun m => negb (Send_Receive m) && Monitoring m &&
                                 existsb (Nat.eqb p) (map fst (fp_vertex m))) ex_fp_markers = true ->
      forall d, d < 2 -> FPe p d = fmul (FPd p d) (WeightCd ex_fp_cfg).
  Proof.
    split; [left; reflexivity |].
    apply (X17_equivalent_area_weighted_drag (fun x => x) (fun x => x) 3%Z 2 ex_fp_cfg
             1%Z 1%Z 1%Z 1%Z ex_fp_markers ex_fp_coord (fun _ => 7%Z) (fun _ _ => 5%Z)).
    left; reflexivity.
  Defined.

End ForceProjFacts.

(** ** Near-field boundary *)
Module NearFieldFacts.
Import Qcanon QcDouble NearField.


End NearFieldFacts.

(** ** Slip walls: the normal component *)
Module WallFacts.
Import Walls.

Section Generic.
Context {F : Type} `{DoubleOps F}.

End Generic.

Import Qcanon QcDouble.
Local Open Scope Qc_scope.








Import WallExamples.


End WallFacts.

(** ** Euler wall: the discrete branch *)
Module WallDiscreteFacts.
Import Walls.
Import TimeInt (for_loop).
Import DualTime (upd2).

Section Loops.
Context {F : Type} `{DoubleOps F}.
Variable nVar : nat.

Lemma for_loop_S {S : Type} (lo m : nat) (body : nat -> S -> S) (s : S) :
    for_loop lo (Datatypes.S m) body s = body (lo + m) (for_loop lo m body s).
  Proof. unfold for_loop. rewrite seq_S, fold_left_app. reflexivity. Qed.

Lemma zero_rows (Ji0 : nat -> nat -> F) (OFS0 : nat -> F) :
    let s := for_loop 0 nVar (fun iVar acc =>
        let '(Ji, OFS) := acc in
        (for_loop 0 nVar (fun jVar Ji => upd2 Ji iVar jVar f0) Ji,
         TimeInt.upd OFS iVar f0)) (Ji0, OFS0) in
    (forall r c, fst s r c = if (r <? nVar) && (c <? nVar) then f0 else Ji0 r c) /\
    (forall r, snd s r = if r <? nVar then f0 else OFS0 r).
  Proof.
    cbv zeta.
    apply (TimeIntFacts.for_loop_ind (fun n s =>
      (forall r c, fst s r c = if (r <? n) && (c <? nVar) then f0 else Ji0 r c) /\
      (forall r, snd s r = if r <? n then f0 else OFS0 r))).
    - split; intros; reflexivity.
    - intros n [J O] Hn [HJ HO]. simpl in HJ, HO |- *. split.
      + intros r c.
        assert (E : forall m, for_loop 0 m (fun jVar Ji => upd2 Ji n jVar f0) J r c =
                    if ((r =? n) && (c <? m)) || ((r <? n) && (c <? nVar)) then f0 else Ji0 r c).
        { induction m as [| m IH].
          - rewrite HJ. destruct (r =? n); reflexivity.
          - rewrite for_loop_S. unfold upd2 at 1. rewrite IH.
            destruct (Nat.eqb_spec r n), (Nat.eqb_spec c (0 + m)), (Nat.ltb_spec r n), (Nat.ltb_spec c m),
              (Nat.ltb_spec c (S m)), (Nat.ltb_spec c nVar); simpl; try reflexivity; lia. }
        rewrite E.
        destruct (Nat.eqb_spec r n), (Nat.ltb_spec r n), (Nat.ltb_spec r (S n)), (Nat.ltb_spec c nVar);
          simpl; try reflexivity; lia.
      + intros r. unfold TimeInt.upd. rewrite HO.
        destruct (Nat.eqb_spec r n), (Nat.ltb_spec r n), (Nat.ltb_spec r (S n)); try reflexivity; lia.
  Qed.

Lemma col_loop (N col : nat) (w : nat -> F) (J : nat -> nat -> F) (r c : nat) :
    for_loop 0 N (fun iVar Ji => upd2 Ji iVar col (w iVar)) J r c =
    if (r <? N) && (c =? col) then w r else J r c.
  Proof.
    induction N as [| N IH]; [reflexivity |].
    rewrite for_loop_S. unfold upd2 at 1. rewrite IH.
    destruct (Nat.eqb_spec r (0 + N)), (Nat.eqb_spec c col), (Nat.ltb_spec r N), (Nat.ltb_spec r (S N));
      simpl; subst; try reflexivity; lia.
  Qed.

Lemma block_loop2 (N M : nat) (val : nat -> nat -> F) (J : nat -> nat -> F) (r c : nat) :
    for_loop 0 N (fun iVar Ji =>
      for_loop 0 M (fun jDim Ji => upd2 Ji iVar (S jDim) (val iVar jDim)) Ji) J r c =
    if (r <? N) && (1 <=? c) && (c <=? M) then val r (c - 1) else J r c.
  Proof.
    induction N as [| N IH]; [reflexivity |].
    rewrite for_loop_S.
    assert (E : forall m (J' : nat -> nat -> F),
      for_loop 0 m (fun jDim Ji => upd2 Ji (0 + N) (S jDim) (val (0 + N) jDim)) J' r c =
      if (r =? N) && (1 <=? c) && (c <=? m) then val r (c - 1) else J' r c).
    { induction m as [| m IHm]; intros J'.
      - destruct (r =? N), c; reflexivity.
      - rewrite for_loop_S. unfold upd2 at 1. rewrite IHm. cbn [Nat.add].
        destruct (Nat.eqb_spec r N) as [-> | Hr]; simpl andb; [| reflexivity].
        destruct c as [| c]; [reflexivity |].
        replace (S c - 1) with c by lia.
        destruct (Nat.eqb_spec (S c) (S m)) as [Hc | Hc]; simpl andb.
        + injection Hc as ->. rewrite Nat.leb_refl. reflexivity.
        + destruct m as [| m']; [destruct c; [lia | reflexivity] |].
          destruct (Nat.leb_spec c m'), (Nat.leb_spec c (S m')); try reflexivity; lia. }
    rewrite E, IH.
    destruct (Nat.eqb_spec r N), (Nat.ltb_spec r N), (Nat.ltb_spec r (S N)); simpl; subst; try lia;
      reflexivity.
  Qed.

Lemma vec_loop (N : nat) (w : nat -> F) (O : nat -> F) (r : nat) :
    for_loop 0 N (fun iVar O => TimeInt.upd O iVar (w iVar)) O r = if r <? N then w r else O r.
  Proof.
    induction N as [| N IH]; [reflexivity |].
    rewrite for_loop_S. unfold TimeInt.upd at 1. rewrite IH.
    destruct (Nat.eqb_spec r (0 + N)), (Nat.ltb_spec r N), (Nat.ltb_spec r (S N)); simpl; subst;
      try reflexivity; lia.
  Qed.
End Loops.

  (** X21: in the compressible discrete branch of [BC_Euler_Wall] (with
      [nVar = nDim + 2]), the block added to the Jacobian at an owned
      vertex has, in every row [iVar < nVar], a zero first and last column
      and [dPressure[iVar]*UnitaryNormal[jDim]*Area] in column [jDim+1];
      entries outside the [nVar] by [nVar] block keep their previous
      values. The objective source is [dPressure[iVar]*bcn] for a force
      objective and zero otherwise. *)
Theorem X21_euler_wall_discrete_block {F : Type} `{DoubleOps F} (nDim nVar : nat) (Gamma_Minus_One : F)
      (force_obj : bool) (d U Normal dP0 OFS0 : nat -> F) (Ji0 : nat -> nat -> F) :
    nVar = nDim + 2 ->
    let res := euler_wall_discrete nDim nVar Gamma_Minus_One force_obj d U Normal dP0 OFS0 Ji0 in
    let dP := dPressure nDim nVar Gamma_Minus_One U dP0 in
    let n := unitary_normal nDim Normal in
    let Area := wall_area nDim Normal in
    let bcn := fold_left (fun acc iDim => fadd acc (fmul (fmul (d iDim) (n iDim)) Area)) (seq 0 nDim) f0 in
    (forall r c, snd res r c =
       if r <? nVar then
         if c =? 0 then f0
         else if c <=? nDim then fmul (fmul (dP r) (n (c - 1))) Area
         else if c =? nVar - 1 then f0
         else Ji0 r c
       else Ji0 r c) /\
    (forall r, fst res r = if r <? nVar then (if force_obj then fmul (dP r) bcn else f0) else OFS0 r).
  Proof.
    intros Hv. cbv zeta. unfold euler_wall_discrete.
    match goal with |- context [match ?t with pair _ _ => _ end] =>
      assert (HZ : (forall r c, fst t r c = if (r <? nVar) && (c <? nVar) then f0 else Ji0 r c) /\
                   (forall r, snd t r = if r <? nVar then f0 else OFS0 r))
        by exact (zero_rows nVar Ji0 OFS0);
      revert HZ; destruct t as [Ja Oa]; intros [HA HB] end.
    cbn [fst snd] in HA, HB. cbv beta iota zeta. cbn [fst snd]. split.
    - intros r c.
      rewrite (col_loop nVar (nVar - 1) (fun _ => f0)).
      rewrite (block_loop2 nVar nDim (fun iVar jDim => fmul (fmul (dPressure nDim nVar Gamma_Minus_One U dP0 iVar)
                                   (unitary_normal nDim Normal jDim)) (wall_area nDim Normal))).
      rewrite (col_loop nVar 0 (fun _ => f0)), HA.
      subst nVar.
      destruct (Nat.ltb_spec r (nDim + 2)), (Nat.eqb_spec c 0), (Nat.eqb_spec c (nDim + 2 - 1)),
        (Nat.leb_spec 1 c), (Nat.leb_spec c nDim), (Nat.ltb_spec c (nDim + 2)); cbn [andb];
        try reflexivity; lia.
    - intros r. destruct force_obj.
      + rewrite (vec_loop nVar (fun iVar => fmul (dPressure nDim nVar Gamma_Minus_One U dP0 iVar)
                   (fold_left (fun acc iDim => fadd acc (fmul (fmul (d iDim) (unitary_normal nDim Normal iDim))
                      (wall_area nDim Normal))) (seq 0 nDim) f0))), HB.
        destruct (r <? nVar); reflexivity.
      + rewrite HB. destruct (r <? nVar); reflexivity.
  Qed.

Lemma X21_witness :
    4 = 2 + 2 /\
    let res := euler_wall_discrete 2 4 1%Z true (fun _ => 1%Z) (fun i => Z.of_nat (S i))
                 (fun _ => 1%Z) (fun _ => 0%Z) (fun _ => 7%Z) (fun _ _ => 9%Z) in
    let dP := dPressure 2 4 1%Z (fun i => Z.of_nat (S i)) (fun _ => 0%Z) in
    let n := unitary_normal 2 (fun _ => 1%Z) in
    let Area := wall_area 2 (fun _ => 1%Z) in
    let bcn := fold_left (fun acc iDim => fadd acc (fmul (fmul ((fun _ => 1%Z) iDim) (n iDim)) Area))
                 (seq 0 2) f0 in
    (forall r c, snd res r c =
       if r <? 4 then
         if c =? 0 then f0
         else if c <=? 2 then fmul (fmul (dP r) (n (c - 1))) Area
         else if c =? 4 - 1 then f0
         else (fun _ _ => 9%Z) r c
       else (fun _ _ => 9%Z) r c) /\
    (forall r, fst res r = if r <? 4 then (if true then fmul (dP r) bcn else f0) else (fun _ => 7%Z) r).
  Proof.
    split; [reflexivity |].
    apply (X21_euler_wall_discrete_block 2 4 1%Z true (fun _ => 1%Z) (fun i => Z.of_nat (S i))
             (fun _ => 1%Z) (fun _ => 0%Z) (fun _ => 7%Z) (fun _ _ => 9%Z)).
    reflexivity.
  Defined.
End WallDiscreteFacts.

(** ** Undivided Laplacian *)
Module LaplacianFacts.
Import Laplacian.
Import TimeInt (for_loop).


Section Generic.
Context {F : Type} `{DoubleOps F}.
Variable nVar : nat.




End Generic.



Import LaplExamples.


Import Qcanon QcDouble.


End LaplacianFacts.
